(** * Bybit leverage calculator: a shallow embedding of [src/App.jsx]

    The component [BybitLeverageCalculator] keeps its state in React hooks and
    derives everything else from it.  This development embeds the parts that
    carry logic: the calculation engine [calculateResults], the search
    de-duplication of [searchCryptoPairs], the trending filter of
    [fetchTrendingPairs], and the state transitions [selectPair],
    [resetToInitialState] and the restoration from the page address
    ([searchPair]).

    JavaScript numbers are IEEE 754 binary64 values.  They are modelled by
    Rocq's primitive [float], whose operations are the same binary64
    operations with round-to-nearest-even, so every arithmetic expression
    below is the source expression, operation for operation.  Network replies
    are inputs of the embedded functions.

    The first part holds the definitions, the second part the properties
    the specification claims, the third part further properties of the
    code: of the formatting helpers, of [updateURL], of the search box with
    its timers and of the progress bar of the trending list. *)

From Stdlib Require Import ZArith List String Ascii Bool Lia Floats.
From stdpp Require Import base gmap sets strings.
Import ListNotations.

Set Warnings "-inexact-float".
Open Scope string_scope.
Open Scope list_scope.

(** * Part I: the program *)

(** ** JavaScript numbers and strings *)

Module JS.

Abbreviation number := float.

(** [!x] on a number is true for [NaN], [+0] and [-0]. *)
Definition falsy (x : number) : bool := (is_nan x || is_zero x)%bool.

(** [!s] on a string is true for the empty string only. *)
Definition str_falsy (s : string) : bool :=
  match s with EmptyString => true | String _ _ => false end.

(** [a || b] on strings. *)
Definition str_or (a b : string) : string := if str_falsy a then b else a.

(** [a > b] *)
Definition gt (a b : number) : bool := (b <? a)%float.

(** *** [parseFloat]

    The built-in skips leading white space, reads the longest prefix that
    is a [StrDecimalLiteral] (an optional sign, then [Infinity] or decimal
    digits with an optional fraction and an optional exponent) and returns
    the binary64 value nearest to the decimal it read, or [NaN] when no
    such prefix exists.  Strings are taken over ASCII. *)

Definition isWhiteSpace (c : ascii) : bool :=
  let n := N_of_ascii c in
  ((9 <=? n) && (n <=? 13) || (n =? 32))%N.

Fixpoint trimStart (s : string) : string :=
  match s with
  | String c s' => if isWhiteSpace c then trimStart s' else s
  | EmptyString => s
  end.

Definition digit_of (c : ascii) : option Z :=
  let n := Z.of_N (N_of_ascii c) in
  if ((48 <=? n) && (n <=? 57))%Z then Some (n - 48)%Z else None.

(** The maximal run of decimal digits at the head of [s]: the number read
    on top of [acc], how many digits were read, and the rest. *)
Fixpoint read_digits (s : string) (acc : Z) (cnt : Z) : Z * Z * string :=
  match s with
  | String c s' =>
      match digit_of c with
      | Some d => read_digits s' (10 * acc + d)%Z (cnt + 1)%Z
      | None => (acc, cnt, s)
      end
  | EmptyString => (acc, cnt, s)
  end.

Definition read_sign (s : string) : bool * string :=
  match s with
  | String "-" s' => (true, s')
  | String "+" s' => (false, s')
  | _ => (false, s)
  end.

(** The exponent part [e], [E] followed by an optional sign and at least
    one digit; an incomplete exponent is not part of the prefix. *)
Definition read_exponent (s : string) : Z :=
  match s with
  | String c s' =>
      if (Ascii.eqb c "e" || Ascii.eqb c "E")%bool then
        let '(neg, s'') := read_sign s' in
        let '(e, cnt, _) := read_digits s'' 0%Z 0%Z in
        if (cnt =? 0)%Z then 0%Z else if neg then (- e)%Z else e
      else 0%Z
  | EmptyString => 0%Z
  end.

(** The binary64 value nearest to [m * 10 ^ e10] (ties to even), with the
    sign [neg].  A negative power of ten is divided out exactly: the
    quotient keeps at least 64 bits and the remainder decides the
    rounding. *)
Definition of_decimal (neg : bool) (m : Z) (e10 : Z) : number :=
  SF2Prim
    match m with
    | Zpos p =>
        if (0 <=? e10)%Z then
          binary_round prec emax neg (p * Z.to_pos (10 ^ e10))%positive 0%Z
        else
          let d := (10 ^ (- e10))%Z in
          let k := Z.max 0 (Zdigits2 d - Zdigits2 m + 64)%Z in
          let '(q, r) := Z.div_eucl (Z.shiftl m k) d in
          binary_round_aux prec emax neg q (- k)%Z (new_location d r)
    | _ => S754_zero neg
    end.

Definition parseFloat (s : string) : number :=
  let '(neg, s1) := read_sign (trimStart s) in
  if String.prefix "Infinity" s1 then
    (if neg then neg_infinity else infinity)
  else
    let '(ip, ni, s2) := read_digits s1 0%Z 0%Z in
    let '(m, nf, s3) :=
      match s2 with
      | String "." s2' =>
          let '(m, nf, s3) := read_digits s2' ip 0%Z in
          if ((ni =? 0) && (nf =? 0))%Z then (0%Z, 0%Z, s2) else (m, nf, s3)
      | _ => (ip, 0%Z, s2)
      end in
    if ((ni =? 0) && (nf =? 0))%Z then nan
    else of_decimal neg m (read_exponent s3 - nf)%Z.

End JS.

Import JS.

(** ** Data model *)

(** The two market categories the component queries,
    [['linear', 'inverse']]. *)
Inductive Category := linear | inverse.

Definition Category_eqb (a b : Category) : bool :=
  match a, b with
  | linear, linear | inverse, inverse => true
  | _, _ => false
  end.

(** The pair object built by [searchCryptoPairs], [fetchTrendingPairs] and
    [searchPair]. *)
Record Pair := mkPair {
  symbol : string;
  baseSymbol : string;
  category : Category;
  categoryLabel : string;
  minLeverage : number;
  maxLeverage : number
}.

(** [leverageInfo], the object [{ min, max }]. *)
Module LeverageInfo.
Record t := make { min : number; max : number }.
End LeverageInfo.

Record Targets := mkTargets {
  target1 : string;
  target2 : string;
  target3 : string
}.

Inductive TargetKey := key_target1 | key_target2 | key_target3.

(** [targets[targetKey]] *)
Definition get_target (t : Targets) (k : TargetKey) : string :=
  match k with
  | key_target1 => target1 t
  | key_target2 => target2 t
  | key_target3 => target3 t
  end.

(** The hooks of the component that the embedded functions read or write;
    [null] is [None].  The hooks that only drive the display ([searchTerm],
    [searchResults], [loading], [error], [previousPrice], [priceChange],
    [lastUpdate] and the trending hooks) are left out. *)
Record State := mkState {
  selectedPair : option Pair;
  currentPrice : option number;
  isLivePriceActive : bool;
  leverageInfo : option LeverageInfo.t;
  positionType : string;
  leverage : number;
  entryAmount : string;
  targets : Targets
}.

(** The values the hooks are created with ([useState(...)]). *)
Definition initialState : State :=
  {| selectedPair := None;
     currentPrice := None;
     isLivePriceActive := false;
     leverageInfo := None;
     positionType := "Long";
     leverage := 1%float;
     entryAmount := "";
     targets := mkTargets "" "" "" |}.

(** One entry of the list [calculateResults] returns; the field [pnl] holds
    the net profit. *)
Record Result := mkResult {
  target : nat;
  targetPrice : number;
  pnl : number;
  roi : number;
  fees : number;
  finalAmount : number
}.

(** ** Calculation engine *)

Definition bybitFeeRate : number := 0.0006%float.

Section Calculation.

Variables (positionType : string) (currentPrice : number).
Variables (entryAmountNum positionSize quantity : number).

Definition isLong : bool := String.eqb positionType "Long".

(** The body of the callback of [forEach] in [calculateResults]: [None]
    is the early [return], [Some] the object pushed. *)
Definition targetResult (index : nat) (targetText : string) : option Result :=
  let targetPrice := parseFloat targetText in
  if falsy targetPrice then None
  else
    let pnl :=
      if isLong then ((targetPrice - currentPrice) * quantity)%float
      else ((currentPrice - targetPrice) * quantity)%float in
    let entryFee := (positionSize * bybitFeeRate)%float in
    let exitFee := ((quantity * targetPrice) * bybitFeeRate)%float in
    let totalFees := (entryFee + exitFee)%float in
    let netPnl := (pnl - totalFees)%float in
    let roi := ((netPnl / entryAmountNum) * 100)%float in
    Some {| target := index + 1;
            targetPrice := targetPrice;
            pnl := netPnl;
            roi := roi;
            fees := totalFees;
            finalAmount := (entryAmountNum + netPnl)%float |}.

(** One step of the [forEach]: push the entry, or leave [results]. *)
Definition pushTarget (t : Targets) (results : list Result)
    (ki : TargetKey * nat) : list Result :=
  match targetResult (snd ki) (get_target t (fst ki)) with
  | Some r => results ++ [r]
  | None => results
  end.

End Calculation.

Definition targetKeys : list (TargetKey * nat) :=
  [(key_target1, 0); (key_target2, 1); (key_target3, 2)].

(** [calculateResults]: the guard of its first line, then the loop over the
    three target keys. *)
Definition calculateResults (s : State) : list Result :=
  match selectedPair s, currentPrice s with
  | Some _, Some price =>
      if (falsy price || str_falsy (entryAmount s)
          || str_falsy (target1 (targets s)))%bool
      then []
      else
        let entryAmountNum := parseFloat (entryAmount s) in
        let positionSize := (entryAmountNum * leverage s)%float in
        let quantity := (positionSize / price)%float in
        fold_left
          (pushTarget (positionType s) price entryAmountNum positionSize
                      quantity (targets s))
          targetKeys []
  | _, _ => []
  end.

(** The loop body at the values [calculateResults] computes before the
    loop, for the current price [price]. *)
Definition entryOf (s : State) (price : number) (index : nat) (k : TargetKey)
  : option Result :=
  let entryAmountNum := parseFloat (entryAmount s) in
  let positionSize := (entryAmountNum * leverage s)%float in
  let quantity := (positionSize / price)%float in
  targetResult (positionType s) price entryAmountNum positionSize quantity
               index (get_target (targets s) k).

(** What one step of the loop appends to [results]. *)
Definition pushed (o : option Result) : list Result :=
  match o with Some r => [r] | None => [] end.

(** [handleTargetChange]: [setTargets(prev => ({ ...prev, [targetKey]: value }))] *)
Definition set_target (t : Targets) (k : TargetKey) (value : string) : Targets :=
  match k with
  | key_target1 => mkTargets value (target2 t) (target3 t)
  | key_target2 => mkTargets (target1 t) value (target3 t)
  | key_target3 => mkTargets (target1 t) (target2 t) value
  end.

Definition handleTargetChange (k : TargetKey) (value : string) (s : State) : State :=
  {| selectedPair := selectedPair s;
     currentPrice := currentPrice s;
     isLivePriceActive := isLivePriceActive s;
     leverageInfo := leverageInfo s;
     positionType := positionType s;
     leverage := leverage s;
     entryAmount := entryAmount s;
     targets := set_target (targets s) k value |}.

(** [setLeverage(v)] *)
Definition setLeverage (v : number) (s : State) : State :=
  {| selectedPair := selectedPair s;
     currentPrice := currentPrice s;
     isLivePriceActive := isLivePriceActive s;
     leverageInfo := leverageInfo s;
     positionType := positionType s;
     leverage := v;
     entryAmount := entryAmount s;
     targets := targets s |}.

(** The entries of a result list that belong to target number [i]. *)
Definition entriesFor (i : nat) (results : list Result) : list Result :=
  List.filter (fun r => Nat.eqb (target r) i) results.

(** ** Market data *)

(** [item.leverageFilter]; a field the reply leaves out reads as the empty
    string, which the source treats as it treats [undefined]: falsy under
    [||] and [NaN] under [parseFloat]. *)
Module LeverageFilter.
Record t := make { minLeverage : string; maxLeverage : string }.
End LeverageFilter.

(** One element of [data.result.list] of the instruments endpoint. *)
Module Item.
Record t := make {
  symbol : string;
  status : string;
  leverageFilter : option LeverageFilter.t
}.
End Item.

(** One element of [data.result.list] of the tickers endpoint. *)
Module Ticker.
Record t := make {
  symbol : string;
  lastPrice : string;
  price24hPcnt : string;
  volume24h : string
}.
End Ticker.

(** The decoded body of a reply: [retCode] and [result.list], which may be
    missing. *)
Record Data (A : Type) := mkData {
  retCode : Z;
  result_list : option (list A)
}.

Arguments mkData {A}.
Arguments retCode {A}.
Arguments result_list {A}.

(** What the promise of one category resolves to in [searchCryptoPairs] and
    [searchPair]: [{ category, data }], or [{ category, error }] when the
    request failed. *)
Inductive Reply := reply_data (data : Data Item.t) | reply_error.

(** The test [!error && data?.retCode === 0 && data?.result?.list] and the
    list it guards. *)
Definition usable_list (r : Reply) : option (list Item.t) :=
  match r with
  | reply_data data => if (retCode data =? 0)%Z then result_list data else None
  | reply_error => None
  end.

(** [item.leverageFilter && parseFloat(item.leverageFilter.maxLeverage) > 1] *)
Definition hasLeverage (item : Item.t) : bool :=
  match Item.leverageFilter item with
  | Some lf => gt (parseFloat (LeverageFilter.maxLeverage lf)) 1
  | None => false
  end.

(** [parseFloat(item.leverageFilter?.minLeverage || '1')] *)
Definition minLeverageOf (item : Item.t) : number :=
  parseFloat
    match Item.leverageFilter item with
    | Some lf => str_or (LeverageFilter.minLeverage lf) "1"
    | None => "1"
    end.

(** [parseFloat(item.leverageFilter?.maxLeverage || '100')] *)
Definition maxLeverageOf (item : Item.t) : number :=
  parseFloat
    match Item.leverageFilter item with
    | Some lf => str_or (LeverageFilter.maxLeverage lf) "100"
    | None => "100"
    end.

(** The pair object both [searchCryptoPairs] and [searchPair] build from an
    instrument of a category. *)
Definition pairOf (category : Category) (item : Item.t) : Pair :=
  {| symbol := match category with
               | linear => Item.symbol item
               | inverse => String.append (Item.symbol item) ".I"
               end;
     baseSymbol := Item.symbol item;
     category := category;
     categoryLabel := match category with
                      | linear => "USDT Perpetual"
                      | inverse => "Inverse Perpetual"
                      end;
     minLeverage := minLeverageOf item;
     maxLeverage := maxLeverageOf item |}.

(** ** Methods of the built-in [String] *)

Definition lowerChar (c : ascii) : ascii :=
  let n := N_of_ascii c in
  if ((65 <=? n) && (n <=? 90))%N then ascii_of_N (n + 32) else c.

Fixpoint toLowerCase (s : string) : string :=
  match s with
  | String c s' => String (lowerChar c) (toLowerCase s')
  | EmptyString => EmptyString
  end.

Fixpoint includes (s needle : string) : bool :=
  (String.prefix needle s ||
   match s with
   | String _ s' => includes s' needle
   | EmptyString => false
   end)%bool.

Definition endsWith (s suffix : string) : bool :=
  let n := String.length s in
  let k := String.length suffix in
  ((k <=? n)%nat && String.eqb (String.substring (n - k) k s) suffix)%bool.

(** ** Restoration from the page address *)

(** [new URLSearchParams(window.location.search)]; [params.get(k)] is the
    lookup, [null] when the key is absent. *)
Abbreviation Params := (gmap string string).

Definition get (params : Params) (k : string) : option string := params !! k.

(** Truth of [params.get(k)]: present and not empty. *)
Definition get_truthy (params : Params) (k : string) : option string :=
  match get params k with
  | Some v => if str_falsy v then None else Some v
  | None => None
  end.

(** [params.get(k) || ''] *)
Definition get_or_empty (params : Params) (k : string) : string :=
  match get params k with Some v => v | None => "" end.

(** The predicate of [data.result.list.find] in [searchPair]. *)
Definition resolves (pairFromURL : string) (item : Item.t) : bool :=
  (String.eqb (Item.symbol item) pairFromURL &&
   String.eqb (Item.status item) "Trading" &&
   hasLeverage item)%bool.

(** The loop [for (const { category, data, error } of results)] with its
    [break]: the first category, in order, whose list has a match. *)
Fixpoint findPair (pairFromURL : string) (results : list (Category * Reply))
  : option (Item.t * Category) :=
  match results with
  | [] => None
  | (category, reply) :: rest =>
      match usable_list reply with
      | Some l =>
          match List.find (resolves pairFromURL) l with
          | Some item => Some (item, category)
          | None => findPair pairFromURL rest
          end
      | None => findPair pairFromURL rest
      end
  end.

(** The state updates of [searchPair] once the pair is found. *)
Definition restoreState (params : Params) (pairObj : Pair) (s : State) : State :=
  {| selectedPair := Some pairObj;
     currentPrice := currentPrice s;
     isLivePriceActive := true;
     leverageInfo :=
       Some (LeverageInfo.make (minLeverage pairObj) (maxLeverage pairObj));
     positionType :=
       match get_truthy params "position" with
       | Some urlPosition => urlPosition
       | None => positionType s
       end;
     leverage :=
       match get_truthy params "leverage" with
       | Some urlLeverage => parseFloat urlLeverage
       | None => leverage s
       end;
     entryAmount :=
       match get_truthy params "entry" with
       | Some urlEntry => urlEntry
       | None => entryAmount s
       end;
     targets :=
       mkTargets (get_or_empty params "t1") (get_or_empty params "t2")
                 (get_or_empty params "t3") |}.

(** The effect that loads the state from the address on mount, given the
    replies of the two categories. *)
Definition loadFromURL (params : Params) (linearReply inverseReply : Reply)
    (s : State) : State :=
  match get_truthy params "pair" with
  | Some pairFromURL =>
      match findPair pairFromURL [(linear, linearReply); (inverse, inverseReply)] with
      | Some (foundPair, foundCategory) =>
          restoreState params (pairOf foundCategory foundPair) s
      | None => s
      end
  | None => s
  end.

(** ** Selection, inputs and reset *)

(** The reply of the single-symbol ticker request, reduced to what the
    source reads: [Some lastPrice] when [retCode === 0] and the list is not
    empty, [None] otherwise (also when the request throws). *)
Definition PriceReply := option string.

Definition selectPair (pair : Pair) (reply : PriceReply) (s : State) : State :=
  {| selectedPair := Some pair;
     currentPrice :=
       match reply with Some lastPrice => Some (parseFloat lastPrice) | None => None end;
     isLivePriceActive :=
       match reply with Some _ => true | None => false end;
     leverageInfo := Some (LeverageInfo.make (minLeverage pair) (maxLeverage pair));
     positionType := positionType s;
     leverage := minLeverage pair;
     entryAmount := entryAmount s;
     targets := targets s |}.

(** [fetchCurrentPrice]: a failed poll changes nothing. *)
Definition fetchCurrentPrice (reply : PriceReply) (s : State) : State :=
  match selectedPair s, reply with
  | Some _, Some lastPrice =>
      {| selectedPair := selectedPair s;
         currentPrice := Some (parseFloat lastPrice);
         isLivePriceActive := isLivePriceActive s;
         leverageInfo := leverageInfo s;
         positionType := positionType s;
         leverage := leverage s;
         entryAmount := entryAmount s;
         targets := targets s |}
  | _, _ => s
  end.

Definition resetToInitialState (s : State) : State := initialState.

Definition setPositionType (v : string) (s : State) : State :=
  {| selectedPair := selectedPair s;
     currentPrice := currentPrice s;
     isLivePriceActive := isLivePriceActive s;
     leverageInfo := leverageInfo s;
     positionType := v;
     leverage := leverage s;
     entryAmount := entryAmount s;
     targets := targets s |}.

Definition setEntryAmount (v : string) (s : State) : State :=
  {| selectedPair := selectedPair s;
     currentPrice := currentPrice s;
     isLivePriceActive := isLivePriceActive s;
     leverageInfo := leverageInfo s;
     positionType := positionType s;
     leverage := leverage s;
     entryAmount := v;
     targets := targets s |}.

(** The [onChange] of the leverage slider: [setLeverage(parseFloat(e.target.value))]. *)
Definition changeLeverage (value : string) (s : State) : State :=
  setLeverage (parseFloat value) s.

(** The user and timer events of a session after mount. *)
Inductive Event :=
| ev_selectPair (pair : Pair) (reply : PriceReply)
| ev_price (reply : PriceReply)
| ev_leverage (value : string)
| ev_positionType (v : string)
| ev_entryAmount (v : string)
| ev_target (k : TargetKey) (v : string)
| ev_reset.

Definition handle (s : State) (e : Event) : State :=
  match e with
  | ev_selectPair p reply => selectPair p reply s
  | ev_price reply => fetchCurrentPrice reply s
  | ev_leverage value => changeLeverage value s
  | ev_positionType v => setPositionType v s
  | ev_entryAmount v => setEntryAmount v s
  | ev_target k v => handleTargetChange k v s
  | ev_reset => resetToInitialState s
  end.

(** [a <= x <= b] on numbers. *)
Definition within (a b x : number) : bool := ((a <=? x) && (x <=? b))%float%bool.

(** What the page and the exchange guarantee about an event: a pair on
    offer has [minLeverage <= maxLeverage], and the range input, which is
    rendered with [min={leverageInfo.min}] and [max={leverageInfo.max}]
    while a pair is selected, reports a value between the two. *)
Definition admissible (s : State) (e : Event) : Prop :=
  match e with
  | ev_selectPair p _ => (minLeverage p <=? maxLeverage p)%float = true
  | ev_leverage value =>
      exists pair info,
        selectedPair s = Some pair /\ leverageInfo s = Some info /\
        within (LeverageInfo.min info) (LeverageInfo.max info) (parseFloat value) = true
  | _ => True
  end.

(** The states reached from [s0] by admissible events. *)
Inductive reachable (s0 : State) : State -> Prop :=
| reach_start : reachable s0 s0
| reach_step s e :
    reachable s0 s -> admissible s e -> reachable s0 (handle s e).

(** The leverage lies within the bounds of the selected pair. *)
Definition leverage_in_bounds (s : State) : Prop :=
  forall pair, selectedPair s = Some pair ->
               within (minLeverage pair) (maxLeverage pair) (leverage s) = true.

(** The bounds kept in [leverageInfo] are those of the selected pair, and
    the leverage lies within them. *)
Definition bounds_invariant (s : State) : Prop :=
  forall pair,
    selectedPair s = Some pair ->
    leverageInfo s =
      Some (LeverageInfo.make (minLeverage pair) (maxLeverage pair)) /\
    within (minLeverage pair) (maxLeverage pair) (leverage s) = true.

(** ** Search *)

(** The predicate of [filter] in [searchCryptoPairs]. *)
Definition matchesQuery (searchValue : string) (item : Item.t) : bool :=
  let symbol := Item.symbol item in
  let searchLower := toLowerCase searchValue in
  let matchesSearch :=
    (includes (toLowerCase symbol) searchLower &&
     (endsWith symbol "USDT" || endsWith symbol "USD"))%bool in
  (matchesSearch &&
   String.eqb (Item.status item) "Trading" &&
   hasLeverage item)%bool.

(** The pairs one category contributes to [allPairs]. *)
Definition pairsOf (searchValue : string) (category : Category) (reply : Reply)
  : list Pair :=
  match usable_list reply with
  | Some l => List.map (pairOf category) (List.filter (matchesQuery searchValue) l)
  | None => []
  end.

(** [allPairs] after the [forEach] over the replies of
    [['linear', 'inverse']]. *)
Definition allPairsOf (searchValue : string) (linearReply inverseReply : Reply)
  : list Pair :=
  fold_left (fun allPairs cr => allPairs ++ pairsOf searchValue (fst cr) (snd cr))
            [(linear, linearReply); (inverse, inverseReply)] [].

(** The body of the two [forEach] loops that fill [uniquePairs]: push the
    pair unless its base symbol was seen. *)
Definition addUnique (acc : list Pair * gset string) (p : Pair)
  : list Pair * gset string :=
  let '(uniquePairs, seenSymbols) := acc in
  if bool_decide (baseSymbol p ∈ seenSymbols) then acc
  else (uniquePairs ++ [p], seenSymbols ∪ {[ baseSymbol p ]}).

Definition ofCategory (c : Category) (p : Pair) : bool :=
  Category_eqb (category p) c.

(** [uniquePairs]: linear contracts first, then inverse ones not yet
    present. *)
Definition uniquePairsOf (allPairs : list Pair) : list Pair :=
  let afterLinear :=
    fold_left addUnique (List.filter (ofCategory linear) allPairs) ([], ∅) in
  fst (fold_left addUnique (List.filter (ofCategory inverse) allPairs) afterLinear).

(** [finalResults = uniquePairs.slice(0, 12)] *)
Definition searchCryptoPairs (searchValue : string) (linearReply inverseReply : Reply)
  : list Pair :=
  firstn 12 (uniquePairsOf (allPairsOf searchValue linearReply inverseReply)).

(** [seenSymbols] holds the base symbols of [uniquePairs]. *)
Definition tracks (acc : list Pair * gset string) : Prop :=
  forall b, b ∈ snd acc <-> In b (List.map baseSymbol (fst acc)).

(** ** Trending *)

Module Bounds.
Record t := make { minLeverage : number; maxLeverage : number }.
End Bounds.

(** An element of [trendingPairs]: the fields of a pair and the market
    figures shown on the card. *)
Module Trending.
Record t := make {
  pair : Pair;
  lastPrice : number;
  priceChangePercent : number;
  volume24h : number;
  isHot : bool
}.
End Trending.

(** [instrumentsMap], filled by [forEach] with [set]. *)
Definition instrumentsMapOf (items : list Item.t) : gmap string Bounds.t :=
  fold_left
    (fun m item =>
       <[Item.symbol item := Bounds.make (minLeverageOf item) (maxLeverageOf item)]> m)
    items ∅.

(** The predicate of [filter] in [fetchTrendingPairs]. *)
Definition isTrending (instrumentsMap : gmap string Bounds.t) (ticker : Ticker.t) : bool :=
  (endsWith (Ticker.symbol ticker) "USDT" &&
   gt (parseFloat (Ticker.volume24h ticker)) 1000000 &&
   gt (parseFloat (Ticker.lastPrice ticker)) 0 &&
   bool_decide (is_Some (instrumentsMap !! Ticker.symbol ticker)))%bool.

(** [parseFloat(ticker.price24hPcnt || 0)] *)
Definition pcntOf (ticker : Ticker.t) : number :=
  parseFloat (str_or (Ticker.price24hPcnt ticker) "0").

(** The callback of [map] in [fetchTrendingPairs]; the lookup succeeds on
    every ticker that passed the filter. *)
Definition trendingOf (instrumentsMap : gmap string Bounds.t) (ticker : Ticker.t)
  : Trending.t :=
  let leverageInfo :=
    default (Bounds.make nan nan) (instrumentsMap !! Ticker.symbol ticker) in
  {| Trending.pair :=
       {| symbol := Ticker.symbol ticker;
          baseSymbol := Ticker.symbol ticker;
          category := linear;
          categoryLabel := "USDT Perpetual";
          minLeverage := Bounds.minLeverage leverageInfo;
          maxLeverage := Bounds.maxLeverage leverageInfo |};
     Trending.lastPrice := parseFloat (Ticker.lastPrice ticker);
     Trending.priceChangePercent := (pcntOf ticker * 100)%float;
     Trending.volume24h := parseFloat (Ticker.volume24h ticker);
     Trending.isHot := gt (abs (pcntOf ticker)) 0.05 |}.

(** [sort((a, b) => b.volume24h - a.volume24h)]: a stable sort in which [b]
    moves in front of [a] when the comparator is above zero. *)
Definition comparator (a b : Trending.t) : number :=
  (Trending.volume24h b - Trending.volume24h a)%float.

Fixpoint insertSorted (x : Trending.t) (l : list Trending.t) : list Trending.t :=
  match l with
  | [] => [x]
  | y :: l' => if gt (comparator x y) 0 then y :: insertSorted x l' else x :: l
  end.

Definition sortByVolume (l : list Trending.t) : list Trending.t :=
  fold_right insertSorted [] l.

(** [validPairs] of [fetchTrendingPairs]. *)
Definition validPairsOf (tickers : list Ticker.t) (instruments : list Item.t)
  : list Trending.t :=
  let instrumentsMap := instrumentsMapOf instruments in
  firstn 8
    (sortByVolume
       (List.map (trendingOf instrumentsMap)
                 (List.filter (isTrending instrumentsMap) tickers))).

(** [fetchTrendingPairs]: the new value of [trendingPairs], which is left
    as it was unless both replies carry [retCode === 0]. *)
Definition fetchTrendingPairs (tickersData : Data Ticker.t)
    (instrumentsData : Data Item.t) (trendingPairs : list Trending.t)
  : list Trending.t :=
  if ((retCode tickersData =? 0) && (retCode instrumentsData =? 0))%Z%bool then
    match result_list tickersData with
    | Some tickers =>
        validPairsOf tickers (default [] (result_list instrumentsData))
    | None => []
    end
  else trendingPairs.

(** ** Sample inputs *)

Definition BTCUSDT : Pair :=
  mkPair "BTCUSDT" "BTCUSDT" linear "USDT Perpetual" 1 100.

(** A selected pair at the live price [price] with the given inputs. *)
Definition session (price : number) (positionType : string) (leverage : number)
    (entryAmount t1 t2 t3 : string) : State :=
  {| selectedPair := Some BTCUSDT;
     currentPrice := Some price;
     isLivePriceActive := true;
     leverageInfo := Some (LeverageInfo.make 1 100);
     positionType := positionType;
     leverage := leverage;
     entryAmount := entryAmount;
     targets := mkTargets t1 t2 t3 |}.

(** The example of the specification: 1000 at 10x, long from 50000 to 55000. *)
Definition spec_example : State := session 50000 "Long" 10 "1000" "55000" "" "".

Definition listing (items : list Item.t) : Reply :=
  reply_data (mkData 0 (Some items)).

Definition BTCUSDT_item : Item.t :=
  Item.make "BTCUSDT" "Trading" (Some (LeverageFilter.make "1" "100")).

Definition BTCUSD_item : Item.t :=
  Item.make "BTCUSD" "Trading" (Some (LeverageFilter.make "1" "100")).

Definition DELISTED_item : Item.t :=
  Item.make "LUNAUSDT" "Closed" (Some (LeverageFilter.make "1" "50")).

(** The address [?pair=BTCUSDT&leverage=500]. *)
Definition address_500 : Params :=
  <["pair" := "BTCUSDT"]> (<["leverage" := "500"]> ∅).

(** The address [?pair=LUNAUSDT&leverage=20&entry=100&t1=2]. *)
Definition address_delisted : Params :=
  <["pair" := "LUNAUSDT"]> (<["leverage" := "20"]>
    (<["entry" := "100"]> (<["t1" := "2"]> ∅))).

Definition ticker (symbol volume24h lastPrice price24hPcnt : string) : Ticker.t :=
  Ticker.make symbol lastPrice price24hPcnt volume24h.

Definition sample_tickers : list Ticker.t :=
  [ ticker "BTCUSDT" "2000000" "50000" "0.06";
    ticker "BTCPERP" "90000000" "50000" "0.2";
    ticker "ETHUSDT" "9000000" "3000" "" ].

Definition sample_instruments : list Item.t :=
  [ BTCUSDT_item;
    Item.make "BTCPERP" "Trading" (Some (LeverageFilter.make "1" "100"));
    Item.make "ETHUSDT" "Trading" (Some (LeverageFilter.make "1" "50")) ].

(** ** Rounding in binary64

    [SpecFloat] rounds with [binary_round_aux], which shifts a mantissa to
    its exponent and rounds it to nearest, ties to even.  The definitions
    below name the pieces of that computation for a value [N / D * 2 ^ e]. *)

Section Rounding_model.

Local Open Scope Z_scope.

(** Where the fraction of [N / D] lies with respect to one half. *)
Definition locq (N D : Z) : location :=
  if N mod D =? 0 then loc_Exact else loc_Inexact (2 * (N mod D) ?= D).

(** The record [mrs] holds the integer part of [N / D] and the position of
    its fraction. *)
Definition repr (N D : Z) (mrs : shr_record) : Prop :=
  shr_m mrs = N / D /\ loc_of_shr_record mrs = locq N D.

(** Round to nearest, ties to even, of the fraction [N / D]. *)
Definition RNE (N D : Z) : Z := round_nearest_even (N / D) (locq N D).

(** The exponent of the binary64 floats of magnitude [x]: 53 bits of
    precision, and no exponent below -1074. *)
Definition fexp64 (x : Z) : Z := Z.max (x - 53) (-1074).

(** The float a rounded mantissa [m2] at exponent [F] stands for. *)
Definition mk (m2 F : Z) : spec_float :=
  match m2 with
  | Zpos p =>
      if m2 =? 2 ^ 53 then
        if F + 1 <=? 971 then S754_finite false (2 ^ 52)%positive (F + 1)
        else S754_infinity false
      else if F <=? 971 then S754_finite false p F
           else S754_infinity false
  | _ => S754_zero false
  end.

(** The float that [binary_round_aux] returns for the value
    [N / D * 2 ^ e]. *)
Definition rnd (N D e : Z) : spec_float :=
  binary_round_aux prec emax false (N / D) e (locq N D).

(** The mantissa [N / D] carries at least the bits its exponent asks for,
    so rounding only shifts to the right. *)
Definition pre (N D e : Z) : Prop := e <= fexp64 (Zdigits2 (N / D) + e).

(** The exponent [SFdiv] gives the quotient before it rounds. *)
Definition div_exp (mx mc : positive) (ex ec : Z) : Z :=
  Z.min (fexp64 (Zdigits2 (Z.pos mx) + ex - (Zdigits2 (Z.pos mc) + ec))) (ex - ec).

(** The exponent [binary_round] aligns the mantissa [S] to. *)
Definition round_exp (S ez : Z) : Z := Z.min ez (fexp64 (Zdigits2 S + ez)).

(** The exact sum of two mantissas at the smaller of their exponents. *)
Definition add_sum (mx mc : positive) (ex ec : Z) : Z :=
  Z.pos mx * 2 ^ (ex - Z.min ex ec) + Z.pos mc * 2 ^ (ec - Z.min ex ec).

(** [0 <= x]: a zero, a positive finite float or plus infinity. *)
Definition nonneg (x : spec_float) : Prop := SFleb (S754_zero false) x = true.

Inductive nonneg_view : spec_float -> Prop :=
| nv_zero s : nonneg_view (S754_zero s)
| nv_inf : nonneg_view (S754_infinity false)
| nv_finite m e : nonneg_view (S754_finite false m e).

(** [0 < x] *)
Definition above_zero (x : spec_float) : Prop :=
  SFltb (S754_zero false) x = true.

End Rounding_model.

(** ** Formatting *)

(** [parseFloat(x)] for a number [x].  The built-in reads [String(x)], the
    shortest decimal that denotes [x], so it returns [x]; the one exception
    is [-0], whose string is ["0"]. *)
Definition parseFloatOfNumber (x : number) : number :=
  if is_zero x then 0%float else x.

(** The [options] of [formatCurrency]; a field that is left out is
    [None]. *)
Module Options.
Record t := make {
  decimals : option nat;
  showCents : option bool;
  prefix : option string;
  suffix : option string
}.
Definition empty : t := make None None None None.
End Options.

Section Formatting.

(** [num.toLocaleString('en-US', { minimumFractionDigits: d,
    maximumFractionDigits: d })], a built-in of the host. *)
Variable toLocaleString : number -> nat -> string.

(** [finalDecimals] of [formatCurrency], with the defaults [decimals = 2]
    and [showCents = true]. *)
Definition finalDecimals (num : number) (options : Options.t) : nat :=
  let decimals := default 2 (Options.decimals options) in
  let showCents := default true (Options.showCents options) in
  if showCents then Nat.max decimals (if (num <? 1)%float then 4 else 2)
  else decimals.

(** [formatCurrency(amount, options)]; [None] is [null] or [undefined]. *)
Definition formatCurrency (amount : option number) (options : Options.t) : string :=
  match amount with
  | None => "N/A"
  | Some amount =>
      let num := parseFloatOfNumber amount in
      if is_nan num then "N/A"
      else
        String.append (default "$" (Options.prefix options))
          (String.append (toLocaleString num (finalDecimals num options))
                         (default "" (Options.suffix options)))
  end.

(** [formatPrice(price)] *)
Definition formatPrice (price : option number) : string :=
  match price with
  | None => "N/A"
  | Some price =>
      if falsy price then "N/A"
      else
        let num := parseFloatOfNumber price in
        if (1000 <=? num)%float then
          formatCurrency (Some num) (Options.make (Some 2) None None None)
        else if (1 <=? num)%float then
          formatCurrency (Some num) (Options.make (Some 4) None None None)
        else
          formatCurrency (Some num) (Options.make (Some 6) None None None)
  end.

(** The texts of one card of the profit analysis, and whether it is drawn
    as a profit ([result.pnl >= 0]). *)
Record ResultCard := mkResultCard {
  card_targetPrice : string;
  card_pnl : string;
  card_roi : string;
  card_fees : string;
  card_finalAmount : string;
  card_profit : bool
}.

Definition resultCard (result : Result) : ResultCard :=
  {| card_targetPrice := formatPrice (Some (targetPrice result));
     card_pnl := formatCurrency (Some (pnl result)) Options.empty;
     card_roi :=
       formatCurrency (Some (roi result))
                      (Options.make (Some 2) None (Some "") (Some "%"));
     card_fees := formatCurrency (Some (fees result)) Options.empty;
     card_finalAmount := formatCurrency (Some (finalAmount result)) Options.empty;
     card_profit := (0 <=? pnl result)%float |}.

(** The volume line of a trending card,
    [formatCurrency(pair.volume24h / 1000000, { decimals: 1, prefix: '$',
    suffix: 'M' })]. *)
Definition volumeLabel (t : Trending.t) : string :=
  formatCurrency (Some (Trending.volume24h t / 1000000)%float)
                 (Options.make (Some 1) None (Some "$") (Some "M")).

(** The price line of a trending card. *)
Definition priceLabel (t : Trending.t) : string :=
  formatPrice (Some (Trending.lastPrice t)).

End Formatting.

(** ** Writing the page address *)

Section Address.

(** [x.toString()] on a number, a built-in. *)
Variable toString : number -> string.

(** The parameters [updateURL] writes. *)
Definition updateURL (s : State) : Params :=
  match selectedPair s with
  | Some selected =>
      let params : Params := <["pair" := baseSymbol selected]> ∅ in
      let params : Params := <["position" := positionType s]> params in
      let params : Params := <["leverage" := toString (leverage s)]> params in
      let params : Params :=
        if str_falsy (entryAmount s) then params
        else <["entry" := entryAmount s]> params in
      let params : Params :=
        if str_falsy (target1 (targets s)) then params
        else <["t1" := target1 (targets s)]> params in
      let params : Params :=
        if str_falsy (target2 (targets s)) then params
        else <["t2" := target2 (targets s)]> params in
      if str_falsy (target3 (targets s)) then params
      else <["t3" := target3 (targets s)]> params
  | None => ∅
  end.

End Address.

(** ** The search box *)

(** The hooks of the search box. *)
Record SearchPanel := mkSearchPanel {
  searchTerm : string;
  searchResults : list Pair;
  loading : bool;
  error : string
}.

(** The double quote character of the message below. *)
Definition doubleQuote : string := String (ascii_of_nat 34) EmptyString.

Definition notFoundMessage (searchValue : string) : string :=
  String.append "No trading pairs found for "
    (String.append doubleQuote
       (String.append searchValue
          (String.append doubleQuote
             ". Try searching for popular coins like BTC, ETH, or SOL."))).

(** The hooks once [searchCryptoPairs(searchValue)] has run to its end on
    the replies of the two categories: it cleared [error] when it started,
    and the replies are lists of instruments, on which nothing throws. *)
Definition searchCryptoPairsDone (searchValue : string)
    (linearReply inverseReply : Reply) (panel : SearchPanel) : SearchPanel :=
  let finalResults := searchCryptoPairs searchValue linearReply inverseReply in
  {| searchTerm := searchTerm panel;
     searchResults := finalResults;
     loading := false;
     error := if (length finalResults =? 0)%nat then notFoundMessage searchValue
              else "" |}.

(** The timers of the page that run a search: the identifier the next
    [setTimeout] returns, and the value each pending timer will search
    for. *)
Record Timers := mkTimers {
  nextId : nat;
  pending : gmap nat string
}.

Definition setTimeout (searchValue : string) (timers : Timers) : nat * Timers :=
  (nextId timers,
   {| nextId := S (nextId timers);
      pending := <[nextId timers := searchValue]> (pending timers) |}).

(** [clearTimeout(timeoutId)]; [None] is [undefined], which clears nothing. *)
Definition clearTimeout (timeoutId : option nat) (timers : Timers) : Timers :=
  match timeoutId with
  | Some id => {| nextId := nextId timers; pending := delete id (pending timers) |}
  | None => timers
  end.

(** The function [throttledSearch] returns, run in a closure whose variable
    [timeoutId] holds the first component; the new value of the variable is
    returned with the hooks and the timers. *)
Definition throttledSearch (searchValue : string) (timeoutId : option nat)
    (panel : SearchPanel) (timers : Timers) : option nat * SearchPanel * Timers :=
  let timers := clearTimeout timeoutId timers in
  let panel :=
    {| searchTerm := searchTerm panel;
       searchResults := searchResults panel;
       loading := true;
       error := error panel |} in
  let '(id, timers) := setTimeout searchValue timers in
  (Some id, panel, timers).

(** [setSearchResults([]); setLoading(false)] *)
Definition clearResults (panel : SearchPanel) : SearchPanel :=
  {| searchTerm := searchTerm panel;
     searchResults := [];
     loading := false;
     error := error panel |}.

Definition handleSearchChange (value : string) (timeoutId : option nat)
    (panel : SearchPanel) (timers : Timers) : option nat * SearchPanel * Timers :=
  let panel :=
    {| searchTerm := value;
       searchResults := searchResults panel;
       loading := loading panel;
       error := "" |} in
  if (2 <=? String.length value)%nat then
    throttledSearch value timeoutId panel timers
  else (timeoutId, clearResults panel, timers).

(** The callback [throttledSearch] hands to [setTimeout], with the replies
    its search receives. *)
Definition searchTimeout (searchValue : string) (linearReply inverseReply : Reply)
    (panel : SearchPanel) : SearchPanel :=
  if (2 <=? String.length searchValue)%nat then
    searchCryptoPairsDone searchValue linearReply inverseReply panel
  else clearResults panel.

(** The timer [id] fires. *)
Definition fireTimeout (id : nat) (linearReply inverseReply : Reply)
    (panel : SearchPanel) (timers : Timers) : SearchPanel * Timers :=
  match pending timers !! id with
  | Some searchValue =>
      (searchTimeout searchValue linearReply inverseReply panel,
       {| nextId := nextId timers; pending := delete id (pending timers) |})
  | None => (panel, timers)
  end.

(** ** The progress bar of the trending list *)

(** The update the 100 ms interval applies to [trendingProgress]. *)
Definition tickProgress (prev : number) : number :=
  let newProgress := (prev - 1)%float in
  if (newProgress <=? 0)%float then 100%float else newProgress.

(** What happens to the progress bar: a tick of the 100 ms interval, or
    [setTrendingProgress(100)] at a refresh. *)
Inductive ProgressEvent := progress_tick | progress_reset.

Definition stepProgress (p : number) (e : ProgressEvent) : number :=
  match e with
  | progress_tick => tickProgress p
  | progress_reset => 100%float
  end.

(** [trendingProgress] after the events, from the initial [useState(100)]. *)
Definition trendingProgressAfter (events : list ProgressEvent) : number :=
  fold_left stepProgress events 100%float.

(** ** Differences in binary64 *)

Section Difference_model.

Local Open Scope Z_scope.

(** The exact difference of two positive floats, as an integer at the
    smaller of their exponents. *)
Definition sub_diff (mx my : positive) (ex ey : Z) : Z :=
  Z.pos mx * 2 ^ (ex - Z.min ex ey) - Z.pos my * 2 ^ (ey - Z.min ex ey).

(** [x <= 0]: a zero, a negative finite float or minus infinity. *)
Definition nonpos (x : spec_float) : Prop := SFleb x (S754_zero false) = true.

End Difference_model.

(** ** Orders and strings used in the statements *)

(** [a] may stand before [b] in the trending list: its volume is at least
    that of [b]. *)
Definition byVolume (a b : Trending.t) : Prop :=
  (Trending.volume24h b <=? Trending.volume24h a)%float = true.

(** The last character of a string. *)
Fixpoint lastChar (s : string) : option ascii :=
  match s with
  | EmptyString => None
  | String c EmptyString => Some c
  | String _ s' => lastChar s'
  end.

(** ** More sample inputs *)

(** A stand-in for [toLocaleString] that prints every number alike. *)
Definition plainDigits : number -> nat -> string := fun _ _ => "0".

(** A stand-in for [toString] that is right at the number 10. *)
Definition sample_toString : number -> string := fun _ => "10".

(** The search box and the timers when the page is mounted. *)
Definition emptyPanel : SearchPanel := mkSearchPanel "" [] false "".

Definition noTimers : Timers := mkTimers 0 ∅.

(** * Part II: properties *)

(** ** Facts about binary64 values

    The primitive operations are specified by [FloatAxioms] through
    [Prim2SF]; the lemmas of this section read the few facts the claims need
    off that specification. *)

Section Binary64.

Local Open Scope float_scope.

Lemma Prim2SF_zero : Prim2SF 0 = S754_zero false.
Proof. reflexivity. Qed.

Lemma Prim2SF_infinity : Prim2SF infinity = S754_infinity false.
Proof. reflexivity. Qed.

Lemma SFcompare_refl (x : spec_float) :
  x <> S754_nan -> SFcompare x x = Some Eq.
Proof.
  destruct x as [s|s| |s m e]; cbn; intros H; try congruence.
  - now destruct s.
  - rewrite Z.compare_refl.
    change (Pos.compare_cont Eq m m) with (Pos.compare m m).
    rewrite Pos.compare_refl. now destruct s.
Qed.

Lemma SFeqb_refl_iff (x : spec_float) :
  SFeqb x x = negb (match x with S754_nan => true | _ => false end).
Proof.
  destruct x as [s|s| |s m e]; cbn; try reflexivity.
  - now destruct s.
  - unfold SFeqb; cbn. rewrite Z.compare_refl.
    change (Pos.compare_cont Eq m m) with (Pos.compare m m).
    rewrite Pos.compare_refl. now destruct s.
Qed.

Lemma is_nan_spec (x : float) : is_nan x = true <-> Prim2SF x = S754_nan.
Proof.
  unfold is_nan. rewrite FloatAxioms.eqb_spec, SFeqb_refl_iff.
  destruct (Prim2SF x); cbn; split; congruence.
Qed.

Lemma is_zero_spec (x : float) :
  is_zero x = true <-> exists s, Prim2SF x = S754_zero s.
Proof.
  unfold is_zero. rewrite FloatAxioms.eqb_spec.
  change (Prim2SF zero) with (S754_zero false).
  destruct (Prim2SF x) as [s|s| |s m e]; cbn; split;
    try congruence; try (intros [? ?]; congruence); eauto.
  all: destruct s; cbn; congruence.
Qed.

Lemma falsy_spec (x : float) :
  falsy x = true <->
  Prim2SF x = S754_nan \/ exists s, Prim2SF x = S754_zero s.
Proof.
  unfold falsy. rewrite orb_true_iff, is_nan_spec, is_zero_spec. tauto.
Qed.

(** A number above zero is neither [NaN] nor a zero. *)
Lemma gt_zero_spec (x : float) :
  gt x 0 = true <->
  Prim2SF x = S754_infinity false \/ exists m e, Prim2SF x = S754_finite false m e.
Proof.
  unfold gt. rewrite FloatAxioms.ltb_spec, Prim2SF_zero.
  destruct (Prim2SF x) as [s|s| |s m e]; unfold SFltb; cbn; split; intros H.
  all: try discriminate H.
  all: try (destruct H as [H|[? [? H]]]; discriminate H).
  all: destruct s; try discriminate H; eauto.
  all: destruct H as [H|[? [? H]]]; discriminate H.
Qed.

Lemma gt_zero_truthy (x : float) : gt x 0 = true -> falsy x = false.
Proof.
  intros H. apply gt_zero_spec in H.
  destruct (falsy x) eqn:F; [|reflexivity].
  apply falsy_spec in F.
  destruct H as [H|[m [e H]]], F as [F|[s F]]; congruence.
Qed.

(** A number below zero is neither [NaN] nor a zero. *)
Lemma lt_zero_truthy (x : float) : (x <? 0) = true -> falsy x = false.
Proof.
  rewrite FloatAxioms.ltb_spec, Prim2SF_zero. intros H.
  destruct (falsy x) eqn:F; [|reflexivity].
  apply falsy_spec in F. destruct F as [F|[s F]]; rewrite F in H.
  - discriminate H.
  - destruct s; discriminate H.
Qed.

Lemma leb_refl_l (a b : float) : (a <=? b)%float = true -> (a <=? a)%float = true.
Proof.
  rewrite !FloatAxioms.leb_spec. unfold SFleb. intros H.
  rewrite SFcompare_refl; [reflexivity|].
  intros E. rewrite E in H. discriminate H.
Qed.

End Binary64.

Section Binary64_zero.

Local Open Scope float_scope.

Local Ltac unpack H :=
  apply falsy_spec in H; destruct H as [H|[? H]]; rewrite H.

(** [0 * y] and [NaN * y] are a zero or [NaN], whatever [y] is. *)
Lemma falsy_mul_l (x y : float) : falsy x = true -> falsy (x * y) = true.
Proof.
  intros H. apply falsy_spec. rewrite mul_spec. unpack H.
  all: destruct (Prim2SF y) as [?|?| |? ? ?]; cbn; eauto.
Qed.

Lemma falsy_mul_r (x y : float) : falsy y = true -> falsy (x * y) = true.
Proof.
  intros H. apply falsy_spec. rewrite mul_spec. unpack H.
  all: destruct (Prim2SF x) as [?|?| |? ? ?]; cbn; eauto.
Qed.

(** A zero or [NaN] divided by a number that is neither stays one. *)
Lemma falsy_div (x y : float) :
  falsy x = true -> falsy y = false -> falsy (x / y) = true.
Proof.
  intros H Hy. apply falsy_spec. rewrite div_spec.
  assert (Hy' : ~ (Prim2SF y = S754_nan \/ exists s, Prim2SF y = S754_zero s))
    by (rewrite <- falsy_spec; congruence).
  unpack H.
  all: destruct (Prim2SF y) as [?|?| |? ? ?]; cbn; eauto.
  all: exfalso; apply Hy'; eauto.
Qed.

Lemma falsy_add (x y : float) :
  falsy x = true -> falsy y = true -> falsy (x + y) = true.
Proof.
  intros H Hy. apply falsy_spec. rewrite add_spec. unpack H; unpack Hy; cbn; eauto.
  repeat match goal with b : bool |- _ => destruct b end; cbn; eauto.
Qed.

Lemma falsy_sub (x y : float) :
  falsy x = true -> falsy y = true -> falsy (x - y) = true.
Proof.
  intros H Hy. apply falsy_spec. rewrite sub_spec. unpack H; unpack Hy; cbn; eauto.
  repeat match goal with b : bool |- _ => destruct b end; cbn; eauto.
Qed.

(** The unguarded division: a zero or [NaN] over a zero is [NaN]. *)
Lemma nan_div_zero (x y : float) :
  falsy x = true -> is_zero y = true -> is_nan (x / y) = true.
Proof.
  intros H Hy. apply is_nan_spec. rewrite div_spec.
  apply is_zero_spec in Hy. destruct Hy as [s Hy]. rewrite Hy.
  unpack H; reflexivity.
Qed.

Lemma nan_mul_l (x y : float) : is_nan x = true -> is_nan (x * y) = true.
Proof.
  intros H. apply is_nan_spec. rewrite mul_spec.
  apply is_nan_spec in H. now rewrite H.
Qed.

Lemma is_zero_falsy (x : float) : is_zero x = true -> falsy x = true.
Proof. unfold falsy. intros ->. apply orb_true_r. Qed.

End Binary64_zero.

(** ** Rounding is monotone

    The operations of [SpecFloat] on finite floats are [rnd] of the exact
    result, and [rnd] is monotone in the value it rounds; so products,
    quotients and sums of floats that are not negative are monotone. *)

Section Rounding.

Local Open Scope Z_scope.

(** *** The number of binary digits *)

Lemma digits2_pos_size (p : positive) : digits2_pos p = Pos.size p.
Proof. induction p; cbn; congruence. Qed.

Lemma Zdigits2_bounds (m : Z) :
  0 < m -> 2 ^ (Zdigits2 m - 1) <= m < 2 ^ Zdigits2 m.
Proof.
  destruct m as [|p|p]; try lia. intros _. cbn [Zdigits2].
  rewrite digits2_pos_size.
  pose proof (Pos.size_gt p) as G. pose proof (Pos.size_le p) as L.
  rewrite <- Pos2Z.inj_pow. split; [|lia].
  assert (2 ^ Z.pos (Pos.size p) = 2 * 2 ^ (Z.pos (Pos.size p) - 1)).
  { rewrite <- Z.pow_succ_r by lia. f_equal. lia. }
  rewrite <- Pos2Z.inj_pow in H.
  assert (Z.pos (2 ^ Pos.size p) <= Z.pos p~0) by (apply Pos2Z.pos_le_pos; exact L).
  lia.
Qed.

Lemma Zdigits2_nonneg m : 0 <= Zdigits2 m.
Proof. destruct m; cbn; lia. Qed.

Lemma Zdigits2_pos m : 0 < m -> 0 < Zdigits2 m.
Proof. destruct m; cbn; lia. Qed.

Lemma Zdigits2_unique m d :
  0 < m -> 2 ^ (d - 1) <= m < 2 ^ d -> 0 < d -> Zdigits2 m = d.
Proof.
  intros Hm [L U] Hd. pose proof (Zdigits2_bounds m Hm) as [L' U'].
  pose proof (Zdigits2_pos m Hm).
  destruct (Z.lt_trichotomy (Zdigits2 m) d) as [H1|[H1|H1]]; [|assumption|].
  - assert (2 ^ Zdigits2 m <= 2 ^ (d - 1)) by (apply Z.pow_le_mono_r; lia). lia.
  - assert (2 ^ d <= 2 ^ (Zdigits2 m - 1)) by (apply Z.pow_le_mono_r; lia). lia.
Qed.

(** *** Shifting to the right keeps the value

    Settle the tests and comparisons on integers that [lia] decides. *)

Ltac decide_Z :=
  repeat match goal with
    | |- context [?a =? ?b] =>
        first [ replace (a =? b) with true by (symmetry; apply Z.eqb_eq; lia)
              | replace (a =? b) with false by (symmetry; apply Z.eqb_neq; lia) ]
    | |- context [?a ?= ?b] =>
        first [ replace (a ?= b) with Eq by (symmetry; apply Z.compare_eq_iff; lia)
              | replace (a ?= b) with Lt by (symmetry; apply Z.compare_lt_iff; lia)
              | replace (a ?= b) with Gt by (symmetry; apply Z.compare_gt_iff; lia) ]
    end.

Lemma div_2D (N D m' b rem : Z) :
  0 < D -> N = D * (2 * m' + b) + rem -> 0 <= rem < D -> 0 <= b <= 1 ->
  N / (2 * D) = m' /\ N mod (2 * D) = b * D + rem.
Proof.
  intros HD HN Hr Hb.
  assert (E : N = (2 * D) * m' + (b * D + rem)) by lia.
  assert (R : 0 <= b * D + rem < 2 * D) by nia.
  split.
  - symmetry. apply (Z.div_unique_pos N (2 * D) m' (b * D + rem)); assumption.
  - symmetry. apply (Z.mod_unique_pos N (2 * D) m' (b * D + rem)); assumption.
Qed.

Lemma repr_sticky N D m r s :
  repr N D (Build_shr_record m r s) -> orb r s = negb (N mod D =? 0).
Proof.
  intros [_ H]. unfold locq in H. cbn in H.
  destruct r, s, (N mod D =? 0); cbn; congruence.
Qed.

(** One shift halves the unit: the record then stands for [N / (2 * D)]. *)
Lemma shr_1_repr (N D : Z) (mrs : shr_record) :
  0 <= N -> 0 < D -> repr N D mrs -> repr N (2 * D) (shr_1 mrs).
Proof.
  intros HN HD H. destruct mrs as [m r s].
  pose proof (repr_sticky _ _ _ _ _ H) as St.
  destruct H as [Hm _]. cbn in Hm.
  pose proof (Z.div_mod N D ltac:(lia)) as E.
  pose proof (Z.mod_pos_bound N D HD) as B.
  pose proof (Z.div_pos N D HN HD) as Q.
  set (rem := N mod D) in *. rewrite <- Hm in E, Q.
  assert (G : forall m' b, m = 2 * m' + b -> 0 <= b <= 1 ->
              repr N (2 * D) (Build_shr_record m' (b =? 1) (orb r s))).
  { intros m' b Em Hb.
    destruct (div_2D N D m' b rem HD ltac:(lia) B Hb) as [Gd Gm].
    split; [cbn [shr_m]; symmetry; exact Gd|]. unfold locq. rewrite Gm, St.
    assert (Hb' : b = 0 \/ b = 1) by lia.
    destruct Hb' as [-> | ->], (Z.eq_dec rem 0) as [R0|R0]; decide_Z; reflexivity. }
  destruct m as [|[p|p|]|p]; cbn [shr_1]; try lia.
  - apply (G 0 0); lia.
  - apply (G (Z.pos p) 1); lia.
  - apply (G (Z.pos p) 0); lia.
  - apply (G 0 1); lia.
Qed.

Lemma iter_pos_shr_1_repr (p : positive) :
  forall N D mrs, 0 <= N -> 0 < D -> repr N D mrs ->
                  repr N (2 ^ Z.pos p * D) (SpecFloat.iter_pos shr_1 p mrs).
Proof.
  induction p as [p IH|p IH|]; intros N D mrs HN HD H; cbn [SpecFloat.iter_pos].
  - assert (P : 0 < 2 ^ Z.pos p) by (apply Z.pow_pos_nonneg; lia).
    replace (2 ^ Z.pos p~1 * D) with (2 ^ Z.pos p * (2 ^ Z.pos p * (2 * D))).
    + apply IH; [lia|nia|]. apply IH; [lia|lia|]. now apply shr_1_repr.
    + replace (Z.pos p~1) with (Z.pos p + Z.pos p + 1) by lia.
      rewrite !Z.pow_add_r by lia. change (2 ^ 1) with 2. lia.
  - assert (P : 0 < 2 ^ Z.pos p) by (apply Z.pow_pos_nonneg; lia).
    replace (2 ^ Z.pos p~0 * D) with (2 ^ Z.pos p * (2 ^ Z.pos p * D)).
    + apply IH; [lia|nia|]. now apply IH.
    + replace (Z.pos p~0) with (Z.pos p + Z.pos p) by lia.
      rewrite !Z.pow_add_r by lia. lia.
  - change (2 ^ 1) with 2. now apply shr_1_repr.
Qed.

Lemma shr_repr (N D : Z) (mrs : shr_record) (e n : Z) :
  0 <= N -> 0 < D -> 0 <= n -> repr N D mrs ->
  repr N (2 ^ n * D) (fst (shr mrs e n)) /\ snd (shr mrs e n) = e + n.
Proof.
  intros HN HD Hn H. destruct n as [|p|p]; cbn [shr fst snd]; try lia.
  - change (2 ^ 0) with 1. rewrite Z.mul_1_l, Z.add_0_r. auto.
  - split; [|reflexivity]. now apply iter_pos_shr_1_repr.
Qed.

Lemma shr_record_of_loc_repr (N D : Z) :
  repr N D (shr_record_of_loc (N / D) (locq N D)).
Proof.
  split.
  - now destruct (locq N D) as [|[]].
  - now destruct (locq N D) as [|[]].
Qed.

(** [new_location] is [locq]. *)
Lemma new_location_locq (N D : Z) :
  0 < D -> new_location D (N mod D) = locq N D.
Proof.
  intros HD. pose proof (Z.mod_pos_bound N D HD) as B.
  unfold new_location, new_location_even, new_location_odd, locq.
  destruct (Z.even D) eqn:Ev; destruct (Z.eqb_spec (N mod D) 0) as [R|R];
    try reflexivity.
  f_equal.
  assert (Od : Z.odd D = true) by (rewrite <- Z.negb_even, Ev; reflexivity).
  apply Z.odd_spec in Od. destruct Od as [k Hk].
  destruct (2 * (N mod D) + 1 ?= D) eqn:C.
  - rewrite Z.compare_eq_iff in C. symmetry. rewrite Z.compare_lt_iff. lia.
  - rewrite Z.compare_lt_iff in C. symmetry. rewrite Z.compare_lt_iff. lia.
  - rewrite Z.compare_gt_iff in C. symmetry. rewrite Z.compare_gt_iff. lia.
Qed.

(** *** Rounding to nearest, ties to even *)

Lemma RNE_spec (N D : Z) :
  0 < D ->
  let q := N / D in
  let r := N mod D in
  (2 * r < D /\ RNE N D = q) \/
  (2 * r = D /\ Z.even q = true /\ RNE N D = q) \/
  (2 * r = D /\ Z.even q = false /\ RNE N D = q + 1) \/
  (D < 2 * r /\ RNE N D = q + 1).
Proof.
  intros HD q r. pose proof (Z.mod_pos_bound N D HD) as B. fold r in B.
  unfold RNE, locq. fold q r.
  destruct (Z.eqb_spec r 0) as [R|R]; cbn [round_nearest_even].
  - left. split; [lia|reflexivity].
  - destruct (2 * r ?= D) eqn:C; cbn [round_nearest_even].
    + rewrite Z.compare_eq_iff in C. destruct (Z.even q) eqn:Ev; tauto.
    + rewrite Z.compare_lt_iff in C. tauto.
    + rewrite Z.compare_gt_iff in C. tauto.
Qed.

Lemma RNE_bounds (N D : Z) : 0 < D -> N / D <= RNE N D <= N / D + 1.
Proof.
  intros HD. destruct (RNE_spec N D HD) as [H|[H|[H|H]]]; lia.
Qed.

Lemma floor_mono (Na Da Nb Db : Z) :
  0 < Da -> 0 < Db -> Na * Db <= Nb * Da -> Na / Da <= Nb / Db.
Proof.
  intros HDa HDb H.
  pose proof (Z.div_mod Na Da ltac:(lia)) as Ea.
  pose proof (Z.mod_pos_bound Na Da HDa) as Ba.
  pose proof (Z.div_mod Nb Db ltac:(lia)) as Eb.
  pose proof (Z.mod_pos_bound Nb Db HDb) as Bb.
  set (qa := Na / Da) in *. set (qb := Nb / Db) in *.
  set (ra := Na mod Da) in *. set (rb := Nb mod Db) in *.
  destruct (Z_le_gt_dec qa qb) as [|G]; [assumption|exfalso].
  assert (Da * Db * (qb + 1) <= Da * Db * qa) by (apply Z.mul_le_mono_nonneg_l; nia).
  nia.
Qed.

(** [RNE] is monotone in the fraction it rounds. *)
Lemma RNE_mono (Na Da Nb Db : Z) :
  0 < Da -> 0 < Db -> Na * Db <= Nb * Da -> RNE Na Da <= RNE Nb Db.
Proof.
  intros HDa HDb H.
  pose proof (floor_mono Na Da Nb Db HDa HDb H) as Q.
  pose proof (Z.div_mod Na Da ltac:(lia)) as Ea.
  pose proof (Z.mod_pos_bound Na Da HDa) as Ba.
  pose proof (Z.div_mod Nb Db ltac:(lia)) as Eb.
  pose proof (Z.mod_pos_bound Nb Db HDb) as Bb.
  pose proof (RNE_spec Na Da HDa) as Sa. pose proof (RNE_spec Nb Db HDb) as Sb.
  cbv zeta in Sa, Sb.
  set (qa := Na / Da) in *. set (qb := Nb / Db) in *.
  set (ra := Na mod Da) in *. set (rb := Nb mod Db) in *.
  destruct (Z.eq_dec qa qb) as [E|E].
  - rewrite <- E in *. clear E.
    assert (R : ra * Db <= rb * Da) by nia.
    destruct Sa as [Sa|[Sa|[Sa|Sa]]]; destruct Sb as [Sb|[Sb|[Sb|Sb]]];
      try lia; try (destruct Sa as (? & ? & ?); destruct Sb as (? & ? & ?); congruence);
      exfalso; nia.
  - destruct Sa as [Sa|[Sa|[Sa|Sa]]]; destruct Sb as [Sb|[Sb|[Sb|Sb]]]; lia.
Qed.

Lemma fexp_fexp64 x : fexp prec emax x = fexp64 x.
Proof. reflexivity. Qed.

(** [binary_round_aux] shifts to the exponent [F] of the value, rounds
    the mantissa there, and renormalises when the rounding carries into
    a 54th bit. *)
Lemma binary_round_aux_mk (N D e : Z) :
  0 <= N -> 0 < D ->
  let F := fexp64 (Zdigits2 (N / D) + e) in
  e <= F ->
  binary_round_aux prec emax false (N / D) e (locq N D) =
    mk (RNE N (2 ^ (F - e) * D)) F /\
  0 <= RNE N (2 ^ (F - e) * D) <= 2 ^ 53 /\
  (-1074 < F -> 2 ^ 52 <= RNE N (2 ^ (F - e) * D)).
Proof.
  intros HN HD F Hpre.
  set (m := N / D) in *. set (n := F - e).
  assert (Hm : 0 <= m) by (apply Z.div_pos; lia).
  assert (P2 : 0 < 2 ^ n) by (apply Z.pow_pos_nonneg; lia).
  set (D' := 2 ^ n * D). assert (HD' : 0 < D') by nia.
  assert (M1 : N / D' = m / 2 ^ n).
  { unfold D', m. rewrite Z.mul_comm. symmetry. apply Z.div_div; lia. }
  (* bounds on the shifted mantissa *)
  assert (U1 : N / D' < 2 ^ 53).
  { rewrite M1. apply Z.div_lt_upper_bound; [lia|].
    rewrite <- Z.pow_add_r by lia.
    destruct (Z.eq_dec m 0) as [->|Hm0].
    - apply Z.pow_pos_nonneg; lia.
    - pose proof (Zdigits2_bounds m ltac:(lia)) as [_ U].
      eapply Z.lt_le_trans; [exact U|]. apply Z.pow_le_mono_r; [lia|].
      unfold n, F, fexp64. lia. }
  assert (L1 : -1074 < F -> 2 ^ 52 <= N / D').
  { intros HF. rewrite M1.
    assert (Hd : Zdigits2 m = n + 53) by (unfold n, F, fexp64 in *; lia).
    assert (Hm0 : 0 < m).
    { destruct (Z.eq_dec m 0) as [E|]; [|lia]. rewrite E in Hd. cbn in Hd. lia. }
    pose proof (Zdigits2_bounds m Hm0) as [L _]. rewrite Hd in L.
    apply Z.div_le_lower_bound; [lia|].
    replace (n + 53 - 1) with (n + 52) in L by lia.
    rewrite Z.pow_add_r in L by lia. lia. }
  pose proof (RNE_bounds N D' HD') as RB.
  assert (N0 : 0 <= N / D') by (apply Z.div_pos; lia).
  split; [|split; [lia|intros HF; specialize (L1 HF); lia]].
  (* the first shift *)
  unfold binary_round_aux, shr_fexp. rewrite !fexp_fexp64. fold F. fold n.
  pose proof (shr_repr N D (shr_record_of_loc m (locq N D)) e n HN HD ltac:(lia)
                (shr_record_of_loc_repr N D)) as [[R1 R2] R3].
  destruct (shr (shr_record_of_loc m (locq N D)) e n) as [mrs' e'].
  cbn [fst snd] in R1, R2, R3. fold D' in R1, R2.
  rewrite R1, R2. fold (RNE N D'). subst e'. replace (e + n) with F by (unfold n; lia).
  set (m2 := RNE N D') in *.
  assert (HF : -1074 <= F) by (unfold F, fexp64; lia).
  (* the second shift *)
  unfold shr_fexp. rewrite fexp_fexp64.
  destruct (Z.eq_dec m2 (2 ^ 53)) as [E|NE].
  - rewrite E.
    replace (fexp64 (Zdigits2 (2 ^ 53) + F) - F) with 1
      by (change (Zdigits2 (2 ^ 53)) with 54; unfold fexp64; lia).
    change (2 ^ 53) with 9007199254740992.
    cbn [shr shr_record_of_loc SpecFloat.iter_pos shr_1 shr_m orb].
    unfold mk. change (9007199254740992 =? 2 ^ 53) with true. cbv iota.
    change (emax - prec) with 971. reflexivity.
  - destruct m2 as [|p|p] eqn:Em2; try lia.
    + assert (Hn2 : fexp64 (Zdigits2 0 + F) - F <= 0)
        by (cbn [Zdigits2]; unfold fexp64; lia).
      unfold shr. destruct (fexp64 (Zdigits2 0 + F) - F) eqn:En2; try lia; reflexivity.
    + pose proof (Zdigits2_bounds (Z.pos p) ltac:(lia)) as [Lp _].
      assert (Hdp : Zdigits2 (Z.pos p) <= 53).
      { destruct (Z_le_gt_dec (Zdigits2 (Z.pos p)) 53) as [|G]; [assumption|].
        assert (2 ^ 53 <= 2 ^ (Zdigits2 (Z.pos p) - 1)) by (apply Z.pow_le_mono_r; lia).
        lia. }
      assert (Hn2 : fexp64 (Zdigits2 (Z.pos p) + F) - F <= 0) by (unfold fexp64; lia).
      unfold shr, mk. change (emax - prec) with 971.
      replace (Z.pos p =? 2 ^ 53) with false by (symmetry; apply Z.eqb_neq; lia).
      destruct (fexp64 (Zdigits2 (Z.pos p) + F) - F) eqn:En2; try lia; reflexivity.
Qed.

Lemma SFleb_finite (ma mb : positive) (ea eb : Z) :
  ea < eb \/ (ea = eb /\ Z.pos ma <= Z.pos mb) ->
  SFleb (S754_finite false ma ea) (S754_finite false mb eb) = true.
Proof.
  intros H. unfold SFleb, SFcompare.
  change (Pos.compare_cont Eq ma mb) with (Pos.compare ma mb).
  destruct (Z.compare_spec ea eb) as [E|L|G]; try reflexivity; try lia.
  destruct (Pos.compare_spec ma mb) as [E'|L'|G']; try reflexivity. lia.
Qed.

Lemma mk_le (m2a Fa m2b Fb : Z) :
  0 <= m2a <= 2 ^ 53 -> 0 <= m2b <= 2 ^ 53 ->
  (Fa = Fb /\ m2a <= m2b) \/ (Fa < Fb /\ 2 ^ 52 <= m2b) ->
  SFleb (mk m2a Fa) (mk m2b Fb) = true.
Proof.
  intros Ha Hb H.
  assert (P52 : 2 ^ 52 = 4503599627370496) by reflexivity.
  assert (P53 : 2 ^ 53 = 9007199254740992) by reflexivity.
  destruct m2a as [|pa|pa], m2b as [|pb|pb]; try lia; unfold mk.
  - reflexivity.
  - repeat match goal with
           | |- context [if ?b then _ else _] => destruct b
           end; reflexivity.
  - destruct (Z.eqb_spec (Z.pos pa) (2 ^ 53)) as [Ea|Ea];
      destruct (Z.eqb_spec (Z.pos pb) (2 ^ 53)) as [Eb|Eb];
      repeat match goal with
             | |- context [?x <=? ?y] => destruct (Z.leb_spec x y)
             end; try reflexivity; try lia;
      apply SFleb_finite; change (Z.pos (2 ^ 52)) with (2 ^ 52); lia.
Qed.

Lemma mk_nonneg (s : bool) (m2 F : Z) : SFleb (S754_zero s) (mk m2 F) = true.
Proof.
  unfold mk. destruct m2; try reflexivity.
  repeat match goal with
         | |- context [if ?b then _ else _] => destruct b
         end; reflexivity.
Qed.

Lemma mk_le_inf (m2 F : Z) : SFleb (mk m2 F) (S754_infinity false) = true.
Proof.
  unfold mk. destruct m2; try reflexivity.
  repeat match goal with
         | |- context [if ?b then _ else _] => destruct b
         end; reflexivity.
Qed.

Lemma pow2_cancel_lt a b : 0 <= a -> 0 <= b -> 2 ^ a < 2 ^ b -> a < b.
Proof. intros. apply (Z.pow_lt_mono_r_iff 2); lia. Qed.

(** *** Rounding is monotone in the value

    The values are compared after scaling by [2 ^ - E0], an exponent below
    both. *)
Lemma rnd_mono (E0 Na Da ea Nb Db eb : Z) :
  0 <= Na -> 0 < Da -> 0 <= Nb -> 0 < Db ->
  E0 <= ea -> E0 <= eb ->
  pre Na Da ea -> pre Nb Db eb ->
  Na * 2 ^ (ea - E0) * Db <= Nb * 2 ^ (eb - E0) * Da ->
  SFleb (rnd Na Da ea) (rnd Nb Db eb) = true.
Proof.
  intros HNa HDa HNb HDb Hea Heb Pa Pb V. unfold rnd, pre in *.
  destruct (binary_round_aux_mk Na Da ea HNa HDa Pa) as (-> & Ba & La).
  destruct (binary_round_aux_mk Nb Db eb HNb HDb Pb) as (-> & Bb & Lb).
  set (ma := Na / Da) in *. set (mb := Nb / Db) in *.
  set (Fa := fexp64 (Zdigits2 ma + ea)) in *.
  set (Fb := fexp64 (Zdigits2 mb + eb)) in *.
  assert (Hma : 0 <= ma) by (apply Z.div_pos; lia).
  assert (Hmb : 0 <= mb) by (apply Z.div_pos; lia).
  assert (Pea : 0 < 2 ^ (ea - E0)) by (apply Z.pow_pos_nonneg; lia).
  assert (Peb : 0 < 2 ^ (eb - E0)) by (apply Z.pow_pos_nonneg; lia).
  (* the exponents are ordered *)
  assert (HF : Fa <= Fb).
  { destruct (Z.eq_dec ma 0) as [E|NE].
    - unfold Fa, Fb, fexp64 in *. rewrite E in *. cbn [Zdigits2] in *. lia.
    - pose proof (Zdigits2_bounds ma ltac:(lia)) as [La' _].
      pose proof (Zdigits2_nonneg mb) as Dbn.
      pose proof (Zdigits2_pos ma ltac:(lia)) as Dap.
      assert (Ub : mb + 1 <= 2 ^ Zdigits2 mb).
      { destruct (Z.eq_dec mb 0) as [->|NEb]; [cbn; lia|].
        pose proof (Zdigits2_bounds mb ltac:(lia)). lia. }
      assert (NaL : ma * Da <= Na).
      { unfold ma. rewrite Z.mul_comm. apply Z.mul_div_le. lia. }
      assert (NbU : Nb < (mb + 1) * Db).
      { unfold mb. pose proof (Z.mul_succ_div_gt Nb Db HDb). lia. }
      assert (K : 2 ^ (Zdigits2 ma - 1 + (ea - E0)) < 2 ^ (Zdigits2 mb + (eb - E0))).
      { rewrite !Z.pow_add_r by lia.
        apply (Z.mul_lt_mono_pos_r (Da * Db)); [nia|].
        assert (2 ^ (Zdigits2 ma - 1) * Da <= Na) by nia.
        assert (Nb < 2 ^ Zdigits2 mb * Db) by nia.
        assert (X1 : 2 ^ (Zdigits2 ma - 1) * 2 ^ (ea - E0) * (Da * Db)
                     <= Na * 2 ^ (ea - E0) * Db).
        { replace (2 ^ (Zdigits2 ma - 1) * 2 ^ (ea - E0) * (Da * Db))
            with ((2 ^ (Zdigits2 ma - 1) * Da) * (2 ^ (ea - E0) * Db)) by ring.
          replace (Na * 2 ^ (ea - E0) * Db) with (Na * (2 ^ (ea - E0) * Db)) by ring.
          apply Z.mul_le_mono_nonneg_r; nia. }
        assert (X2 : Nb * 2 ^ (eb - E0) * Da
                     < 2 ^ Zdigits2 mb * 2 ^ (eb - E0) * (Da * Db)).
        { replace (2 ^ Zdigits2 mb * 2 ^ (eb - E0) * (Da * Db))
            with ((2 ^ Zdigits2 mb * Db) * (2 ^ (eb - E0) * Da)) by ring.
          replace (Nb * 2 ^ (eb - E0) * Da) with (Nb * (2 ^ (eb - E0) * Da)) by ring.
          apply Z.mul_lt_mono_pos_r; nia. }
        lia. }
      apply pow2_cancel_lt in K; [|lia|lia].
      unfold Fa, Fb, fexp64. lia. }
  assert (HFa : -1074 <= Fa) by (unfold Fa, fexp64; lia).
  apply mk_le; [assumption|assumption|].
  destruct (Z.eq_dec Fa Fb) as [E|NE]; [left|right; split; [lia|apply Lb; lia]].
  split; [assumption|].
  apply RNE_mono.
  - apply Z.mul_pos_pos; [apply Z.pow_pos_nonneg; lia|lia].
  - apply Z.mul_pos_pos; [apply Z.pow_pos_nonneg; lia|lia].
  - set (na := Fa - ea). set (nb := Fb - eb).
    assert (Pna : 0 < 2 ^ na) by (apply Z.pow_pos_nonneg; unfold na; lia).
    assert (Pnb : 0 < 2 ^ nb) by (apply Z.pow_pos_nonneg; unfold nb; lia).
    assert (S : 2 ^ (ea - E0) * 2 ^ na = 2 ^ (eb - E0) * 2 ^ nb).
    { rewrite <- !Z.pow_add_r by (unfold na, nb; lia). f_equal. unfold na, nb. lia. }
    apply (Z.mul_le_mono_pos_r _ _ (2 ^ (ea - E0) * 2 ^ na)); [nia|].
    replace (Na * (2 ^ nb * Db) * (2 ^ (ea - E0) * 2 ^ na))
      with ((Na * 2 ^ (ea - E0) * Db) * (2 ^ na * 2 ^ nb)) by ring.
    rewrite S.
    replace (Nb * (2 ^ na * Da) * (2 ^ (eb - E0) * 2 ^ nb))
      with ((Nb * 2 ^ (eb - E0) * Da) * (2 ^ na * 2 ^ nb)) by ring.
    apply Z.mul_le_mono_nonneg_r; [nia|assumption].
Qed.

Lemma pow2_pos (n : Z) : 0 <= n -> 0 < 2 ^ n.
Proof. intros. apply Z.pow_pos_nonneg; lia. Qed.

(** What validity says about a finite float. *)
Lemma bounded_spec (m : positive) (e : Z) :
  bounded prec emax m e = true ->
  fexp64 (Zdigits2 (Z.pos m) + e) = e /\ -1074 <= e <= 971 /\
  Z.pos m < 2 ^ 53 /\ (-1074 < e -> 2 ^ 52 <= Z.pos m).
Proof.
  unfold bounded, canonical_mantissa. rewrite andb_true_iff, fexp_fexp64.
  change (emax - prec) with 971. rewrite Z.eqb_eq, Z.leb_le.
  change (Z.pos (digits2_pos m)) with (Zdigits2 (Z.pos m)).
  intros [C B]. pose proof (Zdigits2_bounds (Z.pos m) ltac:(lia)) as [L U].
  unfold fexp64 in *.
  assert (D53 : Zdigits2 (Z.pos m) <= 53) by lia.
  repeat split; try lia.
  - eapply Z.lt_le_trans; [exact U|]. apply Z.pow_le_mono_r; lia.
  - intros He. assert (Ed : Zdigits2 (Z.pos m) = 53) by lia.
    rewrite Ed in L. exact L.
Qed.

(** The order of two valid positive floats is the order of their values. *)
Lemma SFleb_finite_val (ma mb : positive) (ea eb E1 : Z) :
  bounded prec emax ma ea = true -> bounded prec emax mb eb = true ->
  SFleb (S754_finite false ma ea) (S754_finite false mb eb) = true ->
  E1 <= ea -> E1 <= eb ->
  Z.pos ma * 2 ^ (ea - E1) <= Z.pos mb * 2 ^ (eb - E1).
Proof.
  intros Va Vb H Ha Hb.
  apply bounded_spec in Va as (_ & Ra & Ua & La).
  apply bounded_spec in Vb as (_ & Rb & Ub & Lb).
  unfold SFleb, SFcompare in H.
  change (Pos.compare_cont Eq ma mb) with (Pos.compare ma mb) in H.
  destruct (Z.compare_spec ea eb) as [E|L|G]; try discriminate H.
  - subst eb. destruct (Pos.compare_spec ma mb) as [E'|L'|G']; try discriminate H.
    + subst. lia.
    + apply Z.mul_le_mono_nonneg_r; [pose proof (pow2_pos (ea - E1)); lia|lia].
  - specialize (Lb ltac:(lia)).
    assert (P : 2 ^ (eb - E1) = 2 ^ (eb - ea - 1) * 2 * 2 ^ (ea - E1)).
    { rewrite <- (Z.pow_1_r 2) at 3. rewrite <- !Z.pow_add_r by lia. f_equal. lia. }
    rewrite P.
    pose proof (pow2_pos (eb - ea - 1) ltac:(lia)).
    pose proof (pow2_pos (ea - E1) ltac:(lia)).
    assert (Z.pos ma <= Z.pos mb * (2 ^ (eb - ea - 1) * 2)) by nia.
    replace (Z.pos mb * (2 ^ (eb - ea - 1) * 2 * 2 ^ (ea - E1)))
      with (Z.pos mb * (2 ^ (eb - ea - 1) * 2) * 2 ^ (ea - E1)) by ring.
    apply Z.mul_le_mono_nonneg_r; lia.
Qed.

Lemma rnd_exact (N e : Z) :
  rnd N 1 e = binary_round_aux prec emax false N e loc_Exact.
Proof.
  unfold rnd, locq. now rewrite Z.div_1_r, Z.mod_1_r.
Qed.

(** Rounding a valid float returns it. *)
Lemma rnd_id (m : positive) (e : Z) :
  bounded prec emax m e = true ->
  rnd (Z.pos m) 1 e = S754_finite false m e /\ pre (Z.pos m) 1 e.
Proof.
  intros V. apply bounded_spec in V as (C & R & U & L).
  assert (P : pre (Z.pos m) 1 e) by (unfold pre; rewrite Z.div_1_r; lia).
  split; [|exact P].
  destruct (binary_round_aux_mk (Z.pos m) 1 e ltac:(lia) ltac:(lia) P) as (H & _).
  unfold rnd. rewrite H. rewrite Z.div_1_r, C, Z.sub_diag.
  change (2 ^ 0 * 1) with 1.
  unfold RNE, locq. rewrite Z.div_1_r, Z.mod_1_r. cbn [Z.eqb round_nearest_even].
  unfold mk.
  replace (Z.pos m =? 2 ^ 53) with false by (symmetry; apply Z.eqb_neq; lia).
  replace (e <=? 971) with true by (symmetry; apply Z.leb_le; lia).
  reflexivity.
Qed.

Lemma Zdigits2_ge (m k : Z) : 0 < m -> 2 ^ (k - 1) <= m -> k <= Zdigits2 m.
Proof.
  intros Hm H. pose proof (Zdigits2_bounds m Hm) as [_ U].
  pose proof (Zdigits2_pos m Hm).
  destruct (Z_le_gt_dec k (Zdigits2 m)) as [|G]; [assumption|].
  assert (2 ^ Zdigits2 m <= 2 ^ (k - 1)) by (apply Z.pow_le_mono_r; lia). lia.
Qed.

(** *** The operations on finite floats are roundings *)

Lemma SFmul_finite (mx mc : positive) (ex ec : Z) :
  bounded prec emax mx ex = true -> bounded prec emax mc ec = true ->
  SF64mul (S754_finite false mx ex) (S754_finite false mc ec) =
    rnd (Z.pos mx * Z.pos mc) 1 (ex + ec) /\
  pre (Z.pos mx * Z.pos mc) 1 (ex + ec).
Proof.
  intros Vx Vc. split.
  - rewrite rnd_exact. reflexivity.
  - apply bounded_spec in Vx as (Cx & Rx & Ux & Lx).
    apply bounded_spec in Vc as (Cc & Rc & Uc & Lc).
    unfold pre. rewrite Z.div_1_r. unfold fexp64.
    destruct (Z_le_gt_dec (ex + ec) (-1074)) as [|G]; [lia|].
    assert (K : 53 <= Zdigits2 (Z.pos mx * Z.pos mc)).
    { apply Zdigits2_ge; [lia|]. change (53 - 1) with 52.
      destruct (Z.eq_dec ex (-1074)) as [Ex|Ex].
      - specialize (Lc ltac:(lia)). nia.
      - specialize (Lx ltac:(lia)). nia. }
    lia.
Qed.

Lemma SFdiv_finite (mx mc : positive) (ex ec : Z) :
  let e' := div_exp mx mc ex ec in
  SF64div (S754_finite false mx ex) (S754_finite false mc ec) =
    rnd (Z.pos mx * 2 ^ (ex - ec - e')) (Z.pos mc) e' /\
  pre (Z.pos mx * 2 ^ (ex - ec - e')) (Z.pos mc) e' /\
  e' <= ex - ec.
Proof.
  intros e'.
  assert (He' : e' <= ex - ec) by (unfold e', div_exp; lia).
  set (s := ex - ec - e'). assert (Hs : 0 <= s) by (unfold s; lia).
  pose proof (pow2_pos s Hs) as Ps.
  split; [|split; [|exact He']].
  - unfold SF64div, SFdiv, SFdiv_core_binary. rewrite fexp_fexp64.
    fold (div_exp mx mc ex ec). fold e'. fold s.
    assert (Em : match s with
                 | 0 => Z.pos mx
                 | Z.pos _ => Z.shiftl (Z.pos mx) s
                 | Z.neg _ => 0
                 end = Z.pos mx * 2 ^ s).
    { clearbody s.
      destruct s as [|p|p];
        [change (2 ^ 0) with 1; lia
        |rewrite Z.shiftl_mul_pow2 by lia; reflexivity
        |lia]. }
    rewrite Em. unfold rnd.
    rewrite <- (new_location_locq _ (Z.pos mc)) by lia.
    unfold Z.div, Z.modulo.
    destruct (Z.div_eucl (Z.pos mx * 2 ^ s) (Z.pos mc)) as [q r]. reflexivity.
  - unfold pre. fold s.
    destruct (Z_le_gt_dec e' (-1074)) as [|G]; [unfold fexp64; lia|].
    set (d1 := Zdigits2 (Z.pos mx)) in *. set (d2 := Zdigits2 (Z.pos mc)) in *.
    assert (HM : 53 <= d1 + s - d2).
    { unfold s, e', div_exp, fexp64 in *. fold d1 d2 in G |- *. lia. }
    pose proof (Zdigits2_bounds (Z.pos mx) ltac:(lia)) as [L1 _].
    pose proof (Zdigits2_bounds (Z.pos mc) ltac:(lia)) as [_ U2].
    pose proof (Zdigits2_pos (Z.pos mc) ltac:(lia)) as P2.
    pose proof (Zdigits2_pos (Z.pos mx) ltac:(lia)) as P1.
    fold d1 in L1, P1. fold d2 in U2, P2.
    set (k := d1 + s - d2 - 1) in *.
    assert (Q : 2 ^ k <= Z.pos mx * 2 ^ s / Z.pos mc).
    { apply Z.div_le_lower_bound; [lia|].
      assert (X : Z.pos mc * 2 ^ k <= 2 ^ d2 * 2 ^ k)
        by (apply Z.mul_le_mono_nonneg_r; [pose proof (pow2_pos k); lia|lia]).
      rewrite <- Z.pow_add_r in X by lia.
      replace (d2 + k) with (d1 - 1 + s) in X by (unfold k; lia).
      rewrite Z.pow_add_r in X by lia.
      assert (2 ^ (d1 - 1) * 2 ^ s <= Z.pos mx * 2 ^ s)
        by (apply Z.mul_le_mono_nonneg_r; lia).
      lia. }
    assert (Qp : 0 < Z.pos mx * 2 ^ s / Z.pos mc)
      by (pose proof (pow2_pos k ltac:(unfold k; lia)); lia).
    pose proof (Zdigits2_ge _ (k + 1) Qp) as Dq.
    replace (k + 1 - 1) with k in Dq by lia. specialize (Dq Q).
    unfold fexp64. unfold k in Dq. lia.
Qed.

Lemma Pos_iter_xO (m d : positive) :
  Z.pos (Pos.iter xO m d) = Z.pos m * 2 ^ Z.pos d.
Proof.
  induction d as [|d IH] using Pos.peano_ind.
  - cbn [Pos.iter]. change (2 ^ 1) with 2. lia.
  - rewrite Pos.iter_succ, Pos2Z.inj_xO, IH, Pos2Z.inj_succ, Z.pow_succ_r by lia.
    lia.
Qed.

Lemma shl_align_spec (mx : positive) (ex ex' : Z) :
  let e := Z.min ex ex' in
  Z.pos (fst (shl_align mx ex ex')) = Z.pos mx * 2 ^ (ex - e) /\
  snd (shl_align mx ex ex') = e.
Proof.
  intros e. unfold shl_align, e.
  destruct (ex' - ex) as [|d|d] eqn:Ed; cbn [fst snd].
  - replace (ex - Z.min ex ex') with 0 by lia. change (2 ^ 0) with 1. lia.
  - replace (ex - Z.min ex ex') with 0 by lia. change (2 ^ 0) with 1. lia.
  - rewrite Pos_iter_xO. replace (ex - Z.min ex ex') with (Z.pos d) by lia. lia.
Qed.

Lemma Zdigits2_shift (m k : Z) :
  0 < m -> 0 <= k -> Zdigits2 (m * 2 ^ k) = Zdigits2 m + k.
Proof.
  intros Hm Hk. pose proof (Zdigits2_bounds m Hm) as [L U].
  pose proof (Zdigits2_pos m Hm) as P. pose proof (pow2_pos k Hk) as Pk.
  apply Zdigits2_unique; [nia| |lia].
  replace (Zdigits2 m + k - 1) with (Zdigits2 m - 1 + k) by lia.
  rewrite !Z.pow_add_r by lia. split.
  - apply Z.mul_le_mono_nonneg_r; lia.
  - apply Z.mul_lt_mono_pos_r; lia.
Qed.

Lemma binary_round_rnd (S : positive) (ez : Z) :
  let e := round_exp (Z.pos S) ez in
  binary_round prec emax false S ez = rnd (Z.pos S * 2 ^ (ez - e)) 1 e /\
  pre (Z.pos S * 2 ^ (ez - e)) 1 e.
Proof.
  intros e. unfold binary_round. rewrite fexp_fexp64.
  change (Z.pos (digits2_pos S)) with (Zdigits2 (Z.pos S)).
  pose proof (shl_align_spec S ez (fexp64 (Zdigits2 (Z.pos S) + ez))) as [A1 A2].
  destruct (shl_align S ez (fexp64 (Zdigits2 (Z.pos S) + ez))) as [mz ez'].
  cbn [fst snd] in A1, A2. fold (round_exp (Z.pos S) ez) in A1, A2. fold e in A1, A2.
  rewrite rnd_exact, <- A1, A2. split; [reflexivity|].
  unfold pre. rewrite Z.div_1_r, A1.
  rewrite Zdigits2_shift by (unfold e, round_exp; lia).
  unfold e, round_exp.
  replace (Zdigits2 (Z.pos S) + (ez - Z.min ez (fexp64 (Zdigits2 (Z.pos S) + ez))) +
           Z.min ez (fexp64 (Zdigits2 (Z.pos S) + ez)))
    with (Zdigits2 (Z.pos S) + ez) by lia.
  lia.
Qed.

Lemma SFadd_finite (mx mc : positive) (ex ec : Z) :
  let S := add_sum mx mc ex ec in
  let e := round_exp S (Z.min ex ec) in
  SF64add (S754_finite false mx ex) (S754_finite false mc ec) =
    rnd (S * 2 ^ (Z.min ex ec - e)) 1 e /\
  pre (S * 2 ^ (Z.min ex ec - e)) 1 e /\ 0 < S.
Proof.
  intros S e.
  assert (HS : 0 < S).
  { unfold S, add_sum.
    pose proof (pow2_pos (ex - Z.min ex ec) ltac:(lia)).
    pose proof (pow2_pos (ec - Z.min ex ec) ltac:(lia)). nia. }
  unfold SF64add, SFadd. cbn [cond_Zopp].
  pose proof (shl_align_spec mx ex (Z.min ex ec)) as [X1 _].
  pose proof (shl_align_spec mc ec (Z.min ex ec)) as [C1 _].
  replace (Z.min ex (Z.min ex ec)) with (Z.min ex ec) in X1 by lia.
  replace (Z.min ec (Z.min ex ec)) with (Z.min ex ec) in C1 by lia.
  rewrite X1, C1. fold (add_sum mx mc ex ec). fold S.
  destruct S as [|p|p] eqn:ES; try lia.
  cbn [binary_normalize].
  destruct (binary_round_rnd p (Z.min ex ec)) as [R P].
  fold e in R, P. auto.
Qed.

(** *** Monotonicity of the operations *)

Lemma nonneg_cases (x : spec_float) : nonneg x -> nonneg_view x.
Proof.
  destruct x as [s|[]| |[] m e]; cbn; intros H; try discriminate H; constructor.
Qed.

Lemma nonneg_le (x y : spec_float) : nonneg x -> SFleb x y = true -> nonneg y.
Proof.
  intros Hx. apply nonneg_cases in Hx.
  destruct Hx, y as [s'|[]| |[] m' e']; cbn; intros H; try discriminate H; reflexivity.
Qed.

Lemma rnd_range (N D e : Z) (s : bool) :
  0 <= N -> 0 < D -> pre N D e ->
  SFleb (S754_zero s) (rnd N D e) = true /\
  SFleb (rnd N D e) (S754_infinity false) = true.
Proof.
  intros HN HD P. unfold rnd.
  destruct (binary_round_aux_mk N D e HN HD P) as (-> & _).
  split; [apply mk_nonneg|apply mk_le_inf].
Qed.

Lemma SFleb_refl_finite (m : positive) (e : Z) :
  SFleb (S754_finite false m e) (S754_finite false m e) = true.
Proof. apply SFleb_finite. lia. Qed.

Lemma SFmul_mono (x y c : spec_float) :
  valid_binary x = true -> valid_binary y = true -> valid_binary c = true ->
  nonneg x -> nonneg c -> SFleb x y = true ->
  SF64mul x c <> S754_nan -> SF64mul y c <> S754_nan ->
  SFleb (SF64mul x c) (SF64mul y c) = true /\ nonneg (SF64mul x c).
Proof.
  intros Vx Vy Vc Nx Nc L.
  pose proof (nonneg_le x y Nx L) as Ny.
  apply nonneg_cases in Nx, Ny, Nc.
  destruct Nx as [sx| |mx ex], Ny as [sy| |my ey], Nc as [sc| |mc ec];
    try discriminate L; cbn [valid_binary] in *;
    try (cbn; intros; first [congruence | split; reflexivity]).
  - (* zero, finite, finite *)
    intros _ _. destruct (SFmul_finite my mc ey ec Vy Vc) as [-> P].
    cbn [SF64mul SFmul]. split; [|reflexivity].
    apply rnd_range; [lia|lia|exact P].
  - (* finite, infinity, finite *)
    intros _ _. destruct (SFmul_finite mx mc ex ec Vx Vc) as [-> P].
    cbn [SF64mul SFmul xorb].
    destruct (rnd_range (Z.pos mx * Z.pos mc) 1 (ex + ec) false) as [R1 R2];
      [lia|lia|exact P|]. now split.
  - (* finite, finite, finite *)
    intros _ _.
    destruct (SFmul_finite mx mc ex ec Vx Vc) as [-> Px].
    destruct (SFmul_finite my mc ey ec Vy Vc) as [-> Py].
    split; [|apply rnd_range; [lia|lia|exact Px]].
    apply (rnd_mono (Z.min ex ey + ec)); try lia; try assumption.
    pose proof (SFleb_finite_val mx my ex ey (Z.min ex ey) Vx Vy L
                  ltac:(lia) ltac:(lia)) as V.
    replace (ex + ec - (Z.min ex ey + ec)) with (ex - Z.min ex ey) by lia.
    replace (ey + ec - (Z.min ex ey + ec)) with (ey - Z.min ex ey) by lia.
    nia.
Qed.

Lemma SFmul_comm (x y : spec_float) : SF64mul x y = SF64mul y x.
Proof.
  destruct x as [sx|sx| |sx mx ex], y as [sy|sy| |sy my ey]; cbn;
    rewrite ?(xorb_comm sx sy); try reflexivity.
  now rewrite Pos.mul_comm, Z.add_comm.
Qed.

Lemma SFdiv_mono (x y c : spec_float) (mc : positive) (ec : Z) :
  valid_binary x = true -> valid_binary y = true ->
  c = S754_finite false mc ec ->
  nonneg x -> SFleb x y = true ->
  SFleb (SF64div x c) (SF64div y c) = true /\ nonneg (SF64div x c).
Proof.
  intros Vx Vy -> Nx L.
  pose proof (nonneg_le x y Nx L) as Ny.
  apply nonneg_cases in Nx, Ny.
  destruct Nx as [sx| |mx ex], Ny as [sy| |my ey];
    try discriminate L; cbn [valid_binary] in *;
    try (cbn; split; reflexivity).
  - destruct (SFdiv_finite my mc ey ec) as (-> & P & Ey).
    pose proof (pow2_pos (ey - ec - div_exp my mc ey ec) ltac:(lia)).
    cbn [SF64div SFdiv]. split; [|reflexivity].
    apply rnd_range; [nia|lia|exact P].
  - destruct (SFdiv_finite mx mc ex ec) as (-> & P & Ex).
    pose proof (pow2_pos (ex - ec - div_exp mx mc ex ec) ltac:(lia)).
    cbn [SF64div SFdiv xorb].
    destruct (rnd_range (Z.pos mx * 2 ^ (ex - ec - div_exp mx mc ex ec))
                (Z.pos mc) (div_exp mx mc ex ec) false) as [R1 R2];
      [nia|lia|exact P|]. now split.
  - destruct (SFdiv_finite mx mc ex ec) as (-> & Px & Ex).
    destruct (SFdiv_finite my mc ey ec) as (-> & Py & Ey).
    set (ea := div_exp mx mc ex ec) in *. set (eb := div_exp my mc ey ec) in *.
    pose proof (pow2_pos (ex - ec - ea) ltac:(lia)) as Pa.
    pose proof (pow2_pos (ey - ec - eb) ltac:(lia)) as Pb.
    split; [|apply rnd_range; [nia|lia|exact Px]].
    apply (rnd_mono (Z.min ea eb)); try lia; try nia; try assumption.
    pose proof (SFleb_finite_val mx my ex ey (Z.min ea eb + ec) Vx Vy L
                  ltac:(lia) ltac:(lia)) as V.
    replace (Z.pos mx * 2 ^ (ex - ec - ea) * 2 ^ (ea - Z.min ea eb))
      with (Z.pos mx * 2 ^ (ex - (Z.min ea eb + ec))).
    2:{ rewrite <- Z.mul_assoc, <- Z.pow_add_r by lia. do 2 f_equal. lia. }
    replace (Z.pos my * 2 ^ (ey - ec - eb) * 2 ^ (eb - Z.min ea eb))
      with (Z.pos my * 2 ^ (ey - (Z.min ea eb + ec))).
    2:{ rewrite <- Z.mul_assoc, <- Z.pow_add_r by lia. do 2 f_equal. lia. }
    apply Z.mul_le_mono_nonneg_r; lia.
Qed.

Lemma rnd_not_nan (N D e : Z) :
  0 <= N -> 0 < D -> pre N D e -> rnd N D e <> S754_nan.
Proof.
  intros HN HD P E. destruct (rnd_range N D e false HN HD P) as [H _].
  rewrite E in H. discriminate H.
Qed.

(** No [NaN] arises from a product with a positive finite float, nor from
    a product of two floats above zero. *)
Lemma SFmul_finite_not_nan (x : spec_float) (mc : positive) (ec : Z) :
  valid_binary x = true -> bounded prec emax mc ec = true -> nonneg x ->
  SF64mul x (S754_finite false mc ec) <> S754_nan.
Proof.
  intros Vx Vc Nx. apply nonneg_cases in Nx.
  destruct Nx as [s| |m e]; try discriminate.
  cbn [valid_binary] in Vx. destruct (SFmul_finite m mc e ec Vx Vc) as [-> P].
  apply rnd_not_nan; [lia|lia|exact P].
Qed.

Lemma above_zero_nonneg (x : spec_float) : above_zero x -> nonneg x.
Proof.
  destruct x as [s|[]| |[] m e]; cbn; intros H; try discriminate H; reflexivity.
Qed.

Lemma SFmul_above_zero_not_nan (x c : spec_float) :
  valid_binary x = true -> valid_binary c = true ->
  above_zero x -> above_zero c -> SF64mul x c <> S754_nan.
Proof.
  intros Vx Vc Hx Hc.
  destruct c as [s|[]| |[] mc ec]; try discriminate Hc.
  - destruct x as [s|[]| |[] m e]; try discriminate Hx; discriminate.
  - apply SFmul_finite_not_nan; auto using above_zero_nonneg.
Qed.

Lemma above_zero_le (x y : spec_float) :
  above_zero x -> SFleb x y = true -> above_zero y.
Proof.
  destruct x as [s|[]| |[] m e]; intros H; try discriminate H;
    destruct y as [s'|[]| |[] m' e']; intros L; try discriminate L; reflexivity.
Qed.

Lemma add_sum_val (mx mc : positive) (ex ec E0 : Z) :
  E0 <= ex -> E0 <= ec ->
  let S := add_sum mx mc ex ec in
  let e := round_exp S (Z.min ex ec) in
  E0 <= e ->
  S * 2 ^ (Z.min ex ec - e) * 2 ^ (e - E0) =
    Z.pos mx * 2 ^ (ex - E0) + Z.pos mc * 2 ^ (ec - E0).
Proof.
  intros Hx Hc S e He.
  assert (Hle : e <= Z.min ex ec) by (unfold e, round_exp; lia).
  rewrite <- Z.mul_assoc, <- Z.pow_add_r by lia.
  replace (Z.min ex ec - e + (e - E0)) with (Z.min ex ec - E0) by lia.
  unfold S, add_sum. rewrite Z.mul_add_distr_r, <- !Z.mul_assoc, <- !Z.pow_add_r by lia.
  do 2 f_equal; f_equal; lia.
Qed.

Lemma round_exp_ge (S ez : Z) : -1074 <= ez -> -1074 <= round_exp S ez.
Proof. unfold round_exp, fexp64. lia. Qed.

Lemma SFadd_mono_l (x y c : spec_float) :
  valid_binary x = true -> valid_binary y = true -> valid_binary c = true ->
  nonneg x -> nonneg c -> SFleb x y = true ->
  SFleb (SF64add x c) (SF64add y c) = true /\ nonneg (SF64add x c).
Proof.
  intros Vx Vy Vc Nx Nc L.
  pose proof (nonneg_le x y Nx L) as Ny.
  apply nonneg_cases in Nx, Ny, Nc.
  destruct Nx as [sx| |mx ex], Ny as [sy| |my ey], Nc as [sc| |mc ec];
    try discriminate L; cbn [valid_binary] in *;
    try (cbn [SF64add SFadd]; split; first [reflexivity | exact L | apply SFleb_refl_finite]);
    try (destruct sx, sc; cbn; split; reflexivity);
    try (destruct sx, sy, sc; cbn; split; reflexivity).
  all: try (pose proof (bounded_spec _ _ Vx) as (_ & Rx & _));
       try (pose proof (bounded_spec _ _ Vy) as (_ & Ry & _));
       pose proof (bounded_spec _ _ Vc) as (_ & Rc & _).
  - (* zero, finite, finite *)
    change (SF64add (S754_zero sx) (S754_finite false mc ec))
      with (S754_finite false mc ec).
    split; [|reflexivity].
    destruct (SFadd_finite my mc ey ec) as (-> & P & HS).
    destruct (rnd_id mc ec Vc) as [<- Pc].
    pose proof (round_exp_ge (add_sum my mc ey ec) (Z.min ey ec) ltac:(lia)) as Ge.
    pose proof (pow2_pos (Z.min ey ec - round_exp (add_sum my mc ey ec) (Z.min ey ec))
                  ltac:(unfold round_exp; lia)).
    apply (rnd_mono (-1074)); [lia|lia|nia|lia|lia|lia|assumption|assumption|].
    rewrite !Z.mul_1_r, (add_sum_val my mc ey ec (-1074)) by lia.
    pose proof (pow2_pos (ey - -1074) ltac:(lia)). nia.
  - (* finite, infinity, finite *)
    destruct (SFadd_finite mx mc ex ec) as (-> & P & HS).
    pose proof (pow2_pos (Z.min ex ec - round_exp (add_sum mx mc ex ec) (Z.min ex ec))
                  ltac:(unfold round_exp; lia)).
    destruct (rnd_range (add_sum mx mc ex ec *
                         2 ^ (Z.min ex ec - round_exp (add_sum mx mc ex ec) (Z.min ex ec)))
                1 (round_exp (add_sum mx mc ex ec) (Z.min ex ec)) false) as [R1 R2];
      [nia|lia|exact P|]. now split.
  - (* finite, finite, finite *)
    destruct (SFadd_finite mx mc ex ec) as (-> & Px & HSx).
    destruct (SFadd_finite my mc ey ec) as (-> & Py & HSy).
    pose proof (round_exp_ge (add_sum mx mc ex ec) (Z.min ex ec) ltac:(lia)) as Gx.
    pose proof (round_exp_ge (add_sum my mc ey ec) (Z.min ey ec) ltac:(lia)) as Gy.
    pose proof (pow2_pos (Z.min ex ec - round_exp (add_sum mx mc ex ec) (Z.min ex ec))
                  ltac:(unfold round_exp; lia)).
    pose proof (pow2_pos (Z.min ey ec - round_exp (add_sum my mc ey ec) (Z.min ey ec))
                  ltac:(unfold round_exp; lia)).
    split.
    + apply (rnd_mono (-1074)); [nia|lia|nia|lia|lia|lia|assumption|assumption|].
      rewrite !Z.mul_1_r.
      rewrite (add_sum_val mx mc ex ec (-1074)), (add_sum_val my mc ey ec (-1074)) by lia.
      pose proof (SFleb_finite_val mx my ex ey (-1074) Vx Vy L ltac:(lia) ltac:(lia)).
      lia.
    + apply rnd_range; [nia|lia|exact Px].
Qed.

Lemma SFadd_comm (x y : spec_float) : SF64add x y = SF64add y x.
Proof.
  destruct x as [[]|[]| |sx mx ex], y as [[]|[]| |sy my ey]; try reflexivity.
  cbn. now rewrite Z.add_comm, (Z.min_comm ex ey).
Qed.

Lemma SFleb_trans (x y z : spec_float) :
  nonneg x -> SFleb x y = true -> SFleb y z = true -> SFleb x z = true.
Proof.
  intros Nx Lxy Lyz.
  pose proof (nonneg_le x y Nx Lxy) as Ny. pose proof (nonneg_le y z Ny Lyz) as Nz.
  apply nonneg_cases in Nx, Ny, Nz.
  destruct Nx as [sx| |mx ex], Ny as [sy| |my ey], Nz as [sz| |mz ez];
    try discriminate Lxy; try discriminate Lyz; try reflexivity.
  unfold SFleb, SFcompare in *.
  change (Pos.compare_cont Eq mx my) with (Pos.compare mx my) in Lxy.
  change (Pos.compare_cont Eq my mz) with (Pos.compare my mz) in Lyz.
  change (Pos.compare_cont Eq mx mz) with (Pos.compare mx mz).
  destruct (Z.compare_spec ex ey), (Z.compare_spec ey ez), (Z.compare_spec ex ez);
    try discriminate; try reflexivity; try lia.
  destruct (Pos.compare_spec mx my), (Pos.compare_spec my mz), (Pos.compare_spec mx mz);
    try discriminate; try reflexivity; lia.
Qed.

Lemma SFadd_mono (a1 a2 b1 b2 : spec_float) :
  valid_binary a1 = true -> valid_binary a2 = true ->
  valid_binary b1 = true -> valid_binary b2 = true ->
  nonneg a1 -> nonneg b1 -> SFleb a1 a2 = true -> SFleb b1 b2 = true ->
  SFleb (SF64add a1 b1) (SF64add a2 b2) = true /\ nonneg (SF64add a1 b1).
Proof.
  intros Va1 Va2 Vb1 Vb2 Na1 Nb1 La Lb.
  pose proof (nonneg_le _ _ Na1 La) as Na2.
  destruct (SFadd_mono_l a1 a2 b1 Va1 Va2 Vb1 Na1 Nb1 La) as [H1 N1].
  destruct (SFadd_mono_l b1 b2 a2 Vb1 Vb2 Va2 Nb1 Na2 Lb) as [H2 _].
  rewrite (SFadd_comm b1 a2), (SFadd_comm b2 a2) in H2.
  split; [|exact N1]. exact (SFleb_trans _ _ _ N1 H1 H2).
Qed.

End Rounding.

(** ** Order of binary64 numbers that are not negative *)

Section Binary64_order.

Local Open Scope float_scope.

Lemma leb_zero_nonneg (x : float) : (0 <=? x) = true <-> nonneg (Prim2SF x).
Proof. unfold nonneg. now rewrite FloatAxioms.leb_spec, Prim2SF_zero. Qed.

Lemma gt_zero_above (x : float) : gt x 0 = true <-> above_zero (Prim2SF x).
Proof. unfold gt, above_zero. now rewrite FloatAxioms.ltb_spec, Prim2SF_zero. Qed.

(** A number above zero and below infinity is a positive finite float. *)
Lemma positive_finite_spec (c : float) :
  gt c 0 = true -> (c <? infinity) = true ->
  exists m e, Prim2SF c = S754_finite false m e /\ bounded prec emax m e = true.
Proof.
  intros H I. pose proof (Prim2SF_valid c) as V.
  apply gt_zero_spec in H. destruct H as [H|(m & e & H)].
  - rewrite FloatAxioms.ltb_spec, Prim2SF_infinity, H in I. discriminate I.
  - rewrite H in V. eauto.
Qed.

Lemma gt_zero_nonneg (x : float) : gt x 0 = true -> (0 <=? x) = true.
Proof.
  intros H. apply leb_zero_nonneg, above_zero_nonneg. now apply gt_zero_above.
Qed.

(** [x * c] for a positive finite [c]. *)
Lemma mul_finite_mono (x y c : float) :
  gt c 0 = true -> (c <? infinity) = true ->
  (0 <=? x) = true -> (x <=? y) = true ->
  (x * c <=? y * c) = true /\ (0 <=? x * c) = true.
Proof.
  intros Hc Ic Hx L.
  destruct (positive_finite_spec c Hc Ic) as (mc & ec & Ec & Vc).
  rewrite leb_zero_nonneg in *. rewrite FloatAxioms.leb_spec in *.
  rewrite !mul_spec.
  pose proof (Prim2SF_valid x) as Vx. pose proof (Prim2SF_valid y) as Vy.
  pose proof (nonneg_le _ _ Hx L) as Hy.
  rewrite Ec.
  apply SFmul_mono; try assumption; try reflexivity.
  - now apply SFmul_finite_not_nan.
  - now apply SFmul_finite_not_nan.
Qed.

(** [c * x] for [c] and [x] above zero. *)
Lemma mul_above_zero_mono (c x y : float) :
  gt c 0 = true -> gt x 0 = true -> (x <=? y) = true ->
  (c * x <=? c * y) = true /\ (0 <=? c * x) = true.
Proof.
  intros Hc Hx L.
  rewrite gt_zero_above in Hc, Hx.
  rewrite leb_zero_nonneg. rewrite FloatAxioms.leb_spec in *.
  rewrite !mul_spec, !(SFmul_comm (Prim2SF c)).
  pose proof (above_zero_le _ _ Hx L) as Hy.
  apply SFmul_mono; auto using Prim2SF_valid, above_zero_nonneg,
                               SFmul_above_zero_not_nan.
Qed.

(** [x / c] for a positive finite [c]. *)
Lemma div_finite_mono (x y c : float) :
  gt c 0 = true -> (c <? infinity) = true ->
  (0 <=? x) = true -> (x <=? y) = true ->
  (x / c <=? y / c) = true /\ (0 <=? x / c) = true.
Proof.
  intros Hc Ic Hx L.
  destruct (positive_finite_spec c Hc Ic) as (mc & ec & Ec & Vc).
  rewrite leb_zero_nonneg in *. rewrite FloatAxioms.leb_spec in *.
  rewrite !div_spec.
  apply (SFdiv_mono _ _ _ mc ec); auto using Prim2SF_valid.
Qed.

Lemma add_mono (a1 a2 b1 b2 : float) :
  (0 <=? a1) = true -> (a1 <=? a2) = true ->
  (0 <=? b1) = true -> (b1 <=? b2) = true ->
  (a1 + b1 <=? a2 + b2) = true /\ (0 <=? a1 + b1) = true.
Proof.
  intros Ha La Hb Lb.
  rewrite leb_zero_nonneg in *. rewrite FloatAxioms.leb_spec in *.
  rewrite !add_spec.
  apply SFadd_mono; auto using Prim2SF_valid.
Qed.

Lemma bybitFeeRate_finite :
  gt bybitFeeRate 0 = true /\ (bybitFeeRate <? infinity)%float = true.
Proof. split; reflexivity. Qed.

End Binary64_order.

(** ** The shape of [calculateResults] *)

Section Engine.

Variable s : State.

(** Past the guard, the three targets are visited in order and each one
    pushes at most its own entry. *)
Lemma calculateResults_loop (pair : Pair) (price : number) :
  selectedPair s = Some pair ->
  currentPrice s = Some price ->
  falsy price = false ->
  str_falsy (entryAmount s) = false ->
  str_falsy (target1 (targets s)) = false ->
  calculateResults s =
    pushed (entryOf s price 0 key_target1) ++
    pushed (entryOf s price 1 key_target2) ++
    pushed (entryOf s price 2 key_target3).
Proof.
  intros Hp Hc Hf He Ht. unfold calculateResults.
  rewrite Hp, Hc, Hf, He, Ht. cbn [orb fold_left targetKeys].
  unfold pushTarget, entryOf. cbn [fst snd].
  repeat match goal with
         | |- context [targetResult ?a ?b ?c ?d ?e ?i ?t] =>
             destruct (targetResult a b c d e i t)
         end; reflexivity.
Qed.

(** Before the guard passes nothing is computed. *)
Lemma calculateResults_guard :
  selectedPair s = None \/
  currentPrice s = None \/
  (exists price, currentPrice s = Some price /\ falsy price = true) \/
  entryAmount s = "" \/
  target1 (targets s) = "" ->
  calculateResults s = [].
Proof.
  unfold calculateResults.
  intros [H|[H|[[price [H F]]|[H|H]]]]; rewrite ?H.
  - reflexivity.
  - now destruct (selectedPair s).
  - destruct (selectedPair s); [|reflexivity]. now rewrite F.
  - destruct (selectedPair s), (currentPrice s); try reflexivity.
    cbn. now rewrite orb_true_r.
  - destruct (selectedPair s), (currentPrice s); try reflexivity.
    cbn. now rewrite !orb_true_r.
Qed.

Lemma targetResult_Some pt price e ps q index txt r :
  targetResult pt price e ps q index txt = Some r ->
  falsy (parseFloat txt) = false /\ target r = index + 1 /\
  targetPrice r = parseFloat txt.
Proof.
  unfold targetResult. destruct (falsy (parseFloat txt)); [discriminate|].
  intros [= <-]. auto.
Qed.

(** The result is empty, or it is what the three steps of the loop push. *)
Lemma calculateResults_cases :
  calculateResults s = [] \/
  exists price,
    currentPrice s = Some price /\
    calculateResults s =
      pushed (entryOf s price 0 key_target1) ++
      pushed (entryOf s price 1 key_target2) ++
      pushed (entryOf s price 2 key_target3).
Proof.
  destruct (selectedPair s) as [pair|] eqn:Hp;
    [|left; apply calculateResults_guard; auto].
  destruct (currentPrice s) as [price|] eqn:Hc;
    [|left; apply calculateResults_guard; auto].
  destruct (falsy price) eqn:Hf;
    [left; apply calculateResults_guard; eauto 6|].
  destruct (entryAmount s) as [|c e] eqn:He;
    [left; apply calculateResults_guard; auto|].
  destruct (target1 (targets s)) as [|c' t] eqn:Ht;
    [left; apply calculateResults_guard; auto|].
  right. exists price. split; [reflexivity|].
  apply (calculateResults_loop pair); auto.
  - now rewrite He.
  - now rewrite Ht.
Qed.

Lemma pushed_In (o : option Result) (r : Result) :
  In r (pushed o) -> o = Some r.
Proof. destruct o; cbn; intuition congruence. Qed.

(** Every entry is the loop body's result for one target key. *)
Lemma calculateResults_entry (r : Result) :
  In r (calculateResults s) ->
  exists price k i,
    currentPrice s = Some price /\ In (k, i) targetKeys /\
    entryOf s price i k = Some r.
Proof.
  destruct calculateResults_cases as [->|(price & Hc & ->)]; [intros []|].
  rewrite !in_app_iff.
  intros [H|[H|H]]; apply pushed_In in H; exists price.
  - exists key_target1, 0. cbn. auto.
  - exists key_target2, 1. cbn. auto.
  - exists key_target3, 2. cbn. auto 6.
Qed.

(** Every entry of the result comes from one target key, carries that
    key's number, and its target price is not falsy. *)
Lemma calculateResults_In (r : Result) :
  In r (calculateResults s) ->
  exists k i, In (k, i) targetKeys /\ target r = i + 1 /\
              falsy (parseFloat (get_target (targets s) k)) = false /\
              targetPrice r = parseFloat (get_target (targets s) k).
Proof.
  destruct calculateResults_cases as [->|(price & _ & ->)]; [intros []|].
  rewrite !in_app_iff.
  intros [H|[H|H]]; apply pushed_In, targetResult_Some in H.
  - exists key_target1, 0. cbn. tauto.
  - exists key_target2, 1. cbn. tauto.
  - exists key_target3, 2. cbn. tauto.
Qed.

End Engine.

Lemma str_falsy_parseFloat (txt : string) :
  falsy (parseFloat txt) = false -> str_falsy txt = false.
Proof. destruct txt; [vm_compute; discriminate|reflexivity]. Qed.

(** The fees of the loop body at two leverages. *)
Lemma entryOf_fees_mono (s : State) (L1 L2 price : number) (i : nat)
    (k : TargetKey) (r1 r2 : Result) :
  gt (parseFloat (entryAmount s)) 0 = true ->
  gt L1 0 = true -> (L1 <=? L2)%float = true ->
  gt price 0 = true -> (price <? infinity)%float = true ->
  gt (parseFloat (get_target (targets s) k)) 0 = true ->
  (parseFloat (get_target (targets s) k) <? infinity)%float = true ->
  entryOf (setLeverage L1 s) price i k = Some r1 ->
  entryOf (setLeverage L2 s) price i k = Some r2 ->
  (0 <=? fees r1)%float = true /\ (fees r1 <=? fees r2)%float = true.
Proof.
  intros He HL1 HL Hp Ip Ht It E1 E2.
  unfold entryOf, targetResult in E1, E2.
  cbn [setLeverage entryAmount leverage targets positionType] in E1, E2.
  rewrite (gt_zero_truthy _ Ht) in E1, E2.
  injection E1 as <-. injection E2 as <-. cbn [fees].
  set (e := parseFloat (entryAmount s)) in *.
  set (t := parseFloat (get_target (targets s) k)) in *.
  destruct bybitFeeRate_finite as [Hr Ir].
  destruct (mul_above_zero_mono e L1 L2 He HL1 HL) as [P1 P0].
  destruct (mul_finite_mono _ _ bybitFeeRate Hr Ir P0 P1) as [F1 F0].
  destruct (div_finite_mono _ _ price Hp Ip P0 P1) as [Q1 Q0].
  destruct (mul_finite_mono _ _ t Ht It Q0 Q1) as [X1 X0].
  destruct (mul_finite_mono _ _ bybitFeeRate Hr Ir X0 X1) as [Y1 Y0].
  destruct (add_mono _ _ _ _ F0 F1 Y0 Y1) as [S1 S0].
  split; assumption.
Qed.

(** ** Claims about the calculation engine *)




(** C2, as amended.  A target slot yields no entry when its text is empty,
    when it is not a number ([parseFloat] gives [NaN]) or when it parses to
    zero: the guard of the loop is [if (!targetPrice) return].  A target
    price below zero passes that guard, and past the guard of the first
    line its slot does yield an entry. *)
Theorem target_skipped :
  (forall (s : State) (k : TargetKey) (i : nat),
      In (k, i) targetKeys ->
      get_target (targets s) k = "" \/
      is_nan (parseFloat (get_target (targets s) k)) = true \/
      (parseFloat (get_target (targets s) k) =? 0)%float = true ->
      forall r, In r (calculateResults s) -> target r <> i + 1) /\
  (forall (s : State) (pair : Pair) (price : number) (k : TargetKey) (i : nat),
      selectedPair s = Some pair ->
      currentPrice s = Some price -> falsy price = false ->
      str_falsy (entryAmount s) = false ->
      str_falsy (target1 (targets s)) = false ->
      In (k, i) targetKeys ->
      (parseFloat (get_target (targets s) k) <? 0)%float = true ->
      exists r, In r (calculateResults s) /\ target r = i + 1 /\
                targetPrice r = parseFloat (get_target (targets s) k)).
Proof.
  split.
  - intros s k i Hk Hskip r Hr Hi.
    assert (F : falsy (parseFloat (get_target (targets s) k)) = true).
    { unfold falsy, is_zero. change zero with 0%float.
      destruct Hskip as [H|[H|H]]; rewrite H.
      - reflexivity.
      - reflexivity.
      - apply orb_true_r. }
    apply calculateResults_In in Hr.
    destruct Hr as (k' & i' & Hk' & Ht & Hf & _).
    rewrite Hi in Ht.
    cbn in Hk, Hk'.
    repeat match goal with
           | H : _ \/ _ |- _ => destruct H as [H|H]
           | H : False |- _ => destruct H
           | H : (_, _) = (_, _) |- _ => injection H as <- <-
           end; try discriminate Ht; congruence.
  - intros s pair price k i Hp Hc Hf He Ht1 Hk Hneg.
    apply lt_zero_truthy in Hneg.
    rewrite (calculateResults_loop s pair price Hp Hc Hf He Ht1).
    assert (E : exists r, entryOf s price i k = Some r /\ target r = i + 1 /\
                          targetPrice r = parseFloat (get_target (targets s) k)).
    { unfold entryOf, targetResult. rewrite Hneg. eexists. repeat split. }
    destruct E as (r & E & T & P). exists r. split; [|auto].
    rewrite !in_app_iff. cbn in Hk.
    destruct Hk as [[= <- <-]|[[= <- <-]|[[= <- <-]|[]]]]; rewrite E; cbn; auto.
Qed.

Lemma target_skipped_witness :
  Forall (fun r => target r <> 2 /\ target r <> 3)
         (calculateResults (session 50000 "Long" 10 "1000" "55000" "abc" "0")) /\
  exists r,
    In r (calculateResults (session 50000 "Long" 10 "1000" "55000" "-5" "")) /\
    target r = 2.
Proof.
  split.
  - apply List.Forall_forall. intros r Hr. split.
    + apply (proj1 target_skipped _ key_target2 1) in Hr; [exact Hr| |].
      * cbn. tauto.
      * right; left. vm_compute. reflexivity.
    + apply (proj1 target_skipped _ key_target3 2) in Hr; [exact Hr| |].
      * cbn. tauto.
      * right; right. vm_compute. reflexivity.
  - destruct (proj2 target_skipped
                (session 50000 "Long" 10 "1000" "55000" "-5" "") BTCUSDT
                50000%float key_target2 1) as (r & Hr & Ht & _);
      try reflexivity; [cbn; tauto|].
    exists r. auto.
Defined.

(** C2 as stated fails: a target price below zero is not skipped. *)
Lemma negative_target_not_skipped :
  exists r,
    In r (calculateResults (session 50000 "Long" 10 "1000" "-5" "" "")) /\
    target r = 1 /\ targetPrice r = (-5)%float /\
    (targetPrice r <? 0)%float = true.
Proof.
  eexists. split; [vm_compute; left; reflexivity|].
  cbn. repeat split.
Qed.

(** C3, as amended.  The result is empty when no pair is selected, when the
    current price is [null], zero or [NaN], when the entry amount is the
    empty string or when target 1 is the empty string.  The entry amount is
    tested as a string only: with a pair, a usable price and a usable
    target 1, every entry amount that is not empty gives a result, whatever
    it parses to. *)
Theorem no_results_before_guard :
  (forall s : State,
      selectedPair s = None \/
      currentPrice s = None \/
      (exists price, currentPrice s = Some price /\ falsy price = true) \/
      entryAmount s = "" \/
      target1 (targets s) = "" ->
      calculateResults s = []) /\
  (forall (s : State) (pair : Pair) (price : number),
      selectedPair s = Some pair ->
      currentPrice s = Some price -> falsy price = false ->
      str_falsy (entryAmount s) = false ->
      falsy (parseFloat (target1 (targets s))) = false ->
      calculateResults s <> []).
Proof.
  split; [exact calculateResults_guard|].
  intros s pair price Hp Hc Hf He Ht.
  rewrite (calculateResults_loop s pair price Hp Hc Hf He)
    by auto using str_falsy_parseFloat.
  unfold entryOf at 1, targetResult. cbn [get_target]. rewrite Ht.
  cbn [pushed app]. discriminate.
Qed.

Lemma no_results_before_guard_witness :
  calculateResults (session 50000 "Long" 10 "" "55000" "" "") = [] /\
  calculateResults (session 0 "Long" 10 "1000" "55000" "" "") = [] /\
  calculateResults (session 50000 "Long" 10 "abc" "55000" "" "") <> [].
Proof.
  split; [|split].
  - apply (proj1 no_results_before_guard). right; right; right; left. reflexivity.
  - apply (proj1 no_results_before_guard). right; right; left.
    exists 0%float. split; reflexivity.
  - apply (proj2 no_results_before_guard _ BTCUSDT 50000%float); reflexivity.
Defined.

(** C3 as stated fails: an entry amount that is not a number, or is below
    zero, passes the guard and entries are produced; so does a target 1
    that is not a number when target 2 is one. *)
Lemma invalid_entry_amount_gives_results :
  calculateResults (session 50000 "Long" 10 "-100" "55000" "" "") <> [] /\
  calculateResults (session 50000 "Long" 10 "abc" "55000" "" "") <> [] /\
  calculateResults (session 50000 "Long" 10 "1000" "abc" "60000" "") <> [].
Proof. repeat split; vm_compute; discriminate. Qed.

(** C6.  Two states that differ at most in target 2 and target 3 have the
    same entry for target 1. *)
Theorem target1_independent (s s' : State) :
  selectedPair s = selectedPair s' ->
  currentPrice s = currentPrice s' ->
  entryAmount s = entryAmount s' ->
  leverage s = leverage s' ->
  positionType s = positionType s' ->
  target1 (targets s) = target1 (targets s') ->
  entriesFor 1 (calculateResults s) = entriesFor 1 (calculateResults s').
Proof.
  intros Hp Hc He Hl Hpt Ht.
  assert (E1 : forall price, entryOf s price 0 key_target1 = entryOf s' price 0 key_target1).
  { intros price. unfold entryOf. cbn [get_target]. now rewrite He, Hl, Hpt, Ht. }
  assert (Hfilter : forall st price,
             entriesFor 1 (pushed (entryOf st price 0 key_target1) ++
                           pushed (entryOf st price 1 key_target2) ++
                           pushed (entryOf st price 2 key_target3))
             = pushed (entryOf st price 0 key_target1)).
  { intros st price. unfold entriesFor. rewrite !List.filter_app.
    destruct (entryOf st price 0 key_target1) as [r0|] eqn:E0;
      destruct (entryOf st price 1 key_target2) as [r1|] eqn:E1';
      destruct (entryOf st price 2 key_target3) as [r2|] eqn:E2; cbn.
    all: repeat match goal with
                | E : entryOf _ _ _ _ = Some _ |- _ =>
                    apply targetResult_Some in E; destruct E as (_ & -> & _)
                end; reflexivity. }
  destruct (selectedPair s) as [pair|] eqn:Sp.
  2:{ rewrite (calculateResults_guard s), (calculateResults_guard s'); auto. }
  destruct (currentPrice s) as [price|] eqn:Sc.
  2:{ rewrite (calculateResults_guard s), (calculateResults_guard s'); auto. }
  destruct (falsy price) eqn:Sf.
  { rewrite (calculateResults_guard s), (calculateResults_guard s'); eauto 6. }
  destruct (entryAmount s) as [|c e] eqn:Se.
  { rewrite (calculateResults_guard s), (calculateResults_guard s'); auto 6. }
  destruct (target1 (targets s)) as [|c' t] eqn:St.
  { rewrite (calculateResults_guard s), (calculateResults_guard s'); auto 6. }
  assert (Gs : str_falsy (entryAmount s) = false) by now rewrite Se.
  assert (Gt : str_falsy (target1 (targets s)) = false) by now rewrite St.
  rewrite (calculateResults_loop s pair price) by assumption.
  rewrite (calculateResults_loop s' pair price) by congruence.
  now rewrite !Hfilter, E1.
Qed.

Lemma target1_independent_witness :
  entriesFor 1 (calculateResults (session 50000 "Long" 10 "1000" "55000" "60000" "")) =
  entriesFor 1 (calculateResults (session 50000 "Long" 10 "1000" "55000" "" "48000")).
Proof. apply target1_independent; reflexivity. Defined.




(** C9.  When the entry amount parses to a zero, a selected pair with a
    usable current price and a usable target 1 still yields entries: the
    guard only rejects the empty string.  In every entry the division by
    the entry amount is a zero or [NaN] over zero, so [roi] is [NaN]. *)
Theorem zero_entry_amount_roi_nan (s : State) (pair : Pair) (price : number) :
  selectedPair s = Some pair ->
  currentPrice s = Some price ->
  falsy price = false ->
  is_zero (parseFloat (entryAmount s)) = true ->
  falsy (parseFloat (target1 (targets s))) = false ->
  str_falsy (entryAmount s) = false /\
  (exists r rest, calculateResults s = r :: rest /\ target r = 1) /\
  (forall r, In r (calculateResults s) -> is_nan (roi r) = true).
Proof.
  intros Hp Hc Hf Hz Ht.
  assert (He : str_falsy (entryAmount s) = false).
  { destruct (entryAmount s); [vm_compute in Hz; discriminate|reflexivity]. }
  assert (Hroi : forall i k r, entryOf s price i k = Some r -> is_nan (roi r) = true).
  { intros i k r. unfold entryOf, targetResult.
    destruct (falsy (parseFloat (get_target (targets s) k))); [discriminate|].
    intros [= <-]. cbn [roi].
    set (e := parseFloat (entryAmount s)) in *.
    assert (Fps : falsy (e * leverage s)%float = true)
      by auto using falsy_mul_l, is_zero_falsy.
    assert (Fq : falsy (e * leverage s / price)%float = true)
      by auto using falsy_div.
    apply nan_mul_l, nan_div_zero; [|assumption].
    apply falsy_sub; [|auto using falsy_add, falsy_mul_l].
    destruct (isLong (positionType s)); auto using falsy_mul_r. }
  split; [assumption|].
  rewrite (calculateResults_loop s pair price);
    auto using str_falsy_parseFloat.
  split.
  - unfold entryOf at 1, targetResult. cbn [get_target]. rewrite Ht.
    cbn [pushed app]. eexists. eexists. split; reflexivity.
  - intros r. rewrite !in_app_iff.
    intros [H|[H|H]]; apply pushed_In in H; eauto.
Qed.

Lemma zero_entry_amount_roi_nan_witness :
  str_falsy "0" = false /\
  (exists r rest,
      calculateResults (session 50000 "Long" 10 "0" "55000" "" "") = r :: rest /\
      target r = 1) /\
  (forall r, In r (calculateResults (session 50000 "Long" 10 "0" "55000" "" "")) ->
             is_nan (roi r) = true).
Proof.
  apply (zero_entry_amount_roi_nan
           (session 50000 "Long" 10 "0" "55000" "" "") BTCUSDT 50000%float);
    reflexivity.
Defined.

(** ** Claims about selection and restoration *)

Lemma find_none_all {A} (f : A -> bool) (l : list A) :
  (forall x, In x l -> f x = false) -> List.find f l = None.
Proof.
  induction l as [|a l IH]; cbn; intros H; [reflexivity|].
  rewrite (H a) by auto. apply IH. auto.
Qed.

Lemma handle_bounds_invariant (s : State) (e : Event) :
  bounds_invariant s -> admissible s e -> bounds_invariant (handle s e).
Proof.
  intros I A. destruct e as [p reply|reply|value|v|v|k v|]; cbn in *.
  - intros q [= <-]. split; [reflexivity|]. cbn. unfold within.
    now rewrite (leb_refl_l _ _ A), A.
  - unfold fetchCurrentPrice.
    destruct (selectedPair s) eqn:E; [destruct reply|]; try exact I.
    intros q [= <-]. cbn. auto.
  - destruct A as (q & info & Hq & Hi & Hw).
    intros q' Hq'. cbn in *. rewrite Hq in Hq'. injection Hq' as <-.
    destruct (I q Hq) as [Hi' _]. split; [assumption|].
    rewrite Hi in Hi'. injection Hi' as ->. exact Hw.
  - exact I.
  - exact I.
  - exact I.
  - intros q [=].
Qed.

(** C4, as amended.  After mount, along pair selection, price replies, the
    leverage slider, the other inputs and reset, the leverage stays within
    the bounds of the selected pair, from the initial state and from any
    state in which it holds.  Restoration from the address is outside this:
    when it finds the pair it installs [parseFloat] of the [leverage]
    parameter as it is, or keeps the previous leverage when the parameter is
    absent, without a look at the bounds of the pair. *)
Theorem leverage_within_bounds :
  (forall s, reachable initialState s -> leverage_in_bounds s) /\
  (forall s0 s, bounds_invariant s0 -> reachable s0 s -> leverage_in_bounds s) /\
  (forall params linearReply inverseReply s pairFromURL item c,
      get_truthy params "pair" = Some pairFromURL ->
      findPair pairFromURL [(linear, linearReply); (inverse, inverseReply)]
        = Some (item, c) ->
      let s' := loadFromURL params linearReply inverseReply s in
      selectedPair s' = Some (pairOf c item) /\
      leverage s' =
        match get_truthy params "leverage" with
        | Some urlLeverage => parseFloat urlLeverage
        | None => leverage s
        end).
Proof.
  assert (G : forall s0 s, bounds_invariant s0 -> reachable s0 s -> bounds_invariant s).
  { intros s0 s I0 R. induction R as [|s e R IH A]; [assumption|].
    now apply handle_bounds_invariant. }
  split; [|split].
  - intros s R q Hq. apply (G initialState s); [|assumption|assumption].
    intros q' [=].
  - intros s0 s I0 R q Hq. now apply (G s0 s).
  - intros params lr ir s pairFromURL item c Hp Hf. unfold loadFromURL.
    rewrite Hp, Hf. split; reflexivity.
Qed.

Lemma leverage_within_bounds_witness :
  leverage_in_bounds
    (handle (handle initialState (ev_selectPair BTCUSDT (Some "50000")))
            (ev_leverage "25")).
Proof.
  apply (proj1 leverage_within_bounds).
  apply reach_step; [apply reach_step; [apply reach_start|]|].
  - reflexivity.
  - exists BTCUSDT, (LeverageInfo.make 1 100). repeat split.
Defined.

(** C4 as stated fails: restoring [?pair=BTCUSDT&leverage=500] selects a
    pair whose bounds are 1 and 100 and sets the leverage to 500. *)
Lemma restored_leverage_out_of_bounds :
  let s := loadFromURL address_500 (listing [BTCUSDT_item]) (listing []) initialState in
  exists pair,
    selectedPair s = Some pair /\
    maxLeverage pair = 100%float /\ leverage s = 500%float /\
    ~ leverage_in_bounds s.
Proof.
  eexists. split; [vm_compute; reflexivity|]. cbn [maxLeverage].
  split; [vm_compute; reflexivity|]. split; [vm_compute; reflexivity|].
  intros H. specialize (H _ eq_refl). vm_compute in H. discriminate H.
Qed.

(** C5.  When the symbol of the address matches no instrument that is
    trading with [maxLeverage > 1] in the usable reply of either category,
    loading from the address returns the state it was given, field for
    field; on mount that is the initial state. *)
Theorem unresolved_pair_changes_nothing
    (params : Params) (linearReply inverseReply : Reply) (pairFromURL : string) :
  get params "pair" = Some pairFromURL ->
  (forall reply l item,
      In reply [linearReply; inverseReply] ->
      usable_list reply = Some l -> In item l ->
      Item.symbol item = pairFromURL -> Item.status item = "Trading" ->
      hasLeverage item = false) ->
  (forall s, loadFromURL params linearReply inverseReply s = s) /\
  loadFromURL params linearReply inverseReply initialState = initialState.
Proof.
  intros Hp Hnone.
  assert (G : forall s, loadFromURL params linearReply inverseReply s = s);
    [|split; [exact G|apply G]].
  intros s. unfold loadFromURL, get_truthy. rewrite Hp.
  destruct (str_falsy pairFromURL); [reflexivity|].
  assert (F : forall reply l, In reply [linearReply; inverseReply] ->
                              usable_list reply = Some l ->
                              List.find (resolves pairFromURL) l = None).
  { intros reply l Hr Hl. apply find_none_all. intros item Hi.
    unfold resolves.
    destruct (String.eqb_spec (Item.symbol item) pairFromURL) as [E1|]; [|reflexivity].
    destruct (String.eqb_spec (Item.status item) "Trading") as [E2|]; [|reflexivity].
    cbn. eauto. }
  cbn [findPair].
  destruct (usable_list linearReply) as [l1|] eqn:E1;
    [rewrite (F linearReply l1) by (cbn; auto)|];
    (destruct (usable_list inverseReply) as [l2|] eqn:E2;
     [rewrite (F inverseReply l2) by (cbn; auto)|]); reflexivity.
Qed.

Lemma unresolved_pair_changes_nothing_witness :
  loadFromURL address_delisted (listing [BTCUSDT_item; DELISTED_item])
              reply_error initialState = initialState.
Proof.
  apply (unresolved_pair_changes_nothing address_delisted _ _ "LUNAUSDT").
  - reflexivity.
  - intros reply l item [<-|[<-|[]]]; [|discriminate].
    intros [= <-] [<-|[<-|[]]]; [discriminate|].
    intros _. discriminate.
Defined.

(** ** Claims about search and trending *)

Section Dedup.

Lemma tracks_empty : tracks ([], ∅).
Proof. intros b. cbn. set_solver. Qed.

Lemma addUnique_tracks acc p : tracks acc -> tracks (addUnique acc p).
Proof.
  destruct acc as [u seen]. unfold addUnique, tracks. cbn.
  intros T. case_bool_decide as D; cbn; [exact T|].
  intros b. rewrite List.map_app, in_app_iff, elem_of_union, elem_of_singleton, T.
  cbn. intuition.
Qed.

(** What a run of the loop over [l] does to the accumulator. *)
Lemma fold_addUnique (l : list Pair) (acc : list Pair * gset string) :
  tracks acc ->
  let acc' := fold_left addUnique l acc in
  tracks acc' /\
  (exists added,
      fst acc' = fst acc ++ added /\
      forall q, In q added ->
                In q l /\ ~ In (baseSymbol q) (List.map baseSymbol (fst acc))) /\
  (forall p, In p l -> In (baseSymbol p) (List.map baseSymbol (fst acc'))) /\
  (NoDup (List.map baseSymbol (fst acc)) -> NoDup (List.map baseSymbol (fst acc'))).
Proof.
  revert acc. induction l as [|p l IH]; intros acc T; cbn.
  - split; [assumption|]. split; [|split; [intros ? []|auto]].
    exists []. rewrite app_nil_r. split; [reflexivity|intros ? []].
  - destruct (IH (addUnique acc p) (addUnique_tracks acc p T))
      as (T' & (added & Ha & Hadded) & Hin & Hnd).
    split; [exact T'|].
    destruct acc as [u seen]. unfold addUnique in *. cbn in *.
    case_bool_decide as D; cbn in *.
    + split; [|split].
      * exists added. split; [assumption|]. intros q Hq.
        destruct (Hadded q Hq). auto.
      * intros q [<-|Hq]; [|auto].
        rewrite Ha, List.map_app, in_app_iff. left. now apply T.
      * exact Hnd.
    + split; [|split].
      * exists (p :: added). rewrite Ha, <- app_assoc. split; [reflexivity|].
        intros q [<-|Hq].
        -- split; [auto|]. intros Hb. apply D. now apply T.
        -- destruct (Hadded q Hq) as [H1 H2]. split; [auto|].
           intros Hb. apply H2. rewrite List.map_app, in_app_iff. auto.
      * intros q [<-|Hq]; [|auto].
        rewrite Ha, !List.map_app, !in_app_iff. cbn. auto.
      * intros N. apply Hnd. rewrite List.map_app. cbn.
        apply NoDup_app. split; [exact N|]. split.
        -- intros b Hb. rewrite list_elem_of_In in Hb.
           intros Hb'. apply list_elem_of_In in Hb'. cbn in Hb'.
           destruct Hb' as [<-|[]]. apply D. now apply T.
        -- apply NoDup_singleton.
Qed.

Variable allPairs : list Pair.

(** The de-duplicated list: no base symbol twice, every pair taken from
    [allPairs], every linear base symbol kept, and an inverse pair kept only
    when no linear pair has its base symbol. *)
Lemma uniquePairsOf_spec :
  let unique := uniquePairsOf allPairs in
  List.NoDup (List.map baseSymbol unique) /\
  (forall q, In q unique -> In q allPairs) /\
  (forall p, In p allPairs -> category p = linear ->
             exists q, In q unique /\ baseSymbol q = baseSymbol p /\
                       category q = linear) /\
  (forall p q, In p allPairs -> category p = linear ->
               In q unique -> baseSymbol q = baseSymbol p ->
               category q = linear).
Proof.
  unfold uniquePairsOf.
  destruct (fold_addUnique (List.filter (ofCategory linear) allPairs) ([], ∅)
              tracks_empty) as (T1 & (a1 & E1 & A1) & I1 & N1).
  set (acc1 := fold_left addUnique (List.filter (ofCategory linear) allPairs) ([], ∅)) in *.
  destruct (fold_addUnique (List.filter (ofCategory inverse) allPairs) acc1 T1)
    as (T2 & (a2 & E2 & A2) & I2 & N2).
  set (acc2 := fold_left addUnique (List.filter (ofCategory inverse) allPairs) acc1) in *.
  cbn in E1. cbn.
  assert (L1 : forall q, In q (fst acc1) -> In q allPairs /\ category q = linear).
  { intros q Hq. rewrite E1 in Hq. apply A1 in Hq as [Hq _].
    apply filter_In in Hq as [Hq Hc]. split; [assumption|].
    unfold ofCategory in Hc. now destruct (category q). }
  assert (K1 : forall p, In p allPairs -> category p = linear ->
                         In (baseSymbol p) (List.map baseSymbol (fst acc1))).
  { intros p Hp Hc. apply I1. apply filter_In. split; [assumption|].
    unfold ofCategory. now rewrite Hc. }
  repeat split.
  - apply NoDup_ListNoDup, N2, N1. cbn. constructor.
  - intros q Hq. rewrite E2, in_app_iff in Hq. destruct Hq as [Hq|Hq].
    + now apply L1.
    + apply A2 in Hq as [Hq _]. now apply filter_In in Hq as [Hq _].
  - intros p Hp Hc. specialize (K1 p Hp Hc).
    apply in_map_iff in K1 as (q & Hb & Hq). exists q.
    rewrite E2, in_app_iff. destruct (L1 q Hq). auto.
  - intros p q Hp Hc Hq Hb. rewrite E2, in_app_iff in Hq. destruct Hq as [Hq|Hq].
    + now apply L1.
    + apply A2 in Hq as [_ Hq]. exfalso. apply Hq. rewrite Hb. now apply K1.
Qed.

End Dedup.

Lemma NoDup_map_inj {A B} (f : A -> B) (l : list A) (x y : A) :
  List.NoDup (List.map f l) -> In x l -> In y l -> f x = f y -> x = y.
Proof.
  induction l as [|a l IH]; cbn; [intros _ []|].
  intros N Hx Hy E. inversion N as [|? ? Hn N']; subst.
  destruct Hx as [<-|Hx], Hy as [<-|Hy]; auto.
  - exfalso. apply Hn. rewrite E. now apply in_map.
  - exfalso. apply Hn. rewrite <- E. now apply in_map.
Qed.

Lemma firstn_In {A} (n : nat) (l : list A) (x : A) :
  In x (firstn n l) -> In x l.
Proof.
  intros H. rewrite <- (firstn_skipn n l), in_app_iff. now left.
Qed.

Lemma pairsOf_In searchValue c reply l item :
  usable_list reply = Some l -> In item l ->
  matchesQuery searchValue item = true ->
  In (pairOf c item) (pairsOf searchValue c reply).
Proof.
  intros Hl Hi Hm. unfold pairsOf. rewrite Hl.
  apply in_map, filter_In. auto.
Qed.

(** C8.  The search result has at most 12 entries.  When an instrument of
    the linear reply and one of the inverse reply carry the same symbol and
    both pass the filter of the query, the de-duplicated list holds exactly
    one pair with that base symbol, the linear one, and the final list
    holds no inverse pair with it. *)
Theorem search_prefers_linear
    (searchValue : string) (linearReply inverseReply : Reply) :
  length (searchCryptoPairs searchValue linearReply inverseReply) <= 12 /\
  forall lin inv itemL itemI,
    usable_list linearReply = Some lin ->
    usable_list inverseReply = Some inv ->
    In itemL lin -> In itemI inv ->
    matchesQuery searchValue itemL = true ->
    matchesQuery searchValue itemI = true ->
    Item.symbol itemL = Item.symbol itemI ->
    let unique := uniquePairsOf (allPairsOf searchValue linearReply inverseReply) in
    (exists p, In p unique /\ baseSymbol p = Item.symbol itemL /\
               category p = linear /\
               forall q, In q unique -> baseSymbol q = Item.symbol itemL -> q = p) /\
    ~ In (pairOf inverse itemI) unique /\
    (forall q, In q (searchCryptoPairs searchValue linearReply inverseReply) ->
               baseSymbol q = Item.symbol itemL -> category q = linear).
Proof.
  split.
  { unfold searchCryptoPairs. rewrite length_firstn. lia. }
  intros lin inv itemL itemI Hlin Hinv HL HI ML MI Hsym unique.
  destruct (uniquePairsOf_spec (allPairsOf searchValue linearReply inverseReply))
    as (N & Hsub & Hex & Hlinear).
  fold unique in N, Hsub, Hex, Hlinear.
  assert (InL : In (pairOf linear itemL)
                   (allPairsOf searchValue linearReply inverseReply)).
  { unfold allPairsOf. cbn. rewrite in_app_iff. left.
    now apply (pairsOf_In _ _ _ lin). }
  destruct (Hex _ InL eq_refl) as (p & Hp & Hb & Hc). cbn in Hb.
  split; [|split].
  - exists p. repeat split; auto. intros q Hq Hbq.
    apply (NoDup_map_inj baseSymbol unique); auto. congruence.
  - intros Hq. specialize (Hlinear _ _ InL eq_refl Hq).
    cbn in Hlinear. symmetry in Hsym. specialize (Hlinear Hsym). discriminate.
  - intros q Hq Hbq. apply (Hlinear _ q InL eq_refl); [|assumption].
    unfold searchCryptoPairs in Hq. now apply firstn_In in Hq.
Qed.

Lemma search_prefers_linear_witness :
  let unique :=
    uniquePairsOf (allPairsOf "btc" (listing [BTCUSDT_item; BTCUSD_item])
                              (listing [BTCUSD_item; BTCUSDT_item])) in
  (exists p, In p unique /\ baseSymbol p = "BTCUSDT" /\ category p = linear /\
             forall q, In q unique -> baseSymbol q = "BTCUSDT" -> q = p) /\
  ~ In (pairOf inverse BTCUSDT_item) unique.
Proof.
  intros unique.
  destruct (proj2 (search_prefers_linear "btc" (listing [BTCUSDT_item; BTCUSD_item])
                     (listing [BTCUSD_item; BTCUSDT_item]))
              [BTCUSDT_item; BTCUSD_item] [BTCUSD_item; BTCUSDT_item]
              BTCUSDT_item BTCUSDT_item) as (H1 & H2 & _);
    try reflexivity; cbn; auto.
Defined.

Lemma insertSorted_In (x y : Trending.t) (l : list Trending.t) :
  In x (insertSorted y l) <-> x = y \/ In x l.
Proof.
  induction l as [|z l IH]; cbn [insertSorted In].
  - intuition (subst; auto).
  - destruct (gt (comparator y z) 0); cbn [In]; rewrite ?IH;
      intuition (subst; auto).
Qed.

Lemma sortByVolume_In (x : Trending.t) (l : list Trending.t) :
  In x (sortByVolume l) <-> In x l.
Proof.
  induction l as [|y l IH]; cbn [sortByVolume fold_right In]; [tauto|].
  fold (sortByVolume l). rewrite insertSorted_In, IH. intuition (subst; auto).
Qed.

Lemma validPairsOf_In tickers instruments t :
  In t (validPairsOf tickers instruments) ->
  exists ticker,
    In ticker tickers /\
    isTrending (instrumentsMapOf instruments) ticker = true /\
    t = trendingOf (instrumentsMapOf instruments) ticker.
Proof.
  unfold validPairsOf. intros H.
  apply firstn_In, sortByVolume_In, in_map_iff in H.
  destruct H as (ticker & <- & H). apply filter_In in H as [H1 H2]. eauto.
Qed.

(** C10.  Every entry the trending computation produces carries a symbol
    that ends in USDT, so no entry stands for a ticker whose symbol does not,
    whatever its volume, price or price change; this holds for the list a
    successful refresh stores. *)
Theorem trending_symbols_end_in_USDT :
  (forall tickers instruments t,
      In t (validPairsOf tickers instruments) ->
      endsWith (symbol (Trending.pair t)) "USDT" = true) /\
  (forall tickers instruments ticker t,
      endsWith (Ticker.symbol ticker) "USDT" = false ->
      In t (validPairsOf tickers instruments) ->
      symbol (Trending.pair t) <> Ticker.symbol ticker) /\
  (forall tickersData instrumentsData trendingPairs t,
      retCode tickersData = 0%Z -> retCode instrumentsData = 0%Z ->
      In t (fetchTrendingPairs tickersData instrumentsData trendingPairs) ->
      endsWith (symbol (Trending.pair t)) "USDT" = true).
Proof.
  assert (G : forall tickers instruments t,
             In t (validPairsOf tickers instruments) ->
             endsWith (symbol (Trending.pair t)) "USDT" = true).
  { intros tickers instruments t H.
    apply validPairsOf_In in H as (ticker & _ & Ht & ->). cbn.
    unfold isTrending in Ht. rewrite !andb_true_iff in Ht. tauto. }
  split; [exact G|]. split.
  - intros tickers instruments ticker t Hn Ht E.
    apply G in Ht. rewrite E in Ht. congruence.
  - intros td idata old t Ht Hi. unfold fetchTrendingPairs.
    rewrite Ht, Hi. cbn.
    destruct (result_list td); [apply G|intros []].
Qed.

Lemma trending_symbols_end_in_USDT_witness :
  Forall (fun t => endsWith (symbol (Trending.pair t)) "USDT" = true /\
                   symbol (Trending.pair t) <> "BTCPERP")
         (validPairsOf sample_tickers sample_instruments).
Proof.
  apply List.Forall_forall. intros t Ht. split.
  - now apply (proj1 trending_symbols_end_in_USDT sample_tickers sample_instruments).
  - apply (proj1 (proj2 trending_symbols_end_in_USDT) sample_tickers
             sample_instruments (ticker "BTCPERP" "90000000" "50000" "0.2"));
      [reflexivity|assumption].
Defined.

(** * Part III: further properties of the code *)

(** ** Differences of binary64 numbers *)

Section Differences.

Local Open Scope Z_scope.

Lemma SFcompare_antisym (x y : spec_float) :
  SFcompare y x = option_map CompOpp (SFcompare x y).
Proof.
  destruct x as [sx|sx| |sx mx ex], y as [sy|sy| |sy my ey]; cbn;
    try reflexivity; try (now destruct sx); try (now destruct sy);
    try (now destruct sx, sy).
  change (Pos.compare_cont Eq mx my) with (Pos.compare mx my).
  change (Pos.compare_cont Eq my mx) with (Pos.compare my mx).
  rewrite (Z.compare_antisym ex ey), (Pos.compare_antisym mx my).
  destruct sx, sy; cbn; try reflexivity;
    destruct (ex ?= ey); cbn; try reflexivity;
    destruct (mx ?= my)%positive; reflexivity.
Qed.

(** Two numbers that are not [NaN] are comparable. *)
Lemma SFleb_total (x y : spec_float) :
  x <> S754_nan -> y <> S754_nan -> SFleb x y = false -> SFltb y x = true.
Proof.
  intros Hx Hy. unfold SFleb, SFltb. rewrite (SFcompare_antisym x y).
  destruct (SFcompare x y) as [[]|] eqn:E; cbn; try congruence.
  destruct x, y; cbn in E; congruence.
Qed.

Lemma SFltb_leb (x y : spec_float) : SFltb x y = true -> SFleb x y = true.
Proof. unfold SFltb, SFleb. now destruct (SFcompare x y) as [[]|]. Qed.

Lemma SFltb_not_leb (x y : spec_float) : SFltb x y = true -> SFleb y x = false.
Proof.
  unfold SFltb, SFleb. rewrite (SFcompare_antisym x y).
  now destruct (SFcompare x y) as [[]|].
Qed.

(** The strict order of two valid positive floats is that of their
    values. *)
Lemma SFltb_finite_val (ma mb : positive) (ea eb E1 : Z) :
  bounded prec emax ma ea = true -> bounded prec emax mb eb = true ->
  SFltb (S754_finite false ma ea) (S754_finite false mb eb) = true ->
  E1 <= ea -> E1 <= eb ->
  Z.pos ma * 2 ^ (ea - E1) < Z.pos mb * 2 ^ (eb - E1).
Proof.
  intros Va Vb H Ha Hb.
  apply bounded_spec in Va as (_ & Ra & Ua & La).
  apply bounded_spec in Vb as (_ & Rb & Ub & Lb).
  unfold SFltb, SFcompare in H.
  change (Pos.compare_cont Eq ma mb) with (Pos.compare ma mb) in H.
  destruct (Z.compare_spec ea eb) as [E|L|G]; try discriminate H.
  - subst eb. destruct (Pos.compare_spec ma mb) as [E'|L'|G']; try discriminate H.
    apply Z.mul_lt_mono_pos_r; [apply pow2_pos; lia|lia].
  - specialize (Lb ltac:(lia)).
    assert (P : 2 ^ (eb - E1) = 2 ^ (eb - ea - 1) * 2 * 2 ^ (ea - E1)).
    { rewrite <- (Z.pow_1_r 2) at 3. rewrite <- !Z.pow_add_r by lia. f_equal. lia. }
    rewrite P.
    pose proof (pow2_pos (eb - ea - 1) ltac:(lia)).
    pose proof (pow2_pos (ea - E1) ltac:(lia)).
    assert (Z.pos ma < Z.pos mb * (2 ^ (eb - ea - 1) * 2)) by nia.
    replace (Z.pos mb * (2 ^ (eb - ea - 1) * 2 * 2 ^ (ea - E1)))
      with (Z.pos mb * (2 ^ (eb - ea - 1) * 2) * 2 ^ (ea - E1)) by ring.
    apply Z.mul_lt_mono_pos_r; lia.
Qed.

(** The sign of a rounded value is the sign it was given. *)
Lemma binary_round_aux_opp (m e : Z) (l : location) :
  binary_round_aux prec emax true m e l =
  SFopp (binary_round_aux prec emax false m e l).
Proof.
  unfold binary_round_aux.
  destruct (shr_fexp prec emax m e l) as [mrs' e'].
  destruct (shr_fexp prec emax _ e' loc_Exact) as [mrs'' e''].
  destruct (shr_m mrs''); try reflexivity.
  now destruct (e'' <=? emax - prec).
Qed.

Lemma binary_round_opp (p : positive) (e : Z) :
  binary_round prec emax true p e = SFopp (binary_round prec emax false p e).
Proof.
  unfold binary_round.
  destruct (shl_align p e _) as [mz ez]. apply binary_round_aux_opp.
Qed.

(** A mantissa above zero at an exponent of binary64 rounds to a float
    above zero. *)
Lemma binary_round_above_zero (p : positive) (ez : Z) :
  -1074 <= ez -> above_zero (binary_round prec emax false p ez).
Proof.
  intros He. destruct (binary_round_rnd p ez) as [-> P].
  set (e := round_exp (Z.pos p) ez) in *.
  assert (Ge : -1074 <= e) by now apply round_exp_ge.
  assert (Le : e <= ez) by (unfold e, round_exp; lia).
  assert (V : bounded prec emax 1 (-1074) = true) by reflexivity.
  destruct (rnd_id 1 (-1074) V) as [I P1].
  apply (above_zero_le (S754_finite false 1 (-1074))); [reflexivity|].
  rewrite <- I.
  pose proof (pow2_pos (ez - e) ltac:(lia)). pose proof (pow2_pos (e - -1074) ltac:(lia)).
  apply (rnd_mono (-1074)); try lia; try assumption.
Qed.

Lemma binary_round_nonneg (p : positive) (ez : Z) :
  nonneg (binary_round prec emax false p ez).
Proof.
  destruct (binary_round_rnd p ez) as [-> P].
  pose proof (pow2_pos (ez - round_exp (Z.pos p) ez) ltac:(unfold round_exp; lia)).
  apply rnd_range; [nia|lia|exact P].
Qed.

Lemma SFsub_finite (mx my : positive) (ex ey : Z) :
  SF64sub (S754_finite false mx ex) (S754_finite false my ey) =
  binary_normalize prec emax (sub_diff mx my ex ey) (Z.min ex ey) false.
Proof.
  unfold SF64sub, SFsub. cbn [cond_Zopp].
  pose proof (shl_align_spec mx ex (Z.min ex ey)) as [X1 _].
  pose proof (shl_align_spec my ey (Z.min ex ey)) as [Y1 _].
  replace (Z.min ex (Z.min ex ey)) with (Z.min ex ey) in X1 by lia.
  replace (Z.min ey (Z.min ex ey)) with (Z.min ex ey) in Y1 by lia.
  now rewrite X1, Y1.
Qed.

Lemma SFltb_false_leb (x y : spec_float) :
  x <> S754_nan -> y <> S754_nan -> SFltb x y = false -> SFleb y x = true.
Proof.
  intros Hx Hy. unfold SFleb, SFltb. rewrite (SFcompare_antisym x y).
  destruct (SFcompare x y) as [[]|] eqn:E; cbn; try congruence.
  destruct x, y; cbn in E; congruence.
Qed.

Lemma SFopp_above_zero (r : spec_float) :
  above_zero r -> SFltb (SFopp r) (S754_zero false) = true.
Proof. destruct r as [s|[]| |[] m e]; cbn; intros H; try discriminate H; reflexivity. Qed.

Lemma SFopp_nonneg (r : spec_float) :
  nonneg r -> SFltb (S754_zero false) (SFopp r) = false /\ nonpos (SFopp r).
Proof.
  destruct r as [s|[]| |[] m e]; cbn; intros H; try discriminate H; split; reflexivity.
Qed.

Lemma nonneg_not_below (r : spec_float) :
  nonneg r -> SFltb r (S754_zero false) = false.
Proof. destruct r as [s|[]| |[] m e]; cbn; intros H; try discriminate H; reflexivity. Qed.

Lemma above_zero_cases (x : spec_float) :
  above_zero x -> x = S754_infinity false \/ exists m e, x = S754_finite false m e.
Proof.
  destruct x as [s|[]| |[] m e]; cbn; intros H; try discriminate H; eauto.
Qed.

Lemma sub_diff_opp (mx my : positive) (ex ey : Z) :
  sub_diff my mx ey ex = - sub_diff mx my ex ey.
Proof. unfold sub_diff. rewrite (Z.min_comm ey ex). lia. Qed.

Lemma sub_diff_lt (mx my : positive) (ex ey : Z) :
  bounded prec emax mx ex = true -> bounded prec emax my ey = true ->
  SFltb (S754_finite false mx ex) (S754_finite false my ey) = true ->
  sub_diff mx my ex ey < 0.
Proof.
  intros Vx Vy L. unfold sub_diff.
  pose proof (SFltb_finite_val mx my ex ey (Z.min ex ey) Vx Vy L ltac:(lia) ltac:(lia)).
  lia.
Qed.

Lemma sub_diff_le (mx my : positive) (ex ey : Z) :
  bounded prec emax mx ex = true -> bounded prec emax my ey = true ->
  SFleb (S754_finite false mx ex) (S754_finite false my ey) = true ->
  sub_diff mx my ex ey <= 0.
Proof.
  intros Vx Vy L. unfold sub_diff.
  pose proof (SFleb_finite_val mx my ex ey (Z.min ex ey) Vx Vy L ltac:(lia) ltac:(lia)).
  lia.
Qed.

(** For [x] and [y] above zero, [y - x] is above zero exactly when
    [x < y], and so is [x - y] below zero. *)
Lemma SFsub_sign (x y : spec_float) :
  valid_binary x = true -> valid_binary y = true ->
  above_zero x -> above_zero y ->
  SFltb (S754_zero false) (SF64sub y x) = SFltb x y /\
  SFltb (SF64sub x y) (S754_zero false) = SFltb x y.
Proof.
  intros Vx Vy Hx Hy.
  destruct (above_zero_cases x Hx) as [->|(mx & ex & ->)],
           (above_zero_cases y Hy) as [->|(my & ey & ->)];
    try (split; reflexivity).
  cbn [valid_binary] in Vx, Vy.
  pose proof (bounded_spec _ _ Vx) as (_ & Rx & _).
  pose proof (bounded_spec _ _ Vy) as (_ & Ry & _).
  rewrite !SFsub_finite, (sub_diff_opp mx my ex ey).
  rewrite (Z.min_comm ey ex).
  destruct (SFltb (S754_finite false mx ex) (S754_finite false my ey)) eqn:L.
  - pose proof (sub_diff_lt mx my ex ey Vx Vy L) as D.
    destruct (sub_diff mx my ex ey) as [|p|p]; try lia.
    change (- Z.neg p) with (Z.pos p). cbn [binary_normalize]. split.
    + apply binary_round_above_zero. lia.
    + rewrite binary_round_opp. apply SFopp_above_zero, binary_round_above_zero. lia.
  - apply SFltb_false_leb in L; try discriminate.
    pose proof (sub_diff_le my mx ey ex Vy Vx L) as D.
    rewrite (sub_diff_opp mx my ex ey) in D.
    destruct (sub_diff mx my ex ey) as [|p|p]; try lia; [split; reflexivity|].
    change (- Z.pos p) with (Z.neg p). cbn [binary_normalize]. split.
    + rewrite binary_round_opp. apply SFopp_nonneg, binary_round_nonneg.
    + apply nonneg_not_below, binary_round_nonneg.
Qed.

(** The difference of two positive floats is finite when it is below
    zero. *)
Lemma SFsub_below_finite (mx my : positive) (ex ey : Z) :
  bounded prec emax mx ex = true -> bounded prec emax my ey = true ->
  SFltb (S754_finite false mx ex) (S754_finite false my ey) = true ->
  exists m e, SF64sub (S754_finite false mx ex) (S754_finite false my ey) =
              S754_finite true m e.
Proof.
  intros Vx Vy L.
  pose proof (bounded_spec _ _ Vx) as (_ & Rx & _).
  pose proof (bounded_spec _ _ Vy) as (_ & Ry & _).
  rewrite SFsub_finite.
  pose proof (sub_diff_lt mx my ex ey Vx Vy L) as D.
  destruct (sub_diff mx my ex ey) as [|p|p] eqn:Ed; try lia.
  cbn [binary_normalize]. rewrite binary_round_opp.
  set (ez := Z.min ex ey) in *.
  assert (A : above_zero (binary_round prec emax false p ez))
    by (apply binary_round_above_zero; lia).
  assert (B : SFleb (binary_round prec emax false p ez) (S754_finite false my ey) = true).
  { destruct (binary_round_rnd p ez) as [-> P].
    set (e := round_exp (Z.pos p) ez) in *.
    assert (Ge : -1074 <= e) by (apply round_exp_ge; lia).
    assert (Le : e <= ez) by (unfold e, round_exp; lia).
    destruct (rnd_id my ey Vy) as [I Py]. rewrite <- I.
    pose proof (pow2_pos (ez - e) ltac:(lia)).
    apply (rnd_mono (-1074)); try lia; try assumption.
    rewrite !Z.mul_1_r, <- Z.mul_assoc, <- Z.pow_add_r by lia.
    replace (ez - e + (e - -1074)) with (ez - -1074) by lia.
    assert (Hp : Z.pos p <= Z.pos my * 2 ^ (ey - ez)).
    { unfold sub_diff in Ed. fold ez in Ed.
      pose proof (pow2_pos (ex - ez) ltac:(lia)). lia. }
    replace (ey - -1074) with (ey - ez + (ez - -1074)) by lia.
    rewrite Z.pow_add_r, Z.mul_assoc by lia.
    apply Z.mul_le_mono_nonneg_r; [|exact Hp].
    pose proof (pow2_pos (ez - -1074) ltac:(lia)). lia. }
  destruct (binary_round prec emax false p ez) as [s|[]| |[] m e];
    try discriminate A; try discriminate B.
  cbn. eauto.
Qed.

(** A float below zero times one that is not negative is not above
    zero. *)
Lemma SFmul_below_nonneg (m : positive) (e : Z) (q : spec_float) :
  bounded prec emax m e = true -> valid_binary q = true ->
  nonneg q -> nonpos (SF64mul (S754_finite true m e) q).
Proof.
  intros Vm Vq Hq. apply nonneg_cases in Hq. destruct Hq as [s| |mq eq].
  - now destruct s.
  - reflexivity.
  - cbn [valid_binary] in Vq.
    destruct (SFmul_finite m mq e eq Vm Vq) as [_ P].
    unfold SF64mul, SFmul. cbn [xorb]. rewrite binary_round_aux_opp.
    rewrite Pos2Z.inj_mul, <- rnd_exact.
    apply SFopp_nonneg, rnd_range; [lia|lia|exact P].
Qed.

(** A float that is not above zero minus one that is not negative is not
    above zero. *)
Lemma SFsub_nonpos_nonneg (g f : spec_float) :
  nonpos g -> nonneg f -> nonpos (SF64sub g f).
Proof.
  intros Hg Hf. apply nonneg_cases in Hf.
  destruct g as [sg|[]| |[] mg eg]; try discriminate Hg;
    destruct Hf as [sf| |mf ef]; try reflexivity;
    try (destruct sg; reflexivity); try (destruct sg, sf; reflexivity);
    try (destruct sf; reflexivity).
  unfold SF64sub, SFsub. cbn [cond_Zopp].
  match goal with
  | |- context [binary_normalize _ _ ?d _ _] =>
      assert (D : d < 0) by lia; destruct d as [|p|p]; try lia
  end.
  cbn [binary_normalize]. rewrite binary_round_opp.
  apply SFopp_nonneg, binary_round_nonneg.
Qed.

End Differences.

(** ** The order of the entries *)

Lemma pushed_target_sublist (o : option Result) (i : nat) :
  (forall r, o = Some r -> target r = i) ->
  List.map target (pushed o) `sublist_of` [i].
Proof.
  destruct o as [r|]; cbn; intros H.
  - rewrite (H r eq_refl). reflexivity.
  - apply sublist_nil_l.
Qed.

(** X1.  The target numbers of the entries [calculateResults] returns form
    a sub-sequence of 1, 2, 3: the entries come in the order of the targets,
    no target has two entries, and there are at most three of them. *)
Theorem results_in_target_order (s : State) :
  List.map target (calculateResults s) `sublist_of` [1; 2; 3] /\
  length (calculateResults s) <= 3.
Proof.
  assert (G : List.map target (calculateResults s) `sublist_of` [1; 2; 3]).
  { destruct (calculateResults_cases s) as [->|(price & _ & ->)];
      [apply sublist_nil_l|].
    rewrite !List.map_app.
    change [1; 2; 3] with ([1] ++ [2] ++ [3]).
    repeat apply sublist_app; apply pushed_target_sublist; intros r E;
      apply targetResult_Some in E; tauto. }
  split; [exact G|].
  apply sublist_length in G. now rewrite length_map in G.
Qed.

(** ** The position type *)

Lemma targetResult_isLong (a b : string) price e ps q index txt :
  isLong a = isLong b ->
  targetResult a price e ps q index txt = targetResult b price e ps q index txt.
Proof. unfold targetResult. now intros ->. Qed.

Lemma calculateResults_isLong (s : State) (a b : string) :
  isLong a = isLong b ->
  calculateResults (setPositionType a s) = calculateResults (setPositionType b s).
Proof.
  intros H. unfold calculateResults.
  cbn [setPositionType selectedPair currentPrice entryAmount targets leverage positionType].
  destruct (selectedPair s), (currentPrice s); try reflexivity.
  destruct (_ || _)%bool; [reflexivity|].
  cbn [fold_left targetKeys]. unfold pushTarget. cbn [fst snd].
  now rewrite !(targetResult_isLong a b) by exact H.
Qed.

(** X2.  A position type other than the exact string [Long] is computed as
    a short position: [long], [LONG], the empty string or any other value,
    such as one restored from the page address, gives the results of
    [Short]. *)
Theorem position_other_than_Long_is_Short (s : State) (v : string) :
  v <> "Long" ->
  calculateResults (setPositionType v s) =
  calculateResults (setPositionType "Short" s).
Proof.
  intros H. apply calculateResults_isLong. unfold isLong.
  apply String.eqb_neq in H. now rewrite H.
Qed.

Lemma position_other_than_Long_is_Short_witness :
  calculateResults (setPositionType "long" spec_example) =
  calculateResults (setPositionType "Short" spec_example).
Proof. apply position_other_than_Long_is_Short. discriminate. Defined.

(** ** A target on the losing side *)

Section Binary64_differences.

Local Open Scope float_scope.

(** For [x] and [y] above zero, [y - x > 0] exactly when [x < y]. *)
Lemma sub_gt_zero (x y : float) :
  gt x 0 = true -> gt y 0 = true -> gt (y - x) 0 = (x <? y).
Proof.
  intros Hx Hy. unfold gt. rewrite !FloatAxioms.ltb_spec, sub_spec, Prim2SF_zero.
  apply SFsub_sign; auto using Prim2SF_valid; now apply gt_zero_above.
Qed.

(** Numbers above zero are comparable. *)
Lemma ltb_false_leb (x y : float) :
  gt x 0 = true -> gt y 0 = true -> (x <? y) = false -> (y <=? x) = true.
Proof.
  intros Hx Hy. rewrite FloatAxioms.ltb_spec, FloatAxioms.leb_spec.
  apply gt_zero_spec in Hx, Hy.
  apply SFltb_false_leb.
  - destruct Hx as [->|(? & ? & ->)]; discriminate.
  - destruct Hy as [->|(? & ? & ->)]; discriminate.
Qed.

Lemma leb_refl (x : float) : gt x 0 = true -> (x <=? x) = true.
Proof.
  intros H. rewrite FloatAxioms.leb_spec. unfold SFleb.
  rewrite SFcompare_refl; [reflexivity|].
  apply gt_zero_spec in H. destruct H as [->|(? & ? & ->)]; discriminate.
Qed.

Lemma ltb_leb (x y : float) : (x <? y) = true -> (x <=? y) = true.
Proof.
  rewrite FloatAxioms.ltb_spec, FloatAxioms.leb_spec. apply SFltb_leb.
Qed.

Lemma leb_trans (x y z : float) :
  (0 <=? x) = true -> (x <=? y) = true -> (y <=? z) = true -> (x <=? z) = true.
Proof.
  rewrite leb_zero_nonneg, !FloatAxioms.leb_spec. apply SFleb_trans.
Qed.

(** The profit of a position whose target lies on the losing side:
    [(a - b) * q - f] with [a < b], a quantity [q] and fees [f] that are
    not negative. *)
Lemma losing_side (a b q f : float) :
  gt a 0 = true -> gt b 0 = true -> (b <? infinity) = true ->
  (a <? b) = true -> (0 <=? q) = true -> (0 <=? f) = true ->
  ((a - b) * q - f <=? 0) = true.
Proof.
  intros Ha Hb Ib L Hq Hf.
  assert (Ia : (a <? infinity) = true).
  { rewrite FloatAxioms.ltb_spec in *. rewrite Prim2SF_infinity in *.
    apply gt_zero_spec in Ha. destruct Ha as [Ha|(m & e & Ha)]; rewrite Ha in *.
    - destruct (Prim2SF b) as [?|[]| |[] ? ?]; discriminate.
    - reflexivity. }
  destruct (positive_finite_spec a Ha Ia) as (ma & ea & Ea & Va).
  destruct (positive_finite_spec b Hb Ib) as (mb & eb & Eb & Vb).
  rewrite leb_zero_nonneg in Hq, Hf.
  rewrite FloatAxioms.ltb_spec, Ea, Eb in L.
  destruct (SFsub_below_finite ma mb ea eb Va Vb L) as (m & e & D).
  pose proof (Prim2SF_valid (a - b)) as Vd.
  rewrite sub_spec, Ea, Eb, D in Vd. cbn [valid_binary] in Vd.
  rewrite FloatAxioms.leb_spec, sub_spec, mul_spec, sub_spec, Ea, Eb, D, Prim2SF_zero.
  apply SFsub_nonpos_nonneg; [|exact Hf].
  apply SFmul_below_nonneg; auto using Prim2SF_valid.
Qed.

End Binary64_differences.

(** The fees of an entry are not negative. *)
Lemma entryOf_fees_nonneg (s : State) (price : number) (i : nat) (k : TargetKey)
    (r : Result) :
  gt (parseFloat (entryAmount s)) 0 = true -> gt (leverage s) 0 = true ->
  gt price 0 = true -> (price <? infinity)%float = true ->
  gt (targetPrice r) 0 = true -> (targetPrice r <? infinity)%float = true ->
  entryOf s price i k = Some r ->
  (0 <=? fees r)%float = true /\
  (0 <=? parseFloat (entryAmount s) * leverage s / price)%float = true.
Proof.
  intros He HL Hp Ip Ht It E.
  pose proof (targetResult_Some _ _ _ _ _ _ _ _ E) as (_ & _ & TP).
  rewrite TP in Ht, It.
  assert (LL : (leverage s <=? leverage s)%float = true) by now apply leb_refl.
  split.
  - apply (entryOf_fees_mono s (leverage s) (leverage s) price i k r r); auto.
  - destruct (mul_above_zero_mono (parseFloat (entryAmount s)) _ _ He HL LL) as [P1 P0].
    now destruct (div_finite_mono _ _ price Hp Ip P0 P1).
Qed.

(** X3.  With an entry amount and a leverage above zero and finite current
    and target prices above zero, an entry whose target lies on the losing
    side of the current price, below it for [Long] and above it for any
    other position type, never shows a profit: its [pnl] is at most zero. *)
Theorem losing_side_target_never_profits (s : State) (price : number) (r : Result) :
  currentPrice s = Some price ->
  gt (parseFloat (entryAmount s)) 0 = true -> gt (leverage s) 0 = true ->
  gt price 0 = true -> (price <? infinity)%float = true ->
  In r (calculateResults s) ->
  gt (targetPrice r) 0 = true -> (targetPrice r <? infinity)%float = true ->
  (if isLong (positionType s) then (targetPrice r <? price)%float
   else (price <? targetPrice r)%float) = true ->
  (pnl r <=? 0)%float = true.
Proof.
  intros Hc He HL Hp Ip Hr Ht It Side.
  apply calculateResults_entry in Hr as (p & k & i & C & _ & E).
  assert (p = price) by congruence. subst p.
  destruct (entryOf_fees_nonneg s price i k r He HL Hp Ip Ht It E) as [F Q].
  unfold entryOf, targetResult in E.
  destruct (falsy (parseFloat (get_target (targets s) k))); [discriminate|].
  injection E as <-. cbn [pnl targetPrice fees] in *.
  destruct (isLong (positionType s)); now apply losing_side.
Qed.

Lemma losing_side_target_never_profits_witness :
  Forall (fun r => (pnl r <=? 0)%float = true)
         (calculateResults (session 50000 "Long" 10 "1000" "45000" "" "")).
Proof.
  apply List.Forall_forall. intros r Hr.
  apply (losing_side_target_never_profits
           (session 50000 "Long" 10 "1000" "45000" "" "") 50000%float r);
    try reflexivity;
    try assumption; vm_compute in Hr; destruct Hr as [<-|[]]; reflexivity.
Defined.

(** ** An entry amount that is not a number *)

Section NaN.
Local Open Scope float_scope.

Lemma nan_mul_r (x y : float) : is_nan y = true -> is_nan (x * y) = true.
Proof.
  intros H. apply is_nan_spec. rewrite mul_spec.
  apply is_nan_spec in H. rewrite H. now destruct (Prim2SF x).
Qed.

Lemma nan_div_l (x y : float) : is_nan x = true -> is_nan (x / y) = true.
Proof.
  intros H. apply is_nan_spec. rewrite div_spec.
  apply is_nan_spec in H. now rewrite H.
Qed.

Lemma nan_add_l (x y : float) : is_nan x = true -> is_nan (x + y) = true.
Proof.
  intros H. apply is_nan_spec. rewrite add_spec.
  apply is_nan_spec in H. now rewrite H.
Qed.

Lemma nan_add_r (x y : float) : is_nan y = true -> is_nan (x + y) = true.
Proof.
  intros H. apply is_nan_spec. rewrite add_spec.
  apply is_nan_spec in H. rewrite H. now destruct (Prim2SF x).
Qed.

Lemma nan_sub_r (x y : float) : is_nan y = true -> is_nan (x - y) = true.
Proof.
  intros H. apply is_nan_spec. rewrite sub_spec.
  apply is_nan_spec in H. rewrite H. now destruct (Prim2SF x).
Qed.

End NaN.

(** With an entry amount that is not a number every figure of the loop
    body is [NaN]. *)
Lemma entryOf_NaN (s : State) (price : number) (i : nat) (k : TargetKey)
    (r : Result) :
  is_nan (parseFloat (entryAmount s)) = true ->
  entryOf s price i k = Some r ->
  is_nan (pnl r) = true /\ is_nan (roi r) = true /\
  is_nan (fees r) = true /\ is_nan (finalAmount r) = true.
Proof.
  intros Hn. unfold entryOf, targetResult.
  destruct (falsy (parseFloat (get_target (targets s) k))); [discriminate|].
  intros [= <-]. cbn [pnl roi fees finalAmount].
  set (e := parseFloat (entryAmount s)) in *.
  assert (Nps : is_nan (e * leverage s)%float = true) by now apply nan_mul_l.
  assert (Nfees : is_nan (e * leverage s * bybitFeeRate +
                          e * leverage s / price *
                          parseFloat (get_target (targets s) k) * bybitFeeRate)%float
                  = true) by now apply nan_add_l, nan_mul_l.
  repeat split.
  - now apply nan_sub_r.
  - now apply nan_mul_l, nan_div_l, nan_sub_r.
  - exact Nfees.
  - now apply nan_add_l.
Qed.

(** X4.  An entry amount that is not empty and does not parse to a number
    passes the guard: with a selected pair, a usable current price and a
    usable target 1 the result is not empty, and [pnl], [roi], [fees] and
    [finalAmount] of every entry are [NaN]. *)
Theorem entry_amount_NaN_poisons_results (s : State) (pair : Pair) (price : number) :
  selectedPair s = Some pair ->
  currentPrice s = Some price ->
  falsy price = false ->
  str_falsy (entryAmount s) = false ->
  is_nan (parseFloat (entryAmount s)) = true ->
  falsy (parseFloat (target1 (targets s))) = false ->
  calculateResults s <> [] /\
  Forall (fun r => is_nan (pnl r) = true /\ is_nan (roi r) = true /\
                   is_nan (fees r) = true /\ is_nan (finalAmount r) = true)
         (calculateResults s).
Proof.
  intros Hp Hc Hf He Hn Ht. split.
  - rewrite (calculateResults_loop s pair price Hp Hc Hf He)
      by auto using str_falsy_parseFloat.
    unfold entryOf at 1, targetResult. cbn [get_target]. rewrite Ht.
    cbn [pushed app]. discriminate.
  - apply List.Forall_forall. intros r Hr.
    apply calculateResults_entry in Hr as (p & k & i & _ & _ & E).
    exact (entryOf_NaN s p i k r Hn E).
Qed.

Lemma entry_amount_NaN_poisons_results_witness :
  calculateResults (session 50000 "Long" 10 "abc" "55000" "" "") <> [] /\
  Forall (fun r => is_nan (pnl r) = true /\ is_nan (roi r) = true /\
                   is_nan (fees r) = true /\ is_nan (finalAmount r) = true)
         (calculateResults (session 50000 "Long" 10 "abc" "55000" "" "")).
Proof.
  apply (entry_amount_NaN_poisons_results _ BTCUSDT 50000%float); reflexivity.
Defined.

(** ** Editing one target *)

Lemma entriesFor_pushed (st : State) (price : number) (j : nat) :
  entriesFor j (pushed (entryOf st price 0 key_target1) ++
                pushed (entryOf st price 1 key_target2) ++
                pushed (entryOf st price 2 key_target3)) =
  (if Nat.eqb 1 j then pushed (entryOf st price 0 key_target1) else []) ++
  (if Nat.eqb 2 j then pushed (entryOf st price 1 key_target2) else []) ++
  (if Nat.eqb 3 j then pushed (entryOf st price 2 key_target3) else []).
Proof.
  unfold entriesFor. rewrite !List.filter_app.
  repeat match goal with
         | |- context [pushed (entryOf ?a ?b ?c ?d)] =>
             let E := fresh "E" in
             destruct (entryOf a b c d) eqn:E;
             [apply targetResult_Some in E; destruct E as (_ & E & _)|]
         end; cbn [pushed List.filter]; rewrite ?E, ?E0, ?E1; cbn [Nat.add];
    repeat match goal with |- context [Nat.eqb ?a j] => destruct (Nat.eqb a j) end;
    reflexivity.
Qed.

Lemma entryOf_other_key (s : State) (k k' : TargetKey) (v : string)
    (price : number) (i : nat) :
  k' <> k ->
  entryOf (handleTargetChange k v s) price i k' = entryOf s price i k'.
Proof.
  intros H. unfold entryOf.
  cbn [handleTargetChange entryAmount leverage positionType targets].
  destruct k, k'; try congruence; reflexivity.
Qed.

(** X5.  [handleTargetChange] on one target leaves the entries of the
    other targets as they were, as long as an edit of target 1 does not turn
    it from empty to filled or back (target 1 gates the whole
    calculation). *)
Theorem target_change_is_local (s : State) (k : TargetKey) (i : nat) (v : string)
    (j : nat) :
  In (k, i) targetKeys ->
  (k = key_target1 -> str_falsy v = str_falsy (target1 (targets s))) ->
  j <> i + 1 ->
  entriesFor j (calculateResults (handleTargetChange k v s)) =
  entriesFor j (calculateResults s).
Proof.
  intros Hk Hg Hj.
  set (s' := handleTargetChange k v s).
  assert (G1 : str_falsy (target1 (targets s')) = str_falsy (target1 (targets s))).
  { destruct k; cbn; auto. }
  destruct (selectedPair s) as [pair|] eqn:Sp.
  2:{ rewrite (calculateResults_guard s), (calculateResults_guard s'); auto. }
  destruct (currentPrice s) as [price|] eqn:Sc.
  2:{ rewrite (calculateResults_guard s), (calculateResults_guard s'); auto. }
  destruct (falsy price) eqn:Sf.
  { rewrite (calculateResults_guard s), (calculateResults_guard s'); eauto 6. }
  destruct (entryAmount s) as [|c e] eqn:Se.
  { rewrite (calculateResults_guard s), (calculateResults_guard s'); auto 6. }
  destruct (str_falsy (target1 (targets s))) eqn:St.
  { rewrite (calculateResults_guard s), (calculateResults_guard s'); auto.
    - right; right; right; right. now destruct (target1 (targets s')).
    - right; right; right; right. now destruct (target1 (targets s)). }
  assert (Gs : str_falsy (entryAmount s) = false) by now rewrite Se.
  rewrite (calculateResults_loop s pair price) by assumption.
  rewrite (calculateResults_loop s' pair price) by assumption.
  rewrite !entriesFor_pushed.
  cbn in Hk. destruct Hk as [[= <- <-]|[[= <- <-]|[[= <- <-]|[]]]]; cbn [Nat.add] in Hj.
  - destruct (Nat.eqb_spec 1 j); [congruence|].
    unfold s'. now rewrite !entryOf_other_key by discriminate.
  - destruct (Nat.eqb_spec 2 j); [congruence|].
    unfold s'. now rewrite !entryOf_other_key by discriminate.
  - destruct (Nat.eqb_spec 3 j); [congruence|].
    unfold s'. now rewrite !entryOf_other_key by discriminate.
Qed.

Lemma target_change_is_local_witness :
  entriesFor 2 (calculateResults
                  (handleTargetChange key_target3 "48000"
                     (session 50000 "Long" 10 "1000" "55000" "60000" ""))) =
  entriesFor 2 (calculateResults (session 50000 "Long" 10 "1000" "55000" "60000" "")).
Proof.
  apply (target_change_is_local _ key_target3 2); [cbn; tauto|discriminate|lia].
Defined.

(** ** Fees and the position type *)

Lemma targetResult_fees (a b : string) price e ps q index txt :
  option_map (fun r => (target r, targetPrice r, fees r))
             (targetResult a price e ps q index txt) =
  option_map (fun r => (target r, targetPrice r, fees r))
             (targetResult b price e ps q index txt).
Proof. unfold targetResult. now destruct (falsy (parseFloat txt)). Qed.

Lemma map_pushed {B} (f : Result -> B) (o : option Result) :
  List.map f (pushed o) = match option_map f o with Some x => [x] | None => [] end.
Proof. now destruct o. Qed.

(** X21.  The fees, the target number and the target price of the entries
    do not depend on the position type: any two position types give the
    same list of them. *)
Theorem fees_ignore_the_position_type (s : State) (a b : string) :
  List.map (fun r => (target r, targetPrice r, fees r))
           (calculateResults (setPositionType a s)) =
  List.map (fun r => (target r, targetPrice r, fees r))
           (calculateResults (setPositionType b s)).
Proof.
  destruct (selectedPair s) as [pair|] eqn:Sp.
  2:{ rewrite !calculateResults_guard; auto. }
  destruct (currentPrice s) as [price|] eqn:Sc.
  2:{ rewrite !calculateResults_guard; auto. }
  destruct (falsy price) eqn:Sf.
  { rewrite !calculateResults_guard; eauto 6. }
  destruct (str_falsy (entryAmount s)) eqn:Se.
  { rewrite !calculateResults_guard; auto; right; right; right; left; cbn;
      now destruct (entryAmount s). }
  destruct (str_falsy (target1 (targets s))) eqn:St.
  { rewrite !calculateResults_guard; auto; right; right; right; right; cbn;
      now destruct (target1 (targets s)). }
  rewrite (calculateResults_loop (setPositionType a s) pair price) by assumption.
  rewrite (calculateResults_loop (setPositionType b s) pair price) by assumption.
  rewrite !List.map_app, !map_pushed. unfold entryOf.
  cbn [setPositionType positionType entryAmount leverage targets].
  now rewrite !(targetResult_fees a b).
Qed.

(** ** Targets that are used *)

(** X22.  Past the guard of the first line, every target whose text parses
    to a number other than zero and [NaN], negative numbers and infinities
    included, has exactly one entry, which carries that number as its
    target price. *)
Theorem usable_target_has_one_entry (s : State) (pair : Pair) (price : number)
    (k : TargetKey) (i : nat) :
  selectedPair s = Some pair ->
  currentPrice s = Some price -> falsy price = false ->
  str_falsy (entryAmount s) = false ->
  str_falsy (target1 (targets s)) = false ->
  In (k, i) targetKeys ->
  falsy (parseFloat (get_target (targets s) k)) = false ->
  exists r,
    In r (calculateResults s) /\ target r = i + 1 /\
    targetPrice r = parseFloat (get_target (targets s) k) /\
    forall r', In r' (calculateResults s) -> target r' = i + 1 -> r' = r.
Proof.
  intros Hp Hc Hf He Ht1 Hk Ht.
  rewrite (calculateResults_loop s pair price Hp Hc Hf He Ht1).
  assert (E : exists r, entryOf s price i k = Some r).
  { unfold entryOf, targetResult. rewrite Ht. eauto. }
  destruct E as (r & E).
  pose proof (targetResult_Some _ _ _ _ _ _ _ _ E) as (_ & T & P).
  exists r. split; [|split; [exact T|split; [exact P|]]].
  - rewrite !in_app_iff. cbn in Hk.
    destruct Hk as [[= <- <-]|[[= <- <-]|[[= <- <-]|[]]]]; rewrite E; cbn; auto.
  - intros r' Hr' T'. rewrite !in_app_iff in Hr'.
    cbn in Hk.
    destruct Hr' as [H|[H|H]]; apply pushed_In in H;
      pose proof (targetResult_Some _ _ _ _ _ _ _ _ H) as (_ & T2 & _);
      rewrite T' in T2;
      destruct Hk as [[= <- <-]|[[= <- <-]|[[= <- <-]|[]]]];
      try discriminate T2; congruence.
Qed.

Lemma usable_target_has_one_entry_witness :
  exists r,
    In r (calculateResults (session 50000 "Long" 10 "1000" "55000" "Infinity" "")) /\
    target r = 2 /\ targetPrice r = infinity.
Proof.
  destruct (usable_target_has_one_entry
              (session 50000 "Long" 10 "1000" "55000" "Infinity" "") BTCUSDT
              50000%float key_target2 1) as (r & H1 & H2 & H3 & _);
    try reflexivity; [cbn; tauto|].
  exists r. auto.
Defined.

(** ** What the fees grow with *)

Section Fee_order.

Local Open Scope float_scope.

Lemma mul_comm (x y : float) : x * y = y * x.
Proof. apply Prim2SF_inj. rewrite !mul_spec. apply SFmul_comm. Qed.

Lemma leb_refl_nonneg (x : float) : (0 <=? x) = true -> (x <=? x) = true.
Proof.
  rewrite !FloatAxioms.leb_spec, Prim2SF_zero. unfold SFleb. intros H.
  rewrite SFcompare_refl; [reflexivity|].
  intros E. rewrite E in H. discriminate H.
Qed.

(** [x * c] for finite [x] and [y] above zero and a [c] that is not
    negative. *)
Lemma mul_nonneg_mono (x y c : float) :
  gt x 0 = true -> (x <=? y) = true -> (y <? infinity) = true ->
  (0 <=? c) = true ->
  (x * c <=? y * c) = true /\ (0 <=? x * c) = true.
Proof.
  intros Hx L Iy Hc.
  assert (Hy : gt y 0 = true).
  { apply gt_zero_above. apply gt_zero_above in Hx.
    rewrite FloatAxioms.leb_spec in L. exact (above_zero_le _ _ Hx L). }
  assert (Ix : (x <? infinity) = true).
  { apply gt_zero_spec in Hx.
    rewrite FloatAxioms.ltb_spec, Prim2SF_infinity in *.
    rewrite FloatAxioms.leb_spec in L.
    destruct Hx as [Hx|(m & e & Hx)]; rewrite Hx in *; [|reflexivity].
    destruct (Prim2SF y) as [?|[]| |[] ? ?]; discriminate. }
  destruct (positive_finite_spec x Hx Ix) as (mx & ex & Ex & Vx).
  destruct (positive_finite_spec y Hy Iy) as (my & ey & Ey & Vy).
  rewrite leb_zero_nonneg in *. rewrite FloatAxioms.leb_spec in *.
  rewrite !mul_spec. rewrite Ex, Ey in *.
  apply SFmul_mono; auto using Prim2SF_valid.
  - reflexivity.
  - rewrite SFmul_comm. apply SFmul_finite_not_nan; auto using Prim2SF_valid.
  - rewrite SFmul_comm. apply SFmul_finite_not_nan; auto using Prim2SF_valid.
Qed.

(** The fees as a function of the position size. *)
Lemma fees_mono_size (ps1 ps2 p t : float) :
  (0 <=? ps1) = true -> (ps1 <=? ps2) = true ->
  gt p 0 = true -> (p <? infinity) = true ->
  gt t 0 = true -> (t <? infinity) = true ->
  (ps1 * bybitFeeRate + ps1 / p * t * bybitFeeRate <=?
   ps2 * bybitFeeRate + ps2 / p * t * bybitFeeRate) = true.
Proof.
  intros P0 P1 Hp Ip Ht It.
  destruct bybitFeeRate_finite as [Hr Ir].
  destruct (mul_finite_mono _ _ bybitFeeRate Hr Ir P0 P1) as [F1 F0].
  destruct (div_finite_mono _ _ p Hp Ip P0 P1) as [Q1 Q0].
  destruct (mul_finite_mono _ _ t Ht It Q0 Q1) as [X1 X0].
  destruct (mul_finite_mono _ _ bybitFeeRate Hr Ir X0 X1) as [Y1 Y0].
  now destruct (add_mono _ _ _ _ F0 F1 Y0 Y1).
Qed.

(** The fees as a function of the target price. *)
Lemma fees_mono_target (ps p t1 t2 : float) :
  (0 <=? ps) = true ->
  gt p 0 = true -> (p <? infinity) = true ->
  gt t1 0 = true -> (t1 <=? t2) = true -> (t2 <? infinity) = true ->
  (ps * bybitFeeRate + ps / p * t1 * bybitFeeRate <=?
   ps * bybitFeeRate + ps / p * t2 * bybitFeeRate) = true.
Proof.
  intros P0 Hp Ip Ht L It.
  destruct bybitFeeRate_finite as [Hr Ir].
  pose proof (leb_refl_nonneg ps P0) as P1.
  destruct (mul_finite_mono _ _ bybitFeeRate Hr Ir P0 P1) as [F1 F0].
  destruct (div_finite_mono _ _ p Hp Ip P0 P1) as [_ Q0].
  destruct (mul_nonneg_mono t1 t2 (ps / p) Ht L It Q0) as [X1 X0].
  rewrite (mul_comm t1), (mul_comm t2) in X1. rewrite (mul_comm t1) in X0.
  destruct (mul_finite_mono _ _ bybitFeeRate Hr Ir X0 X1) as [Y1 Y0].
  now destruct (add_mono _ _ _ _ F0 F1 Y0 Y1).
Qed.

End Fee_order.

Lemma targetKeys_inj (k1 k2 : TargetKey) (i1 i2 : nat) :
  In (k1, i1) targetKeys -> In (k2, i2) targetKeys ->
  i1 + 1 = i2 + 1 -> k1 = k2 /\ i1 = i2.
Proof.
  cbn. intros H1 H2 E.
  repeat match goal with
         | H : _ \/ _ |- _ => destruct H as [H|H]
         | H : False |- _ => destruct H
         | H : (_, _) = (_, _) |- _ => injection H as <- <-
         end; try discriminate E; auto.
Qed.

(** X23.  With a finite current price above zero and a leverage above
    zero, a larger entry amount never gives smaller fees: for entry amounts
    [amount1] and [amount2] that parse to numbers with
    [0 < amount1 <= amount2], the entry of a target with a finite price
    above zero has fees under [amount1] that are at most its fees under
    [amount2], in binary64 arithmetic. *)
Theorem fees_grow_with_the_entry_amount (s : State) (amount1 amount2 : string)
    (price : number) (r1 r2 : Result) :
  currentPrice s = Some price ->
  gt (parseFloat amount1) 0 = true ->
  (parseFloat amount1 <=? parseFloat amount2)%float = true ->
  gt (leverage s) 0 = true ->
  gt price 0 = true -> (price <? infinity)%float = true ->
  In r1 (calculateResults (setEntryAmount amount1 s)) ->
  In r2 (calculateResults (setEntryAmount amount2 s)) ->
  target r1 = target r2 ->
  gt (targetPrice r1) 0 = true -> (targetPrice r1 <? infinity)%float = true ->
  (fees r1 <=? fees r2)%float = true.
Proof.
  intros Hc He Le HL Hp Ip In1 In2 Ht Hg Hi.
  apply calculateResults_entry in In1 as (p1 & k1 & i1 & C1 & K1 & E1).
  apply calculateResults_entry in In2 as (p2 & k2 & i2 & C2 & K2 & E2).
  cbn [setEntryAmount currentPrice] in C1, C2.
  assert (p1 = price) by congruence. assert (p2 = price) by congruence. subst p1 p2.
  pose proof (targetResult_Some _ _ _ _ _ _ _ _ E1) as (_ & T1 & TP1).
  pose proof (targetResult_Some _ _ _ _ _ _ _ _ E2) as (_ & T2 & _).
  rewrite T1, T2 in Ht.
  destruct (targetKeys_inj _ _ _ _ K1 K2 Ht) as [<- <-].
  cbn [setEntryAmount targets] in TP1. rewrite TP1 in Hg, Hi.
  unfold entryOf, targetResult in E1, E2.
  cbn [setEntryAmount entryAmount leverage targets positionType] in E1, E2.
  rewrite (gt_zero_truthy _ Hg) in E1, E2.
  injection E1 as <-. injection E2 as <-. cbn [fees].
  destruct (mul_above_zero_mono (leverage s) _ _ HL He Le) as [P1 P0].
  rewrite !(mul_comm (leverage s)) in P1. rewrite (mul_comm (leverage s)) in P0.
  now apply fees_mono_size.
Qed.

Lemma fees_grow_with_the_entry_amount_witness :
  Forall (fun r1 =>
    Forall (fun r2 => target r1 = target r2 -> (fees r1 <=? fees r2)%float = true)
      (calculateResults
         (setEntryAmount "2000" (session 50000 "Long" 10 "1000" "55000" "" ""))))
    (calculateResults
       (setEntryAmount "1000" (session 50000 "Long" 10 "1000" "55000" "" ""))).
Proof.
  apply List.Forall_forall. intros r1 H1.
  apply List.Forall_forall. intros r2 H2 Ht.
  apply (fees_grow_with_the_entry_amount
           (session 50000 "Long" 10 "1000" "55000" "" "") "1000" "2000"
           50000 r1 r2); try reflexivity; try assumption.
  - vm_compute in H1. destruct H1 as [<-|[]]. reflexivity.
  - vm_compute in H1. destruct H1 as [<-|[]]. reflexivity.
Defined.

(** X24.  With a finite current price, an entry amount and a leverage
    above zero, a higher target price never gives smaller fees: when the
    text of one target is changed from a number above zero to a larger
    finite number, the fees of the entry of that target do not decrease,
    in binary64 arithmetic. *)
Theorem fees_grow_with_the_target_price (s : State) (k : TargetKey) (i : nat)
    (text1 text2 : string) (price : number) (r1 r2 : Result) :
  currentPrice s = Some price ->
  gt (parseFloat (entryAmount s)) 0 = true -> gt (leverage s) 0 = true ->
  gt price 0 = true -> (price <? infinity)%float = true ->
  In (k, i) targetKeys ->
  gt (parseFloat text1) 0 = true ->
  (parseFloat text1 <=? parseFloat text2)%float = true ->
  (parseFloat text2 <? infinity)%float = true ->
  In r1 (calculateResults (handleTargetChange k text1 s)) ->
  In r2 (calculateResults (handleTargetChange k text2 s)) ->
  target r1 = i + 1 -> target r2 = i + 1 ->
  (fees r1 <=? fees r2)%float = true.
Proof.
  intros Hc He HL Hp Ip Hk Hg Lt It In1 In2 T1 T2.
  apply calculateResults_entry in In1 as (p1 & k1 & i1 & C1 & K1 & E1).
  apply calculateResults_entry in In2 as (p2 & k2 & i2 & C2 & K2 & E2).
  cbn [handleTargetChange currentPrice] in C1, C2.
  assert (p1 = price) by congruence. assert (p2 = price) by congruence. subst p1 p2.
  pose proof (targetResult_Some _ _ _ _ _ _ _ _ E1) as (_ & T1' & _).
  pose proof (targetResult_Some _ _ _ _ _ _ _ _ E2) as (_ & T2' & _).
  rewrite T1 in T1'. rewrite T2 in T2'.
  destruct (targetKeys_inj _ _ _ _ Hk K1 T1') as [<- <-].
  destruct (targetKeys_inj _ _ _ _ Hk K2 T2') as [<- <-].
  assert (G : forall v, get_target (targets (handleTargetChange k v s)) k = v)
    by (intros v; now destruct k).
  unfold entryOf, targetResult in E1, E2. rewrite !G in E1, E2.
  cbn [handleTargetChange entryAmount leverage positionType] in E1, E2.
  assert (Hg2 : gt (parseFloat text2) 0 = true).
  { apply gt_zero_above. apply gt_zero_above in Hg.
    rewrite FloatAxioms.leb_spec in Lt. exact (above_zero_le _ _ Hg Lt). }
  rewrite (gt_zero_truthy _ Hg) in E1. rewrite (gt_zero_truthy _ Hg2) in E2.
  injection E1 as <-. injection E2 as <-. cbn [fees].
  destruct (mul_above_zero_mono (parseFloat (entryAmount s)) _ _ He HL
              (leb_refl _ HL)) as [_ P0].
  now apply fees_mono_target.
Qed.

Lemma fees_grow_with_the_target_price_witness :
  Forall (fun r1 =>
    Forall (fun r2 => target r1 = 1 -> target r2 = 1 ->
                      (fees r1 <=? fees r2)%float = true)
      (calculateResults
         (handleTargetChange key_target1 "60000"
            (session 50000 "Long" 10 "1000" "55000" "" ""))))
    (calculateResults
       (handleTargetChange key_target1 "55000"
          (session 50000 "Long" 10 "1000" "55000" "" ""))).
Proof.
  apply List.Forall_forall. intros r1 H1.
  apply List.Forall_forall. intros r2 H2 T1 T2.
  apply (fees_grow_with_the_target_price
           (session 50000 "Long" 10 "1000" "55000" "" "") key_target1 0
           "55000" "60000" 50000 r1 r2); try reflexivity; try assumption.
  cbn. tauto.
Defined.

(** ** Formatting *)

Section Formatting_facts.

Local Open Scope float_scope.

Variable toLocaleString : number -> nat -> string.

Lemma append_empty_r (s : string) : String.append s "" = s.
Proof.
  induction s as [|c s IH]; [reflexivity|].
  change (String c (String.append s "") = String c s). now rewrite IH.
Qed.

Lemma parseFloatOfNumber_truthy (x : number) :
  falsy x = false -> parseFloatOfNumber x = x /\ is_nan x = false.
Proof.
  unfold falsy, parseFloatOfNumber. intros H.
  apply orb_false_iff in H as [N Z]. now rewrite Z.
Qed.

(** A number that is at least [c], for a [c] above zero, is neither a
    zero nor [NaN], and it is not below any number up to [c]. *)
Lemma leb_truthy (c x : float) :
  gt c 0 = true -> (c <=? x) = true -> falsy x = false.
Proof.
  intros Hc H. apply gt_zero_truthy.
  apply gt_zero_above. apply gt_zero_above in Hc.
  rewrite FloatAxioms.leb_spec in H. exact (above_zero_le _ _ Hc H).
Qed.

Lemma leb_not_ltb (x y : float) : (x <=? y) = true -> (y <? x) = false.
Proof.
  rewrite FloatAxioms.leb_spec, FloatAxioms.ltb_spec. intros H.
  destruct (SFltb (Prim2SF y) (Prim2SF x)) eqn:L; [|reflexivity].
  apply SFltb_not_leb in L. congruence.
Qed.

Lemma formatCurrency_NaN (x : number) (options : Options.t) :
  is_nan x = true -> formatCurrency toLocaleString (Some x) options = "N/A".
Proof.
  intros H. unfold formatCurrency, parseFloatOfNumber.
  assert (Z : is_zero x = false).
  { apply is_nan_spec in H. unfold is_zero.
    rewrite FloatAxioms.eqb_spec, H. reflexivity. }
  now rewrite Z, H.
Qed.

Lemma formatCurrency_truthy (x : number) (options : Options.t) :
  falsy x = false ->
  formatCurrency toLocaleString (Some x) options =
  String.append (default "$" (Options.prefix options))
    (String.append (toLocaleString x (finalDecimals x options))
                   (default "" (Options.suffix options))).
Proof.
  intros H. destruct (parseFloatOfNumber_truthy x H) as [E N].
  unfold formatCurrency. now rewrite E, N.
Qed.

(** The digits [formatPrice] asks for, by the size of the price. *)
Lemma formatPrice_truthy (price : number) :
  falsy price = false ->
  formatPrice toLocaleString (Some price) =
  String.append "$"
    (toLocaleString price
       (if 1000 <=? price then 2 else if 1 <=? price then 4 else 6)).
Proof.
  intros F. unfold formatPrice. rewrite F.
  destruct (parseFloatOfNumber_truthy price F) as [-> N].
  rewrite !formatCurrency_truthy by exact F.
  unfold finalDecimals. cbn [Options.decimals Options.showCents Options.prefix
                             Options.suffix default].
  rewrite !append_empty_r.
  destruct (1000 <=? price) eqn:K.
  - assert (L : (price <? 1) = false).
    { apply leb_not_ltb. apply (leb_trans 1 1000 price); auto. }
    rewrite L. reflexivity.
  - destruct (1 <=? price) eqn:U; destruct (price <? 1); reflexivity.
Qed.

(** X6.  [formatPrice] returns [N/A] for a price that is 0, -0 or [NaN].
    Any other price is shown after a dollar sign with 2 fraction digits from
    1000 on, 4 from 1 up to 1000 and 6 below 1, negative prices
    included. *)
Theorem formatPrice_digits (price : number) :
  formatPrice toLocaleString (Some price) =
  if falsy price then "N/A"
  else
    String.append "$"
      (toLocaleString price
         (if 1000 <=? price then 2 else if 1 <=? price then 4 else 6)).
Proof.
  destruct (falsy price) eqn:F.
  - unfold formatPrice. now rewrite F.
  - now apply formatPrice_truthy.
Qed.

End Formatting_facts.

(** ** The labels of the cards *)

Section Labels.

Variable toLocaleString : number -> nat -> string.

(** A volume above one million is at least 1 when counted in millions. *)
Lemma millions_at_least_one (v : number) :
  gt v 1000000 = true -> (1 <=? v / 1000000)%float = true.
Proof.
  intros H. unfold gt in H. apply ltb_leb in H.
  destruct (div_finite_mono 1000000 v 1000000) as [D _]; try reflexivity; auto.
Qed.

(** X18.  On a trending card the volume is always shown in millions with
    2 fraction digits, between a dollar sign and [M], although 1 digit is
    asked for; and the price label is never [N/A]: it is the price after a
    dollar sign, with the fraction digits [formatPrice] gives its
    magnitude. *)
Theorem trending_card_labels
    (tickers : list Ticker.t) (instruments : list Item.t) (t : Trending.t) :
  In t (validPairsOf tickers instruments) ->
  volumeLabel toLocaleString t =
    String.append "$"
      (String.append
         (toLocaleString (Trending.volume24h t / 1000000)%float 2) "M") /\
  priceLabel toLocaleString t =
    String.append "$"
      (toLocaleString (Trending.lastPrice t)
         (if (1000 <=? Trending.lastPrice t)%float then 2
          else if (1 <=? Trending.lastPrice t)%float then 4 else 6)).
Proof.
  intros H. apply validPairsOf_In in H as (ticker & _ & Ht & ->).
  unfold isTrending in Ht. rewrite !andb_true_iff in Ht.
  destruct Ht as [[[_ V] L] _]. split.
  - apply millions_at_least_one in V.
    unfold volumeLabel. cbn [trendingOf Trending.volume24h].
    rewrite formatCurrency_truthy by (apply (leb_truthy 1); auto).
    unfold finalDecimals. cbn [Options.decimals Options.showCents Options.prefix
                               Options.suffix default].
    now rewrite (leb_not_ltb _ _ V).
  - unfold priceLabel. cbn [trendingOf Trending.lastPrice].
    apply formatPrice_truthy. now apply gt_zero_truthy.
Qed.

(** X7.  When the entry amount does not parse to a number, every card of
    the profit analysis shows [N/A] for the profit, the return, the fees and
    the final amount, is drawn as a loss, and still shows its target
    price. *)
Theorem cards_show_NA_for_NaN_entry_amount (s : State) (r : Result) :
  is_nan (parseFloat (entryAmount s)) = true ->
  In r (calculateResults s) ->
  let card := resultCard toLocaleString r in
  card_pnl card = "N/A" /\ card_roi card = "N/A" /\
  card_fees card = "N/A" /\ card_finalAmount card = "N/A" /\
  card_profit card = false /\
  card_targetPrice card <> "N/A".
Proof.
  intros Hn Hr card.
  pose proof (calculateResults_In s r Hr) as (k0 & i0 & _ & _ & Ft & Tp).
  apply calculateResults_entry in Hr as (p & k & i & _ & _ & E).
  destruct (entryOf_NaN s p i k r Hn E) as (N1 & N2 & N3 & N4).
  unfold card, resultCard.
  cbn [card_pnl card_roi card_fees card_finalAmount card_profit card_targetPrice].
  rewrite !formatCurrency_NaN by assumption.
  repeat split.
  - apply is_nan_spec in N1. rewrite FloatAxioms.leb_spec, N1.
    now destruct (Prim2SF 0).
  - rewrite formatPrice_truthy by (now rewrite Tp). discriminate.
Qed.

End Labels.

Lemma trending_card_labels_witness :
  Forall (fun t =>
            volumeLabel plainDigits t =
            String.append "$"
              (String.append
                 (plainDigits (Trending.volume24h t / 1000000)%float 2) "M"))
         (validPairsOf sample_tickers sample_instruments).
Proof.
  apply List.Forall_forall. intros t Ht.
  now apply (trending_card_labels plainDigits sample_tickers sample_instruments).
Defined.

Lemma cards_show_NA_for_NaN_entry_amount_witness :
  Forall (fun r => card_pnl (resultCard plainDigits r) = "N/A" /\
                   card_profit (resultCard plainDigits r) = false)
         (calculateResults (session 50000 "Long" 10 "abc" "55000" "" "")).
Proof.
  apply List.Forall_forall. intros r Hr.
  destruct (cards_show_NA_for_NaN_entry_amount plainDigits
              (session 50000 "Long" 10 "abc" "55000" "" "") r)
    as (H1 & _ & _ & _ & H5 & _); [reflexivity|exact Hr|]. now split.
Defined.

(** ** The page address *)

Section Address_facts.

Variable toString : number -> string.

Lemma get_or_empty_truthy (params : Params) (k v : string) :
  get params k = (if str_falsy v then None else Some v) ->
  get_or_empty params k = v.
Proof.
  unfold get_or_empty. intros ->. now destruct v.
Qed.

Lemma get_truthy_Some (params : Params) (k v : string) :
  get params k = Some v -> str_falsy v = false -> get_truthy params k = Some v.
Proof. unfold get_truthy. now intros -> ->. Qed.

(** What [params.get] reads from the parameters [updateURL] wrote. *)
Lemma updateURL_get (s : State) (p : Pair) :
  selectedPair s = Some p ->
  let params := updateURL toString s in
  get params "pair" = Some (baseSymbol p) /\
  get params "position" = Some (positionType s) /\
  get params "leverage" = Some (toString (leverage s)) /\
  get params "entry" =
    (if str_falsy (entryAmount s) then None else Some (entryAmount s)) /\
  get params "t1" =
    (if str_falsy (target1 (targets s)) then None else Some (target1 (targets s))) /\
  get params "t2" =
    (if str_falsy (target2 (targets s)) then None else Some (target2 (targets s))) /\
  get params "t3" =
    (if str_falsy (target3 (targets s)) then None else Some (target3 (targets s))).
Proof.
  intros Hp params. unfold params, updateURL, get. rewrite Hp.
  destruct (str_falsy (entryAmount s)), (str_falsy (target1 (targets s))),
    (str_falsy (target2 (targets s))), (str_falsy (target3 (targets s)));
    repeat split; now simplify_map_eq.
Qed.

(** X8.  Writing a session to the page address and loading it again gives
    the session back.  When the exchange resolves the base symbol of the
    selected pair to the same pair, and the leverage reads back from its
    string, loading the parameters of [updateURL] on mount restores the pair,
    its leverage bounds, the position type, the leverage, the entry amount
    and the three targets, with live prices switched on and no price yet;
    after the next price both sessions compute the same results. *)
Theorem address_round_trip (s : State) (p : Pair) (item : Item.t) (c : Category)
    (linearReply inverseReply : Reply) :
  selectedPair s = Some p ->
  str_falsy (baseSymbol p) = false ->
  str_falsy (positionType s) = false ->
  str_falsy (toString (leverage s)) = false ->
  parseFloat (toString (leverage s)) = leverage s ->
  findPair (baseSymbol p) [(linear, linearReply); (inverse, inverseReply)]
    = Some (item, c) ->
  pairOf c item = p ->
  let s' := loadFromURL (updateURL toString s) linearReply inverseReply initialState in
  s' = {| selectedPair := Some p;
          currentPrice := None;
          isLivePriceActive := true;
          leverageInfo := Some (LeverageInfo.make (minLeverage p) (maxLeverage p));
          positionType := positionType s;
          leverage := leverage s;
          entryAmount := entryAmount s;
          targets := targets s |} /\
  forall lastPrice,
    calculateResults (fetchCurrentPrice (Some lastPrice) s') =
    calculateResults (fetchCurrentPrice (Some lastPrice) s).
Proof.
  intros Hp Hb Hpos Hl Hrt Hf Hpair s'.
  destruct (updateURL_get s p Hp) as (G1 & G2 & G3 & G4 & G5 & G6 & G7).
  assert (E : s' = {| selectedPair := Some p;
                      currentPrice := None;
                      isLivePriceActive := true;
                      leverageInfo :=
                        Some (LeverageInfo.make (minLeverage p) (maxLeverage p));
                      positionType := positionType s;
                      leverage := leverage s;
                      entryAmount := entryAmount s;
                      targets := targets s |}).
  { unfold s', loadFromURL.
    rewrite (get_truthy_Some _ _ _ G1 Hb), Hf, Hpair. unfold restoreState.
    rewrite (get_truthy_Some _ _ _ G2 Hpos), (get_truthy_Some _ _ _ G3 Hl), Hrt.
    rewrite (get_or_empty_truthy _ _ _ G5), (get_or_empty_truthy _ _ _ G6),
      (get_or_empty_truthy _ _ _ G7).
    unfold get_truthy at 1. rewrite G4.
    cbn [currentPrice initialState entryAmount].
    destruct (targets s) as [t1 t2 t3]. cbn [target1 target2 target3].
    destruct (entryAmount s) as [|a e]; reflexivity. }
  split; [exact E|].
  intros lastPrice. rewrite E. unfold fetchCurrentPrice, calculateResults.
  cbn [selectedPair currentPrice entryAmount targets leverage positionType].
  now rewrite Hp.
Qed.

End Address_facts.

Lemma address_round_trip_witness :
  let s' := loadFromURL (updateURL sample_toString spec_example)
                        (listing [BTCUSDT_item]) (listing []) initialState in
  selectedPair s' = Some BTCUSDT /\
  leverage s' = 10%float /\
  calculateResults (fetchCurrentPrice (Some "50000") s') =
  calculateResults (fetchCurrentPrice (Some "50000") spec_example).
Proof.
  intros s'.
  destruct (address_round_trip sample_toString spec_example BTCUSDT BTCUSDT_item
              linear (listing [BTCUSDT_item]) (listing []))
    as [E R]; try reflexivity.
  fold s' in E, R. split; [|split].
  - now rewrite E.
  - now rewrite E.
  - apply R.
Defined.

(** ** Search results and the page address *)

Section Search_facts.

(** The part of the search filter that reads the symbol only. *)
Lemma matchesQuery_spec (searchValue : string) (item : Item.t) :
  matchesQuery searchValue item = true <->
  includes (toLowerCase (Item.symbol item)) (toLowerCase searchValue) = true /\
  (endsWith (Item.symbol item) "USDT" || endsWith (Item.symbol item) "USD")%bool = true /\
  Item.status item = "Trading" /\
  hasLeverage item = true.
Proof.
  unfold matchesQuery. rewrite !andb_true_iff, String.eqb_eq. tauto.
Qed.

Lemma resolves_spec (pairFromURL : string) (item : Item.t) :
  resolves pairFromURL item = true <->
  Item.symbol item = pairFromURL /\ Item.status item = "Trading" /\
  hasLeverage item = true.
Proof.
  unfold resolves. rewrite !andb_true_iff, !String.eqb_eq. tauto.
Qed.

Lemma filter_all {A} (f : A -> bool) (l : list A) :
  (forall x, In x l -> f x = true) -> List.filter f l = l.
Proof.
  induction l as [|a l IH]; cbn; intros H; [reflexivity|].
  rewrite (H a) by auto. f_equal. apply IH. auto.
Qed.

Lemma filter_none {A} (f : A -> bool) (l : list A) :
  (forall x, In x l -> f x = false) -> List.filter f l = [].
Proof.
  induction l as [|a l IH]; cbn; intros H; [reflexivity|].
  rewrite (H a) by auto. apply IH. auto.
Qed.

Lemma pairsOf_inv (searchValue : string) (c : Category) (reply : Reply) (p : Pair) :
  In p (pairsOf searchValue c reply) ->
  exists l item,
    usable_list reply = Some l /\ In item l /\
    matchesQuery searchValue item = true /\ p = pairOf c item.
Proof.
  unfold pairsOf. destruct (usable_list reply) as [l|]; [|intros []].
  intros H. apply in_map_iff in H as (item & <- & H).
  apply filter_In in H as [H1 H2]. eauto 6.
Qed.

Lemma allPairsOf_app (searchValue : string) (linearReply inverseReply : Reply) :
  allPairsOf searchValue linearReply inverseReply =
  pairsOf searchValue linear linearReply ++ pairsOf searchValue inverse inverseReply.
Proof. reflexivity. Qed.

(** The two loops that fill [uniquePairs] are one run over the linear
    pairs followed by the inverse ones. *)
Lemma uniquePairsOf_allPairsOf (searchValue : string) (linearReply inverseReply : Reply) :
  uniquePairsOf (allPairsOf searchValue linearReply inverseReply) =
  fst (fold_left addUnique
         (pairsOf searchValue linear linearReply ++
          pairsOf searchValue inverse inverseReply) ([], ∅)).
Proof.
  unfold uniquePairsOf. rewrite allPairsOf_app, !List.filter_app.
  assert (C : forall c p, In p (pairsOf searchValue c
                                  (match c with linear => linearReply
                                              | inverse => inverseReply end)) ->
                          category p = c).
  { intros c p H. apply pairsOf_inv in H as (l & item & _ & _ & _ & ->). reflexivity. }
  rewrite (filter_all (ofCategory linear) (pairsOf searchValue linear linearReply)).
  2:{ intros p H. unfold ofCategory. now rewrite (C linear p H). }
  rewrite (filter_none (ofCategory linear) (pairsOf searchValue inverse inverseReply)).
  2:{ intros p H. unfold ofCategory. now rewrite (C inverse p H). }
  rewrite (filter_none (ofCategory inverse) (pairsOf searchValue linear linearReply)).
  2:{ intros p H. unfold ofCategory. now rewrite (C linear p H). }
  rewrite (filter_all (ofCategory inverse) (pairsOf searchValue inverse inverseReply)).
  2:{ intros p H. unfold ofCategory. now rewrite (C inverse p H). }
  rewrite app_nil_r. cbn [app]. now rewrite fold_left_app.
Qed.

(** A pair the loop keeps is the first of the run with its base symbol. *)
Lemma fold_addUnique_first (l : list Pair) (acc : list Pair * gset string) (q : Pair) :
  tracks acc ->
  In q (fst (fold_left addUnique l acc)) ->
  In q (fst acc) \/
  exists l1 l2,
    l = l1 ++ q :: l2 /\
    (forall x, In x l1 -> baseSymbol x <> baseSymbol q) /\
    ~ In (baseSymbol q) (List.map baseSymbol (fst acc)).
Proof.
  revert acc. induction l as [|a l IH]; intros acc T; cbn [fold_left]; [auto|].
  intros H. destruct (IH _ (addUnique_tracks acc a T) H) as [H1|(l1 & l2 & -> & F & N)].
  - destruct acc as [u seen]. unfold addUnique in H1.
    case_bool_decide as D; [now left|]. cbn [fst] in H1.
    apply in_app_iff in H1 as [H1|[<-|[]]]; [now left|].
    right. exists [], l. split; [reflexivity|]. split; [intros ? []|].
    intros Hin. apply D. now apply T.
  - right. exists (a :: l1), l2. split; [reflexivity|].
    destruct acc as [u seen]. unfold addUnique in N.
    case_bool_decide as D; cbn [fst] in N.
    + split; [|exact N]. intros x [<-|Hx]; [|auto].
      intros E. apply N. rewrite <- E. now apply T.
    + rewrite List.map_app, in_app_iff in N. cbn in N. split.
      * intros x [<-|Hx]; [|auto]. intros E. apply N. auto.
      * intros Hin. apply N. auto.
Qed.

Lemma find_first {A} (f : A -> bool) (l1 : list A) (x : A) (l2 : list A) :
  (forall y, In y l1 -> f y = false) -> f x = true ->
  List.find f (l1 ++ x :: l2) = Some x.
Proof.
  induction l1 as [|a l1 IH]; cbn; intros H Hx.
  - now rewrite Hx.
  - rewrite (H a) by auto. apply IH; auto.
Qed.

Lemma find_filter {A} (g f h : A -> bool) (l : list A) :
  (forall x, In x l -> g x = (f x && h x)%bool) ->
  List.find g l = List.find h (List.filter f l).
Proof.
  induction l as [|a l IH]; cbn; intros H; [reflexivity|].
  rewrite (H a) by auto. destruct (f a); cbn.
  - destruct (h a); [reflexivity|]. apply IH. auto.
  - apply IH. auto.
Qed.

Lemma map_eq_middle {A B} (f : A -> B) (l : list A) (l1 : list B) (y : B) (l2 : list B) :
  List.map f l = l1 ++ y :: l2 ->
  exists m1 x m2, l = m1 ++ x :: m2 /\ List.map f m1 = l1 /\ f x = y.
Proof.
  revert l1. induction l as [|a l IH]; intros l1 H.
  - destruct l1; discriminate H.
  - destruct l1 as [|b l1]; cbn in H; injection H as H1 H2.
    + exists [], a, l. auto.
    + destruct (IH l1 H2) as (m1 & x & m2 & -> & Hm & Hx).
      exists (a :: m1), x, m2. cbn. rewrite Hm, H1. auto.
Qed.

(** For a symbol that passes the text tests of the search, the instrument
    the address resolves to is the first one the search keeps. *)
Lemma find_resolves (searchValue sym : string) (l : list Item.t) :
  includes (toLowerCase sym) (toLowerCase searchValue) = true ->
  (endsWith sym "USDT" || endsWith sym "USD")%bool = true ->
  List.find (resolves sym) l =
  List.find (fun item => String.eqb (Item.symbol item) sym)
            (List.filter (matchesQuery searchValue) l).
Proof.
  intros Hi He. apply find_filter. intros item _.
  unfold resolves, matchesQuery.
  destruct (String.eqb_spec (Item.symbol item) sym) as [->|N].
  - rewrite Hi, He. cbn. now rewrite andb_true_r.
  - cbn. now rewrite andb_false_r.
Qed.

(** The first pair of a category's contribution with a given base symbol
    comes from the instrument the address resolves to. *)
Lemma find_in_pairsOf (searchValue : string) (c : Category) (reply : Reply)
    (l1 : list Pair) (p : Pair) (l2 : list Pair) :
  pairsOf searchValue c reply = l1 ++ p :: l2 ->
  (forall x, In x l1 -> baseSymbol x <> baseSymbol p) ->
  exists l item,
    usable_list reply = Some l /\
    List.find (resolves (baseSymbol p)) l = Some item /\ pairOf c item = p.
Proof.
  unfold pairsOf. destruct (usable_list reply) as [l|]; [|now destruct l1].
  intros H F. apply map_eq_middle in H as (m1 & item & m2 & E & <- & <-).
  exists l, item. split; [reflexivity|]. split; [|reflexivity].
  assert (M : matchesQuery searchValue item = true).
  { assert (I : In item (List.filter (matchesQuery searchValue) l))
      by (rewrite E, in_app_iff; cbn; auto).
    now apply filter_In in I. }
  apply matchesQuery_spec in M as (Hi & He & _).
  cbn [baseSymbol pairOf] in *.
  rewrite (find_resolves searchValue) by assumption.
  rewrite E. apply find_first.
  - intros y Hy. apply String.eqb_neq. apply (F (pairOf c y)). now apply in_map.
  - apply String.eqb_refl.
Qed.

Lemma endsWith_nonempty (s suffix : string) :
  endsWith s suffix = true -> str_falsy suffix = false -> str_falsy s = false.
Proof.
  destruct s; [|reflexivity]. destruct suffix; [discriminate 2|]. discriminate 1.
Qed.

(** No linear instrument resolves a symbol that no linear pair of the
    search carries. *)
Lemma find_resolves_none (searchValue sym : string) (reply : Reply) (l : list Item.t) :
  includes (toLowerCase sym) (toLowerCase searchValue) = true ->
  (endsWith sym "USDT" || endsWith sym "USD")%bool = true ->
  usable_list reply = Some l ->
  (forall x, In x (pairsOf searchValue linear reply) -> baseSymbol x <> sym) ->
  List.find (resolves sym) l = None.
Proof.
  intros Hi He U F. apply find_none_all. intros x Hx.
  destruct (resolves sym x) eqn:R; [|reflexivity].
  exfalso. apply resolves_spec in R as (Es & Et & Hl).
  apply (F (pairOf linear x)); [|exact Es].
  apply (pairsOf_In _ _ _ l); auto.
  apply matchesQuery_spec. now rewrite Es.
Qed.

Lemma uniquePairsOf_resolves (searchValue : string) (linearReply inverseReply : Reply)
    (p : Pair) :
  In p (uniquePairsOf (allPairsOf searchValue linearReply inverseReply)) ->
  str_falsy (baseSymbol p) = false /\
  exists item c,
    findPair (baseSymbol p) [(linear, linearReply); (inverse, inverseReply)]
      = Some (item, c) /\
    pairOf c item = p.
Proof.
  rewrite uniquePairsOf_allPairsOf. intros H.
  apply fold_addUnique_first in H as [[]|(l1 & l2 & E & F & _)]; [|apply tracks_empty].
  assert (T : includes (toLowerCase (baseSymbol p)) (toLowerCase searchValue) = true /\
              (endsWith (baseSymbol p) "USDT" || endsWith (baseSymbol p) "USD")%bool
              = true).
  { assert (I : In p (pairsOf searchValue linear linearReply ++
                      pairsOf searchValue inverse inverseReply))
      by (rewrite E, in_app_iff; cbn; auto).
    apply in_app_iff in I as [I|I];
      apply pairsOf_inv in I as (l & item & _ & _ & M & ->);
      apply matchesQuery_spec in M as (Hi & He & _); auto. }
  destruct T as [Hi He].
  split.
  { apply orb_true_iff in He as [He|He]; now apply (endsWith_nonempty _ _ He). }
  assert (Inverse : forall l,
             pairsOf searchValue inverse inverseReply = l ++ p :: l2 ->
             (forall x, In x (pairsOf searchValue linear linearReply) ->
                        baseSymbol x <> baseSymbol p) ->
             (forall x, In x l -> baseSymbol x <> baseSymbol p) ->
             exists item c,
               findPair (baseSymbol p) [(linear, linearReply); (inverse, inverseReply)]
                 = Some (item, c) /\
               pairOf c item = p).
  { intros l EB FA FB.
    destruct (find_in_pairsOf searchValue inverse inverseReply l p l2 EB FB)
      as (inv & item & U & Hf & Hp).
    exists item, inverse. split; [|exact Hp]. cbn [findPair]. rewrite U, Hf.
    destruct (usable_list linearReply) as [lin|] eqn:UL; [|reflexivity].
    now rewrite (find_resolves_none searchValue _ linearReply lin Hi He UL FA). }
  apply app_eq_app in E as [l [[EA EB]|[E1 EB]]].
  - destruct l as [|p' l].
    + rewrite app_nil_r in EA. cbn [app] in EB. symmetry in EB.
      apply (Inverse [] EB); [|intros ? []].
      intros x Hx. apply F. now rewrite <- EA.
    + cbn [app] in EB. injection EB as <- EB.
      destruct (find_in_pairsOf searchValue linear linearReply l1 p l EA F)
        as (lin & item & U & Hf & Hp).
      exists item, linear. split; [|exact Hp]. cbn [findPair]. now rewrite U, Hf.
  - apply (Inverse l EB).
    + intros x Hx. apply F. rewrite E1, in_app_iff. auto.
    + intros x Hx. apply F. rewrite E1, in_app_iff. auto.
Qed.

(** X9.  A pair offered by the search is restored exactly from its base
    symbol: for every entry of [searchCryptoPairs] and the same two replies,
    loading an address whose [pair] parameter is the entry's base symbol
    selects that entry, with its category and its leverage bounds. *)
Theorem search_result_is_restored (searchValue : string)
    (linearReply inverseReply : Reply) (p : Pair) (params : Params) (s : State) :
  In p (searchCryptoPairs searchValue linearReply inverseReply) ->
  get params "pair" = Some (baseSymbol p) ->
  let s' := loadFromURL params linearReply inverseReply s in
  selectedPair s' = Some p /\
  leverageInfo s' = Some (LeverageInfo.make (minLeverage p) (maxLeverage p)).
Proof.
  intros Hp Hg s'. unfold searchCryptoPairs in Hp. apply firstn_In in Hp.
  apply uniquePairsOf_resolves in Hp as (Hne & item & c & Hf & <-).
  unfold s', loadFromURL, get_truthy. rewrite Hg, Hne, Hf. split; reflexivity.
Qed.

End Search_facts.

Lemma search_result_is_restored_witness :
  Forall (fun p =>
            selectedPair (loadFromURL (<["pair" := baseSymbol p]> ∅)
                            (listing [BTCUSDT_item; BTCUSD_item])
                            (listing [BTCUSD_item; BTCUSDT_item]) initialState)
            = Some p)
         (searchCryptoPairs "btc" (listing [BTCUSDT_item; BTCUSD_item])
                            (listing [BTCUSD_item; BTCUSDT_item])).
Proof.
  apply List.Forall_forall. intros p Hp.
  apply (search_result_is_restored "btc" _ _ p _ initialState Hp).
  unfold get. apply lookup_insert_eq.
Defined.

(** ** What the search returns *)

Lemma hasLeverage_max (item : Item.t) :
  hasLeverage item = true -> gt (maxLeverageOf item) 1 = true.
Proof.
  unfold hasLeverage, maxLeverageOf.
  destruct (Item.leverageFilter item) as [lf|]; [|discriminate].
  destruct (LeverageFilter.maxLeverage lf); [discriminate|]. auto.
Qed.

Lemma searchCryptoPairs_inv (searchValue : string) (linearReply inverseReply : Reply)
    (p : Pair) :
  In p (searchCryptoPairs searchValue linearReply inverseReply) ->
  exists c l item,
    usable_list (match c with linear => linearReply | inverse => inverseReply end)
      = Some l /\
    In item l /\ matchesQuery searchValue item = true /\ p = pairOf c item.
Proof.
  intros H. unfold searchCryptoPairs in H. apply firstn_In in H.
  apply (uniquePairsOf_spec (allPairsOf searchValue linearReply inverseReply)) in H.
  rewrite allPairsOf_app, in_app_iff in H.
  destruct H as [H|H]; apply pairsOf_inv in H as (l & item & U & I & M & E).
  - exists linear, l, item. auto.
  - exists inverse, l, item. auto.
Qed.

(** X10.  Every entry of a search result comes from an instrument of the
    reply of its category whose status is [Trading]; its base symbol
    contains the search value when both are put in lower case and ends in
    [USDT] or [USD]; its maximum leverage is above 1; and its symbol is the
    base symbol, followed by [.I] for an inverse contract. *)
Theorem search_results_pass_the_filter (searchValue : string)
    (linearReply inverseReply : Reply) (p : Pair) :
  In p (searchCryptoPairs searchValue linearReply inverseReply) ->
  includes (toLowerCase (baseSymbol p)) (toLowerCase searchValue) = true /\
  (endsWith (baseSymbol p) "USDT" || endsWith (baseSymbol p) "USD")%bool = true /\
  gt (maxLeverage p) 1 = true /\
  symbol p = match category p with
             | linear => baseSymbol p
             | inverse => String.append (baseSymbol p) ".I"
             end /\
  exists l item,
    usable_list (match category p with
                 | linear => linearReply
                 | inverse => inverseReply
                 end) = Some l /\
    In item l /\ Item.status item = "Trading" /\ p = pairOf (category p) item.
Proof.
  intros H. apply searchCryptoPairs_inv in H as (c & l & item & U & I & M & ->).
  apply matchesQuery_spec in M as (Hi & He & Ht & Hl).
  cbn [baseSymbol maxLeverage symbol category pairOf].
  split; [exact Hi|]. split; [exact He|].
  split; [now apply hasLeverage_max|]. split; [now destruct c|].
  exists l, item. auto.
Qed.

Lemma search_results_pass_the_filter_witness :
  Forall (fun p => gt (maxLeverage p) 1 = true /\
                   includes (toLowerCase (baseSymbol p)) "btc" = true)
         (searchCryptoPairs "BTC" (listing [BTCUSDT_item; DELISTED_item])
                            (listing [BTCUSD_item])).
Proof.
  apply List.Forall_forall. intros p Hp.
  apply search_results_pass_the_filter in Hp as (H1 & _ & H3 & _). now split.
Defined.

(** ** The search ignores case *)

Lemma lowerChar_idem (c : ascii) : lowerChar (lowerChar c) = lowerChar c.
Proof. destruct c as [[] [] [] [] [] [] [] []]; reflexivity. Qed.

Lemma toLowerCase_idem (s : string) : toLowerCase (toLowerCase s) = toLowerCase s.
Proof.
  induction s as [|c s IH]; cbn; [reflexivity|]. now rewrite lowerChar_idem, IH.
Qed.

(** X13.  The search ignores the case of the search value: two values
    with the same lower case give the same result. *)
Theorem search_ignores_case (a b : string) (linearReply inverseReply : Reply) :
  toLowerCase a = toLowerCase b ->
  searchCryptoPairs a linearReply inverseReply =
  searchCryptoPairs b linearReply inverseReply.
Proof.
  intros E.
  assert (M : forall item, matchesQuery a item = matchesQuery b item).
  { intros item. unfold matchesQuery. now rewrite E. }
  assert (P : forall c reply, pairsOf a c reply = pairsOf b c reply).
  { intros c reply. unfold pairsOf. destruct (usable_list reply); [|reflexivity].
    f_equal. apply filter_ext. exact M. }
  unfold searchCryptoPairs. now rewrite !allPairsOf_app, !P.
Qed.

Lemma search_ignores_case_witness :
  searchCryptoPairs "BtC" (listing [BTCUSDT_item]) (listing [BTCUSD_item]) =
  searchCryptoPairs "btc" (listing [BTCUSDT_item]) (listing [BTCUSD_item]).
Proof. apply search_ignores_case. reflexivity. Defined.

(** ** Strings that end in a suffix *)

Lemma length_append (s t : string) :
  String.length (String.append s t) = String.length s + String.length t.
Proof.
  induction s as [|c s IH]; [reflexivity|].
  change (String.append (String c s) t) with (String c (String.append s t)).
  cbn [String.length Nat.add]. now f_equal.
Qed.

Lemma append_inj_l (s1 s2 t : string) :
  String.append s1 t = String.append s2 t -> s1 = s2.
Proof.
  revert s2. induction s1 as [|c s1 IH]; intros [|c2 s2] H.
  - reflexivity.
  - apply (f_equal String.length) in H.
    rewrite !length_append in H. cbn in H. lia.
  - apply (f_equal String.length) in H.
    rewrite !length_append in H. cbn in H. lia.
  - change (String c (String.append s1 t) = String c2 (String.append s2 t)) in H.
    injection H as -> H. f_equal. now apply IH.
Qed.

Lemma lastChar_append (s t : string) :
  str_falsy t = false -> lastChar (String.append s t) = lastChar t.
Proof.
  intros H. induction s as [|c s IH]; [reflexivity|].
  change (String.append (String c s) t) with (String c (String.append s t)).
  cbn [lastChar]. rewrite IH.
  destruct (String.append s t) eqn:E; [|reflexivity].
  apply (f_equal String.length) in E. rewrite length_append in E.
  destruct t; [discriminate H|]. cbn in E. lia.
Qed.

Lemma substring_suffix (s : string) (m : nat) :
  m <= String.length s ->
  exists pre, s = String.append pre (String.substring m (String.length s - m) s).
Proof.
  revert m. induction s as [|c s IH]; intros m Hm.
  - exists "". cbn in Hm. now replace m with 0 by lia.
  - destruct m as [|m].
    + exists "". change (String.append "" ?x) with x.
      rewrite Nat.sub_0_r. clear. generalize (String c s). intros t.
      induction t as [|a t IHt]; cbn; [reflexivity|]. now rewrite <- IHt.
    + cbn in Hm. destruct (IH m ltac:(lia)) as [pre E].
      exists (String c pre).
      change (String.append (String c pre) ?x) with (String c (String.append pre x)).
      cbn [String.length Nat.sub String.substring]. now rewrite <- E.
Qed.

Lemma endsWith_append (s suffix : string) :
  endsWith s suffix = true -> exists pre, s = String.append pre suffix.
Proof.
  unfold endsWith. intros H. apply andb_true_iff in H as [L E].
  apply Nat.leb_le in L. apply String.eqb_eq in E.
  destruct (substring_suffix s (String.length s - String.length suffix) ltac:(lia))
    as [pre Hp].
  replace (String.length s - (String.length s - String.length suffix))
    with (String.length suffix) in Hp by lia.
  rewrite E in Hp. eauto.
Qed.

Lemma endsWith_lastChar (s suffix : string) :
  endsWith s suffix = true -> str_falsy suffix = false ->
  lastChar s = lastChar suffix.
Proof.
  intros H N. apply endsWith_append in H as [pre ->]. now apply lastChar_append.
Qed.

(** ** The entries of a search result are distinct *)

Lemma NoDup_map_finer {A B C} (f : A -> B) (g : A -> C) (l : list A) :
  (forall x y, In x l -> In y l -> g x = g y -> f x = f y) ->
  List.NoDup (List.map f l) -> List.NoDup (List.map g l).
Proof.
  induction l as [|a l IH]; cbn; intros H N; [constructor|].
  inversion N as [|? ? Hn N']; subst. constructor.
  - intros Hin. apply in_map_iff in Hin as (y & E & Hy).
    apply Hn. rewrite <- (H y a) by auto. now apply in_map.
  - apply IH; auto.
Qed.

Lemma NoDup_firstn {A} (n : nat) (l : list A) :
  List.NoDup l -> List.NoDup (firstn n l).
Proof.
  revert n. induction l as [|a l IH]; intros [|n] N; cbn; try constructor.
  - inversion N as [|? ? Hn N']; subst. intros H. apply Hn.
    now apply firstn_In in H.
  - inversion N; subst. auto.
Qed.

(** What a run of the loop appends keeps the order of the run. *)
Lemma fold_addUnique_sublist (l : list Pair) (acc : list Pair * gset string) :
  exists added,
    fst (fold_left addUnique l acc) = fst acc ++ added /\ added `sublist_of` l.
Proof.
  revert acc. induction l as [|a l IH]; intros acc; cbn [fold_left].
  - exists []. now rewrite app_nil_r.
  - destruct (IH (addUnique acc a)) as (added & E & S).
    remember (fold_left addUnique l (addUnique acc a)) as R eqn:ER. clear ER.
    destruct acc as [u seen]. unfold addUnique in E.
    case_bool_decide as D; cbn [fst] in *.
    + exists added. split; [exact E|]. now apply sublist_cons.
    + exists (a :: added). rewrite E, <- app_assoc. split; [reflexivity|].
      now apply sublist_skip.
Qed.

Lemma firstn_sublist {A} (n : nat) (l : list A) : firstn n l `sublist_of` l.
Proof.
  rewrite <- (firstn_skipn n l) at 2. apply sublist_inserts_r. reflexivity.
Qed.

Lemma sublist_Forall {A} (P : A -> Prop) (l k : list A) :
  l `sublist_of` k -> Forall P k -> Forall P l.
Proof.
  intros S F. apply List.Forall_forall. intros x Hx.
  rewrite List.Forall_forall in F. apply F.
  apply list_elem_of_In. apply (elem_of_sublist l k x); [|exact S].
  now apply list_elem_of_In.
Qed.

(** The base symbol of an entry ends in USDT or USD, and its symbol is the
    base symbol, followed by [.I] for an inverse contract. *)
Lemma searchCryptoPairs_keys (searchValue : string)
    (linearReply inverseReply : Reply) (p : Pair) :
  In p (searchCryptoPairs searchValue linearReply inverseReply) ->
  (endsWith (baseSymbol p) "USDT" || endsWith (baseSymbol p) "USD")%bool = true /\
  symbol p = match category p with
             | linear => baseSymbol p
             | inverse => String.append (baseSymbol p) ".I"
             end.
Proof.
  intros H. apply searchCryptoPairs_inv in H as (c & l & item & _ & _ & M & ->).
  apply matchesQuery_spec in M as (_ & He & _).
  split; [exact He|]. now destruct c.
Qed.

(** X11.  In a search result no two entries have the same base symbol and
    no two have the same symbol, which is the key of their buttons; the
    linear entries come first and the inverse entries after them, each group
    in the order of the reply it came from. *)
Theorem search_results_are_distinct (searchValue : string)
    (linearReply inverseReply : Reply) :
  let results := searchCryptoPairs searchValue linearReply inverseReply in
  List.NoDup (List.map baseSymbol results) /\
  List.NoDup (List.map symbol results) /\
  exists linears inverses,
    results = linears ++ inverses /\
    Forall (fun p => category p = linear) linears /\
    Forall (fun p => category p = inverse) inverses /\
    linears `sublist_of` pairsOf searchValue linear linearReply /\
    inverses `sublist_of` pairsOf searchValue inverse inverseReply.
Proof.
  intros results.
  assert (Nb : List.NoDup (List.map baseSymbol results)).
  { unfold results, searchCryptoPairs. rewrite <- firstn_map. apply NoDup_firstn.
    apply (uniquePairsOf_spec (allPairsOf searchValue linearReply inverseReply)). }
  split; [exact Nb|]. split.
  - revert Nb. apply NoDup_map_finer. intros x y Hx Hy E.
    apply searchCryptoPairs_keys in Hx as (Ex & Sx).
    apply searchCryptoPairs_keys in Hy as (Ey & Sy).
    rewrite Sx, Sy in E.
    assert (K : forall a b : Pair,
               (endsWith (baseSymbol a) "USDT" || endsWith (baseSymbol a) "USD")%bool
               = true ->
               baseSymbol a <> String.append (baseSymbol b) ".I").
    { intros a b Ea Eq.
      assert (L : lastChar (baseSymbol a) = Some "I"%char)
        by (rewrite Eq; now apply lastChar_append).
      apply orb_true_iff in Ea as [Ea|Ea];
        apply endsWith_lastChar in Ea; try reflexivity;
        rewrite L in Ea; discriminate Ea. }
    destruct (category x), (category y).
    + exact E.
    + now apply K in E.
    + symmetry in E. now apply K in E.
    + now apply append_inj_l in E.
  - unfold results, searchCryptoPairs. rewrite uniquePairsOf_allPairsOf.
    destruct (fold_addUnique_sublist
                (pairsOf searchValue linear linearReply ++
                 pairsOf searchValue inverse inverseReply) ([], ∅))
      as (added & -> & S).
    cbn [fst app].
    assert (S' : firstn 12 added `sublist_of`
                 pairsOf searchValue linear linearReply ++
                 pairsOf searchValue inverse inverseReply)
      by (etransitivity; [apply firstn_sublist|exact S]).
    apply sublist_app_r in S' as (l1 & l2 & E & S1 & S2).
    exists l1, l2. split; [exact E|]. split; [|split; [|split; assumption]].
    + apply (sublist_Forall _ _ _ S1). apply List.Forall_forall.
      intros p Hp. apply pairsOf_inv in Hp as (? & ? & _ & _ & _ & ->). reflexivity.
    + apply (sublist_Forall _ _ _ S2). apply List.Forall_forall.
      intros p Hp. apply pairsOf_inv in Hp as (? & ? & _ & _ & _ & ->). reflexivity.
Qed.

(** X12.  A search result of fewer than 12 entries leaves nothing out:
    every instrument of either usable reply that passes the filter has an
    entry with its symbol as base symbol. *)
Theorem search_results_are_complete (searchValue : string)
    (linearReply inverseReply : Reply) (c : Category) (l : list Item.t)
    (item : Item.t) :
  length (searchCryptoPairs searchValue linearReply inverseReply) < 12 ->
  usable_list (match c with linear => linearReply | inverse => inverseReply end)
    = Some l ->
  In item l -> matchesQuery searchValue item = true ->
  exists p,
    In p (searchCryptoPairs searchValue linearReply inverseReply) /\
    baseSymbol p = Item.symbol item.
Proof.
  intros Hlen U I M. unfold searchCryptoPairs in *.
  set (unique := uniquePairsOf (allPairsOf searchValue linearReply inverseReply)) in *.
  assert (E : firstn 12 unique = unique).
  { apply firstn_all2. rewrite length_firstn in Hlen. lia. }
  rewrite E. unfold unique. rewrite uniquePairsOf_allPairsOf.
  destruct (fold_addUnique
              (pairsOf searchValue linear linearReply ++
               pairsOf searchValue inverse inverseReply) ([], ∅) tracks_empty)
    as (_ & _ & K & _).
  specialize (K (pairOf c item)).
  assert (Hin : In (pairOf c item)
                   (pairsOf searchValue linear linearReply ++
                    pairsOf searchValue inverse inverseReply)).
  { rewrite in_app_iff. destruct c; [left|right]; now apply (pairsOf_In _ _ _ l). }
  apply K, in_map_iff in Hin as (p & Hb & Hp). exists p. auto.
Qed.

Lemma search_results_are_complete_witness :
  exists p,
    In p (searchCryptoPairs "btc" (listing [BTCUSDT_item]) (listing [BTCUSD_item])) /\
    baseSymbol p = "BTCUSD".
Proof.
  apply (search_results_are_complete "btc" (listing [BTCUSDT_item])
           (listing [BTCUSD_item]) inverse [BTCUSD_item] BTCUSD_item).
  - apply Nat.ltb_lt. reflexivity.
  - reflexivity.
  - now left.
  - reflexivity.
Defined.

(** ** The order of the trending list *)

Section Trending_order.

Local Open Scope float_scope.

Lemma gt_trans_zero (c x : float) : gt c 0 = true -> gt x c = true -> gt x 0 = true.
Proof.
  intros Hc H. apply gt_zero_above. apply gt_zero_above in Hc.
  unfold gt in H. apply ltb_leb in H. rewrite FloatAxioms.leb_spec in H.
  exact (above_zero_le _ _ Hc H).
Qed.

(** The comparator of the sort is above zero exactly when its first
    argument has the smaller volume. *)
Lemma comparator_spec (a b : Trending.t) :
  gt (Trending.volume24h a) 0 = true -> gt (Trending.volume24h b) 0 = true ->
  gt (comparator a b) 0 = (Trending.volume24h a <? Trending.volume24h b).
Proof. intros Ha Hb. unfold comparator. now apply sub_gt_zero. Qed.

Lemma insertSorted_sorted (x : Trending.t) (l : list Trending.t) :
  Forall (fun t => gt (Trending.volume24h t) 0 = true) (x :: l) ->
  ForallOrdPairs byVolume l -> ForallOrdPairs byVolume (insertSorted x l).
Proof.
  induction l as [|y l IH]; intros P S; cbn [insertSorted].
  - constructor; constructor.
  - inversion S as [|? ? Hy S']; subst.
    inversion P as [|? ? Px Pl]; subst. inversion Pl as [|? ? Py Pl']; subst.
    rewrite (comparator_spec x y Px Py).
    destruct (Trending.volume24h x <? Trending.volume24h y) eqn:L.
    + constructor; [|apply IH; [now constructor|exact S']].
      apply List.Forall_forall. intros z Hz. apply insertSorted_In in Hz as [->|Hz].
      * now apply ltb_leb.
      * rewrite List.Forall_forall in Hy. auto.
    + apply ltb_false_leb in L; [|assumption|assumption].
      constructor; [|now constructor].
      constructor; [exact L|].
      apply List.Forall_forall. intros z Hz.
      rewrite List.Forall_forall in Hy, Pl'.
      apply (leb_trans _ (Trending.volume24h y)).
      * apply gt_zero_nonneg. auto.
      * apply Hy, Hz.
      * exact L.
Qed.

Lemma sortByVolume_sorted (l : list Trending.t) :
  Forall (fun t => gt (Trending.volume24h t) 0 = true) l ->
  ForallOrdPairs byVolume (sortByVolume l).
Proof.
  induction l as [|x l IH]; cbn [sortByVolume fold_right]; intros P.
  - constructor.
  - fold (sortByVolume l). inversion P as [|? ? Px Pl]; subst.
    apply insertSorted_sorted; [|apply IH; exact Pl].
    constructor; [exact Px|].
    apply List.Forall_forall. intros z Hz.
    apply (proj1 (sortByVolume_In z l)) in Hz.
    rewrite List.Forall_forall in Pl. exact (Pl z Hz).
Qed.

Lemma insertSorted_length (x : Trending.t) (l : list Trending.t) :
  length (insertSorted x l) = S (length l).
Proof.
  induction l as [|y l IH]; cbn [insertSorted]; [reflexivity|].
  destruct (gt (comparator x y) 0); cbn; now rewrite ?IH.
Qed.

Lemma sortByVolume_length (l : list Trending.t) :
  length (sortByVolume l) = length l.
Proof.
  induction l as [|x l IH]; cbn [sortByVolume fold_right]; [reflexivity|].
  fold (sortByVolume l). now rewrite insertSorted_length, IH.
Qed.

Lemma ordered_app {A} (R : A -> A -> Prop) (l1 l2 : list A) :
  ForallOrdPairs R (l1 ++ l2) ->
  ForallOrdPairs R l1 /\ forall a b, In a l1 -> In b l2 -> R a b.
Proof.
  induction l1 as [|x l1 IH]; cbn; intros H.
  - split; [constructor|intros ? ? []].
  - inversion H as [|? ? Hx H']; subst. destruct (IH H') as [S1 S2].
    rewrite List.Forall_forall in Hx. split.
    + constructor; [|exact S1]. apply List.Forall_forall. intros z Hz.
      apply Hx. rewrite in_app_iff. auto.
    + intros a b [<-|Ha] Hb; [|auto]. apply Hx. rewrite in_app_iff. auto.
Qed.

End Trending_order.

(** Every candidate of the trending list has a volume above zero. *)
Lemma candidates_volume (m : gmap string Bounds.t) (tickers : list Ticker.t) :
  Forall (fun t => gt (Trending.volume24h t) 0 = true)
         (List.map (trendingOf m) (List.filter (isTrending m) tickers)).
Proof.
  apply List.Forall_forall. intros t Ht.
  apply in_map_iff in Ht as (ticker & <- & Ht). apply filter_In in Ht as [_ Ht].
  unfold isTrending in Ht. rewrite !andb_true_iff in Ht.
  destruct Ht as [[[_ V] _] _]. cbn [trendingOf Trending.volume24h].
  now apply (gt_trans_zero 1000000).
Qed.

(** X16.  The trending list holds at most 8 entries in the order of
    falling volume, and they are the largest: every ticker that passes the
    filter is in the list or has a volume no larger than that of any entry.
    When at most 8 tickers pass the filter, all of them are in the list. *)
Theorem trending_is_top_eight_by_volume
    (tickers : list Ticker.t) (instruments : list Item.t) :
  let shown := validPairsOf tickers instruments in
  let instrumentsMap := instrumentsMapOf instruments in
  length shown <= 8 /\
  ForallOrdPairs byVolume shown /\
  (forall ticker t,
      In ticker tickers -> isTrending instrumentsMap ticker = true ->
      In t shown ->
      In (trendingOf instrumentsMap ticker) shown \/
      (parseFloat (Ticker.volume24h ticker) <=? Trending.volume24h t)%float = true) /\
  (length (List.filter (isTrending instrumentsMap) tickers) <= 8 ->
   forall ticker,
     In ticker tickers -> isTrending instrumentsMap ticker = true ->
     In (trendingOf instrumentsMap ticker) shown).
Proof.
  intros shown m. unfold shown, validPairsOf. fold m.
  set (candidates := List.map (trendingOf m) (List.filter (isTrending m) tickers)).
  pose proof (sortByVolume_sorted candidates (candidates_volume m tickers)) as S.
  rewrite <- (firstn_skipn 8 (sortByVolume candidates)) in S.
  apply ordered_app in S as [S1 S2].
  assert (C : forall ticker, In ticker tickers -> isTrending m ticker = true ->
                             In (trendingOf m ticker) (sortByVolume candidates)).
  { intros ticker Hi Ht. apply sortByVolume_In. unfold candidates.
    apply in_map, filter_In. auto. }
  split; [rewrite length_firstn; lia|]. split; [exact S1|]. split.
  - intros ticker t Hi Ht Hs. specialize (C ticker Hi Ht).
    rewrite <- (firstn_skipn 8 (sortByVolume candidates)), in_app_iff in C.
    destruct C as [C|C]; [now left|right].
    exact (S2 t _ Hs C).
  - intros Hlen ticker Hi Ht. rewrite firstn_all2; [now apply C|].
    rewrite sortByVolume_length. unfold candidates. now rewrite length_map.
Qed.

(** ** The entries of the trending list *)

Lemma instrumentsMapOf_snoc (items : list Item.t) (item : Item.t) :
  instrumentsMapOf (items ++ [item]) =
  <[Item.symbol item := Bounds.make (minLeverageOf item) (maxLeverageOf item)]>
    (instrumentsMapOf items).
Proof. unfold instrumentsMapOf. now rewrite fold_left_app. Qed.

(** [instrumentsMap.get(k)] is what the last instrument with the symbol
    [k] set. *)
Lemma instrumentsMapOf_lookup (items : list Item.t) (k : string) (b : Bounds.t) :
  instrumentsMapOf items !! k = Some b ->
  exists l1 item l2,
    items = l1 ++ item :: l2 /\ Item.symbol item = k /\
    (forall x, In x l2 -> Item.symbol x <> k) /\
    b = Bounds.make (minLeverageOf item) (maxLeverageOf item).
Proof.
  induction items as [|a l IH] using rev_ind.
  - unfold instrumentsMapOf. cbn. now rewrite lookup_empty.
  - rewrite instrumentsMapOf_snoc.
    destruct (decide (Item.symbol a = k)) as [E|N].
    + rewrite E, lookup_insert_eq. intros [= <-].
      exists l, a, []. split; [reflexivity|]. split; [exact E|].
      split; [intros ? []|reflexivity].
    + rewrite lookup_insert_ne by exact N. intros H.
      destruct (IH H) as (l1 & item & l2 & -> & Es & F & Eb).
      exists l1, item, (l2 ++ [a]). rewrite <- app_assoc.
      split; [reflexivity|]. split; [exact Es|]. split; [|exact Eb].
      intros x Hx. apply in_app_iff in Hx as [Hx|[<-|[]]]; auto.
Qed.

(** X17.  Every entry of the trending list is a linear pair whose symbol
    is its base symbol, with a volume above 1000000 and a last price above
    zero; its leverage bounds are those of the last instrument of the
    instruments reply that carries its symbol. *)
Theorem trending_entry_fields
    (tickers : list Ticker.t) (instruments : list Item.t) (t : Trending.t) :
  In t (validPairsOf tickers instruments) ->
  let p := Trending.pair t in
  category p = linear /\ baseSymbol p = symbol p /\
  gt (Trending.volume24h t) 1000000 = true /\
  gt (Trending.lastPrice t) 0 = true /\
  exists l1 item l2,
    instruments = l1 ++ item :: l2 /\ Item.symbol item = symbol p /\
    (forall x, In x l2 -> Item.symbol x <> symbol p) /\
    minLeverage p = minLeverageOf item /\ maxLeverage p = maxLeverageOf item.
Proof.
  intros H p. apply validPairsOf_In in H as (ticker & _ & Ht & E).
  unfold isTrending in Ht. rewrite !andb_true_iff in Ht.
  destruct Ht as [[[_ V] L] M]. apply bool_decide_eq_true in M as [b M].
  unfold p. rewrite E. cbn [trendingOf Trending.pair Trending.volume24h
                            Trending.lastPrice category baseSymbol symbol
                            minLeverage maxLeverage].
  split; [reflexivity|]. split; [reflexivity|]. split; [exact V|]. split; [exact L|].
  rewrite M. cbn [default].
  destruct (instrumentsMapOf_lookup _ _ _ M) as (l1 & item & l2 & E1 & Es & F & ->).
  exists l1, item, l2. auto.
Qed.

Lemma trending_entry_fields_witness :
  Forall (fun t => category (Trending.pair t) = linear /\
                   gt (Trending.volume24h t) 1000000 = true /\
                   gt (Trending.lastPrice t) 0 = true)
         (validPairsOf sample_tickers sample_instruments).
Proof.
  apply List.Forall_forall. intros t Ht.
  destruct (trending_entry_fields sample_tickers sample_instruments t Ht)
    as (H1 & _ & H3 & H4 & _). auto.
Defined.

(** ** The search box and its timers *)

Lemma handleSearchChange_long (value : string) (timeoutId : option nat)
    (panel : SearchPanel) (timers : Timers) :
  2 <= String.length value ->
  handleSearchChange value timeoutId panel timers =
  (Some (nextId timers),
   {| searchTerm := value; searchResults := searchResults panel;
      loading := true; error := "" |},
   {| nextId := S (nextId timers);
      pending := <[nextId timers := value]>
                   (pending (clearTimeout timeoutId timers)) |}).
Proof.
  intros H. unfold handleSearchChange.
  apply Nat.leb_le in H. rewrite H.
  unfold throttledSearch, setTimeout. now destruct timeoutId.
Qed.

Lemma handleSearchChange_short (value : string) (timeoutId : option nat)
    (panel : SearchPanel) (timers : Timers) :
  String.length value < 2 ->
  handleSearchChange value timeoutId panel timers =
  (timeoutId,
   {| searchTerm := value; searchResults := []; loading := false; error := "" |},
   timers).
Proof.
  intros H. unfold handleSearchChange.
  apply Nat.leb_gt in H. now rewrite H.
Qed.

(** X14.  Shortening the input below two characters cancels nothing.
    After an input of two or more characters has scheduled its search, an
    input of fewer than two characters clears the results and the loading
    flag but leaves the timer pending, in whichever closure the handler
    runs; when the timer fires, the results and the message of the old
    value are shown while the search term is the new one. *)
Theorem shortened_input_keeps_the_scheduled_search
    (long short : string) (closure closure' : option nat)
    (panel : SearchPanel) (timers : Timers) (linearReply inverseReply : Reply) :
  2 <= String.length long -> String.length short < 2 ->
  let '(_, panel1, timers1) := handleSearchChange long closure panel timers in
  let '(_, panel2, timers2) := handleSearchChange short closure' panel1 timers1 in
  let id := nextId timers in
  searchTerm panel2 = short /\ searchResults panel2 = [] /\ loading panel2 = false /\
  pending timers2 !! id = Some long /\
  let '(panel3, timers3) := fireTimeout id linearReply inverseReply panel2 timers2 in
  searchTerm panel3 = short /\
  searchResults panel3 = searchCryptoPairs long linearReply inverseReply /\
  error panel3 =
    (if (length (searchCryptoPairs long linearReply inverseReply) =? 0)%nat
     then notFoundMessage long else "") /\
  pending timers3 !! id = None.
Proof.
  intros Hl Hs.
  rewrite (handleSearchChange_long long closure panel timers Hl).
  rewrite (handleSearchChange_short short closure' _ _ Hs).
  cbn [searchTerm searchResults loading pending].
  repeat (split; [reflexivity|]).
  split; [apply lookup_insert_eq|].
  unfold fireTimeout. cbn [pending nextId]. rewrite lookup_insert_eq.
  unfold searchTimeout. apply Nat.leb_le in Hl. rewrite Hl.
  cbn [searchCryptoPairsDone searchTerm searchResults error pending].
  repeat split. apply lookup_delete_eq.
Qed.

Lemma shortened_input_keeps_the_scheduled_search_witness :
  let '(_, panel1, timers1) := handleSearchChange "bt" None emptyPanel noTimers in
  let '(_, panel2, timers2) := handleSearchChange "b" None panel1 timers1 in
  searchTerm panel2 = "b" /\
  let '(panel3, _) :=
    fireTimeout 0 (listing [BTCUSDT_item]) (listing []) panel2 timers2 in
  searchTerm panel3 = "b" /\
  searchResults panel3 = searchCryptoPairs "bt" (listing [BTCUSDT_item]) (listing []).
Proof.
  pose proof (shortened_input_keeps_the_scheduled_search "bt" "b" None None
                emptyPanel noTimers (listing [BTCUSDT_item]) (listing [])
                ltac:(cbn; lia) ltac:(cbn; lia)) as H.
  destruct (handleSearchChange "bt" None emptyPanel noTimers) as [[c1 panel1] timers1].
  destruct (handleSearchChange "b" None panel1 timers1) as [[c2 panel2] timers2].
  destruct H as (H1 & _ & _ & _ & H).
  split; [exact H1|].
  change (nextId noTimers) with 0 in H.
  destruct (fireTimeout 0 (listing [BTCUSDT_item]) (listing []) panel2 timers2)
    as [panel3 timers3].
  destruct H as (H3 & H4 & _). now split.
Defined.

(** X15.  [throttledSearch] cancels the pending search only through the
    [timeoutId] of its own closure.  A second input of two or more
    characters handled in the closure of the first removes the first timer
    and leaves its own; handled in a fresh closure it leaves both timers
    pending. *)
Theorem debounce_within_one_closure
    (first second : string) (closure : option nat)
    (panel : SearchPanel) (timers : Timers) :
  2 <= String.length first -> 2 <= String.length second ->
  let '(closure1, panel1, timers1) := handleSearchChange first closure panel timers in
  let id1 := nextId timers in
  closure1 = Some id1 /\
  (let '(_, _, timers2) := handleSearchChange second closure1 panel1 timers1 in
   pending timers2 !! id1 = None /\
   pending timers2 !! S id1 = Some second) /\
  (let '(_, _, timers2) := handleSearchChange second None panel1 timers1 in
   pending timers2 !! id1 = Some first /\
   pending timers2 !! S id1 = Some second).
Proof.
  intros H1 H2.
  rewrite (handleSearchChange_long first closure panel timers H1).
  split; [reflexivity|].
  rewrite !(handleSearchChange_long second) by exact H2.
  cbn [pending nextId clearTimeout].
  split; split.
  - rewrite lookup_insert_ne by lia. apply lookup_delete_eq.
  - apply lookup_insert_eq.
  - rewrite lookup_insert_ne by lia. apply lookup_insert_eq.
  - apply lookup_insert_eq.
Qed.

Lemma debounce_within_one_closure_witness :
  let '(closure1, panel1, timers1) := handleSearchChange "bt" None emptyPanel noTimers in
  (let '(_, _, timers2) := handleSearchChange "btc" closure1 panel1 timers1 in
   pending timers2 !! 0 = None /\ pending timers2 !! 1 = Some "btc") /\
  (let '(_, _, timers2) := handleSearchChange "btc" None panel1 timers1 in
   pending timers2 !! 0 = Some "bt" /\ pending timers2 !! 1 = Some "btc").
Proof.
  pose proof (debounce_within_one_closure "bt" "btc" None emptyPanel noTimers) as H.
  destruct (handleSearchChange "bt" None emptyPanel noTimers) as [[c1 panel1] timers1].
  apply H.
  - cbn. lia.
  - cbn. lia.
Defined.

(** ** The progress bar *)

Lemma tickProgress_cycle (j : nat) :
  j < 100 ->
  within 1 100 (Nat.iter j tickProgress 100%float) = true /\
  (Nat.iter j tickProgress 100%float =? 0)%float = false.
Proof.
  intros H.
  do 100 (destruct j as [|j]; [split; vm_compute; reflexivity|]).
  lia.
Qed.

Lemma tickProgress_period : Nat.iter 100 tickProgress 100%float = 100%float.
Proof. vm_compute. reflexivity. Qed.

Lemma iter_tick_mod (k : nat) :
  Nat.iter k tickProgress 100%float = Nat.iter (k mod 100) tickProgress 100%float.
Proof.
  assert (G : forall q r, Nat.iter (100 * q + r) tickProgress 100%float =
                          Nat.iter r tickProgress 100%float).
  { intros q r. rewrite Nat.add_comm, Nat.iter_add. f_equal.
    induction q as [|q IH]; [reflexivity|].
    replace (100 * S q) with (100 * q + 100) by lia.
    now rewrite Nat.iter_add, tickProgress_period. }
  pose proof (Nat.div_mod_eq k 100) as E.
  rewrite <- (G (k / 100) (k mod 100)). now rewrite <- E.
Qed.

(** After any events the bar stands where some number of ticks below 100
    puts it. *)
Lemma trendingProgressAfter_ticks (events : list ProgressEvent) :
  exists j, j < 100 /\ trendingProgressAfter events = Nat.iter j tickProgress 100%float.
Proof.
  induction events as [|e events IH] using rev_ind.
  - exists 0. split; [lia|reflexivity].
  - unfold trendingProgressAfter in *. rewrite fold_left_app. cbn [fold_left].
    destruct e; cbn [stepProgress].
    + destruct IH as (j & Hj & ->).
      exists (S j mod 100). split; [apply Nat.mod_upper_bound; lia|].
      rewrite <- iter_tick_mod. reflexivity.
    + exists 0. split; [lia|reflexivity].
Qed.

(** X19.  Whatever ticks and refreshes have happened, the progress of the
    trending list lies between 1 and 100 and is never 0; and 100 further
    ticks bring it back to the value it has. *)
Theorem progress_bar_stays_between_1_and_100 (events : list ProgressEvent) :
  within 1 100 (trendingProgressAfter events) = true /\
  (trendingProgressAfter events =? 0)%float = false /\
  trendingProgressAfter (events ++ repeat progress_tick 100) =
  trendingProgressAfter events.
Proof.
  destruct (trendingProgressAfter_ticks events) as (j & Hj & E).
  destruct (tickProgress_cycle j Hj) as [W Z].
  rewrite E. split; [exact W|]. split; [exact Z|].
  unfold trendingProgressAfter in *. rewrite fold_left_app, E.
  assert (T : forall n p, fold_left stepProgress (repeat progress_tick n) p =
                          Nat.iter n tickProgress p).
  { induction n as [|n IHn]; intros p; [reflexivity|].
    cbn [repeat fold_left stepProgress]. rewrite IHn.
    change (tickProgress p) with (Nat.iter 1 tickProgress p).
    rewrite <- Nat.iter_add. now replace (n + 1) with (S n) by lia. }
  rewrite T, <- Nat.iter_add, iter_tick_mod.
  replace ((100 + j) mod 100) with j; [reflexivity|].
  rewrite Nat.add_comm, <- (Nat.mul_1_l 100) at 1.
  rewrite Nat.Div0.mod_add. symmetry. now apply Nat.mod_small.
Qed.

(** ** What the handlers keep *)


